(** * UFC fight-card scraper: the name extraction and deduplication core

    A shallow embedding of [main.py]: the name cleaner, the name normalizer,
    the pair matcher and the pair extractor / aggregator, together with the
    small script around them.

    Python [str] values are modelled as lists of 8-bit code points (the
    Latin-1 range of Unicode).  The character tables below ([is_space],
    [is_word], [lower], ...) follow what Python 3 does on these code
    points.  Regular expressions are modelled by a small backtracking
    matcher with the priorities of Python's [re] (greedy repetition, leftmost
    alternative first), so that every pattern of the source appears below as
    a term of type [regex] that can be compared with the source text. *)

From Stdlib Require Import Ascii String DecimalString.
From Stdlib Require Import List Bool Arith NArith Lia.
Import ListNotations.

Local Open Scope list_scope.
Local Open Scope bool_scope.

(** ** Strings and characters *)

Abbreviation str := (list ascii) (only parsing).

(** A string literal as a [str]. *)
Definition txt (x : string) : str := list_ascii_of_string x.

Definition code (c : ascii) : N := N_of_ascii c.

Definition in_range (lo hi : N) (c : ascii) : bool :=
  (lo <=? code c)%N && (code c <=? hi)%N.

Definition is_char (a c : ascii) : bool := Ascii.eqb a c.

(** [[A-Z]] *)
Definition is_upper (c : ascii) : bool := in_range 65 90 c.

(** [[a-z]] *)
Definition is_lower (c : ascii) : bool := in_range 97 122 c.

(** [[a-zA-Z]] *)
Definition is_letter (c : ascii) : bool := is_lower c || is_upper c.

(** [\d] on a [str] pattern: the decimal digits. *)
Definition is_digit (c : ascii) : bool := in_range 48 57 c.

(** [\s], [str.isspace], and the separators of [str.split()] and
    [str.strip()]: TAB..CR, FS..US, space, NEL and NBSP. *)
Definition is_space (c : ascii) : bool :=
  in_range 9 13 c || in_range 28 32 c || (code c =? 133)%N || (code c =? 160)%N.

(** [\w] on a [str] pattern: alphanumeric code points and the underscore. *)
Definition is_word (c : ascii) : bool :=
  is_letter c || is_digit c || (code c =? 95)%N
  || (code c =? 170)%N || (code c =? 178)%N || (code c =? 179)%N
  || (code c =? 181)%N || (code c =? 185)%N || (code c =? 186)%N
  || in_range 188 190 c || in_range 192 214 c || in_range 216 246 c
  || in_range 248 255 c.

(** [.] without DOTALL: anything but a line feed. *)
Definition is_dot (c : ascii) : bool := negb (code c =? 10)%N.

(** [str.lower()] on one code point. *)
Definition lower (c : ascii) : ascii :=
  if is_upper c || in_range 192 214 c || in_range 216 222 c
  then ascii_of_N (code c + 32)
  else c.

Definition lower_str (s : str) : str := map lower s.

Fixpoint str_eqb (a b : str) : bool :=
  match a, b with
  | [], [] => true
  | x :: a', y :: b' => Ascii.eqb x y && str_eqb a' b'
  | _, _ => false
  end.

(** [a < b] on strings: lexicographic on code points. *)
Fixpoint str_ltb (a b : str) : bool :=
  match a, b with
  | _, [] => false
  | [], _ :: _ => true
  | x :: a', y :: b' =>
      (code x <? code y)%N || ((code x =? code y)%N && str_ltb a' b')
  end.

Fixpoint lstrip (s : str) : str :=
  match s with
  | c :: s' => if is_space c then lstrip s' else s
  | [] => []
  end.

Fixpoint rstrip (s : str) : str :=
  match s with
  | c :: s' =>
      match rstrip s' with
      | [] => if is_space c then [] else [c]
      | r => c :: r
      end
  | [] => []
  end.

(** [s.strip()] *)
Definition strip (s : str) : str := rstrip (lstrip s).

(** [s.split()]: the maximal runs of non-space characters.  [w] is the word
    being read. *)
Fixpoint split_from (w : str) (s : str) : list str :=
  match s with
  | [] => match w with [] => [] | _ => [w] end
  | c :: s' =>
      if is_space c
      then match w with [] => split_from [] s' | _ => w :: split_from [] s' end
      else split_from (w ++ [c]) s'
  end.

Definition split (s : str) : list str := split_from [] s.

Fixpoint starts_with (p s : str) : bool :=
  match p, s with
  | [], _ => true
  | x :: p', y :: s' => Ascii.eqb x y && starts_with p' s'
  | _ :: _, [] => false
  end.

(** [sub in s] *)
Fixpoint contains (sub s : str) : bool :=
  starts_with sub s ||
  match s with
  | [] => false
  | _ :: s' => contains sub s'
  end.

(** ** Regular expressions

    The fragment of [re] syntax that the program uses.  Repetition is only
    ever applied to a character class in the source, so [Rep] repeats a
    class; [hi = None] is an open upper bound. *)

Inductive regex : Type :=
| Eps
| Chr (p : ascii -> bool)
| Seq (r1 r2 : regex)
| Alt (r1 r2 : regex)
| Rep (p : ascii -> bool) (lo : nat) (hi : option nat)
| Bol
| Eol
| WordB
| Group (r : regex).

(** A position in the subject: the character before it (if any) and the text
    after it.  [^] without MULTILINE holds where there is no character
    before. *)
Abbreviation cursor := (option ascii * str)%type (only parsing).

Abbreviation result := (cursor * list str)%type (only parsing).

Definition cont := cursor -> list str -> option result.

Definition word_before (pv : option ascii) : bool :=
  match pv with Some c => is_word c | None => false end.

Definition word_after (s : str) : bool :=
  match s with c :: _ => is_word c | [] => false end.

(** [$] without MULTILINE: the end, or just before a final line feed. *)
Definition at_eol (s : str) : bool :=
  match s with
  | [] => true
  | [c] => (code c =? 10)%N
  | _ => false
  end.

Definition more (hi : option nat) : bool :=
  match hi with Some 0 => false | _ => true end.

(** Greedy [p{lo,hi}]: take as many as allowed, then give back one at a time
    until the rest of the pattern ([k]) matches. *)
Fixpoint rep (p : ascii -> bool) (lo : nat) (hi : option nat)
    (pv : option ascii) (s : str) (caps : list str) (k : cont)
    : option result :=
  let stop := match lo with 0 => k (pv, s) caps | S _ => None end in
  match s with
  | c :: s' =>
      if p c && more hi
      then match rep p (pred lo) (option_map pred hi) (Some c) s' caps k with
           | Some r => Some r
           | None => stop
           end
      else stop
  | [] => stop
  end.

(** The backtracking matcher, in continuation-passing style: [k] is the rest
    of the pattern.  Groups are numbered as they close, which is their
    source order when they are not nested in each other. *)
Fixpoint rmatch (r : regex) (cur : cursor) (caps : list str) (k : cont)
    : option result :=
  match r with
  | Eps => k cur caps
  | Chr p =>
      match snd cur with
      | c :: s' => if p c then k (Some c, s') caps else None
      | [] => None
      end
  | Seq r1 r2 => rmatch r1 cur caps (fun cur' caps' => rmatch r2 cur' caps' k)
  | Alt r1 r2 =>
      match rmatch r1 cur caps k with
      | Some x => Some x
      | None => rmatch r2 cur caps k
      end
  | Rep p lo hi => rep p lo hi (fst cur) (snd cur) caps k
  | Bol => match fst cur with None => k cur caps | Some _ => None end
  | Eol => if at_eol (snd cur) then k cur caps else None
  | WordB =>
      if xorb (word_before (fst cur)) (word_after (snd cur))
      then k cur caps else None
  | Group r' =>
      rmatch r' cur caps (fun cur' caps' =>
        let n := length (snd cur) - length (snd cur') in
        k cur' (caps' ++ [firstn n (snd cur)]))
  end.

Definition accept : cont := fun cur caps => Some (cur, caps).

(** A match of [r] starting exactly at this position: the number of
    characters it covers and its groups. *)
Definition match_at (r : regex) (pv : option ascii) (s : str)
    : option (nat * list str) :=
  match rmatch r (pv, s) [] accept with
  | Some ((_, s'), caps) => Some (length s - length s', caps)
  | None => None
  end.

(** [re.match(r, s)] as a truth value. *)
Definition re_match (r : regex) (s : str) : bool :=
  match match_at r None s with Some _ => true | None => false end.

(** [re.sub(r, repl, s)] for a pattern that matches no empty string (every
    pattern of the program covers at least one character, see
    [program_patterns_consume]): scan left to right, replace each match, go
    on after it.  [skip] counts the characters of the current match still to
    drop. *)
Fixpoint sub_from (r : regex) (repl : str) (pv : option ascii) (s : str)
    (skip : nat) : str :=
  match s with
  | [] => []
  | c :: s' =>
      match skip with
      | S n => sub_from r repl (Some c) s' n
      | 0 =>
          match match_at r pv s with
          | Some (S n, _) => repl ++ sub_from r repl (Some c) s' n
          | _ => c :: sub_from r repl (Some c) s' 0
          end
      end
  end.

Definition re_sub (r : regex) (repl : str) (s : str) : str :=
  sub_from r repl None s 0.

(** [re.findall] for a pattern with groups: the groups of each match. *)
Fixpoint findall_from (r : regex) (pv : option ascii) (s : str) (skip : nat)
    : list (list str) :=
  match s with
  | [] => []
  | c :: s' =>
      match skip with
      | S n => findall_from r (Some c) s' n
      | 0 =>
          match match_at r pv s with
          | Some (S n, caps) => caps :: findall_from r (Some c) s' n
          | _ => findall_from r (Some c) s' 0
          end
      end
  end.

Definition re_findall (r : regex) (s : str) : list (list str) :=
  findall_from r None s 0.

(** A literal keyword, [re.escape]d (letters and spaces only, so unchanged),
    under [re.I]. *)
Definition same_letter (a c : ascii) : bool := Ascii.eqb (lower c) (lower a).

Definition lit_ci (kw : str) : regex :=
  fold_right (fun a r => Seq (Chr (same_letter a)) r) Eps kw.

Fixpoint alt_ci (kws : list str) : regex :=
  match kws with
  | [] => Eps
  | [kw] => lit_ci kw
  | kw :: rest => Alt (lit_ci kw) (alt_ci rest)
  end.

(** [\s+] *)
Definition ws_plus : regex := Rep is_space 1 None.

(** ** The name cleaner *)

(** [^#\d+\s+] *)
Definition rank_re : regex :=
  Seq Bol (Seq (Chr (is_char "#")) (Seq (Rep is_digit 1 None) ws_plus)).

(** [^C\s+] *)
Definition champ_re : regex := Seq Bol (Seq (Chr (is_char "C")) ws_plus).

(** ['^' + re.escape(keyword) + '\s+'] under [re.I] *)
Definition prefix_re (kw : str) : regex := Seq Bol (Seq (lit_ci kw) ws_plus).

(** ['\s+' + re.escape(keyword) + '$'] under [re.I] *)
Definition suffix_re (kw : str) : regex := Seq ws_plus (Seq (lit_ci kw) Eol).

Definition prefix_keywords : list str :=
  map txt ["Live now"; "Live"; "LIVE NOW"; "LIVE"; "Card"; "Method";
           "Main Card"; "Main"]%string.

Definition suffix_keywords : list str :=
  map txt ["Round"; "Round Time"; "Time"; "Follow live"; "Follow";
           "LIVE NOW"; "LIVE"; "now"]%string.

(** [re.sub(r'\s+', ' ', name.strip())] *)
Definition squeeze (name : str) : str := re_sub ws_plus (txt " ") (strip name).

Definition strip_prefixes (name : str) : str :=
  fold_left (fun name kw => re_sub (prefix_re kw) [] name) prefix_keywords name.

Definition strip_suffixes (name : str) : str :=
  fold_left (fun name kw => re_sub (suffix_re kw) [] name) suffix_keywords name.

Definition clean_fighter_name (name : str) : str :=
  let name := squeeze name in
  let name := re_sub rank_re [] name in
  let name := re_sub champ_re [] name in
  let name := strip_prefixes name in
  let name := strip_suffixes name in
  squeeze name.

(** ** The name normalizer *)

Definition normalize_name_for_matching (name : str) : str :=
  match split name with
  | [] => lower_str name
  | words => lower_str (last words [])
  end.

(** ** The pair matcher *)

Definition names_match (name1 name2 : str) : bool :=
  let name1_lower := lower_str name1 in
  let name2_lower := lower_str name2 in
  if str_eqb name1_lower name2_lower then true
  else if contains name1_lower name2_lower || contains name2_lower name1_lower
  then
    let shorter := if length name1 <? length name2 then name1 else name2 in
    let longer := if length name1 <? length name2 then name2 else name1 in
    let shorter_words := split (lower_str shorter) in
    let longer_words := split (lower_str longer) in
    match shorter_words, longer_words with
    | _ :: _, _ :: _ => str_eqb (last shorter_words []) (last longer_words [])
    | _, _ => false
    end
  else false.

(** ** The pair extractor and aggregator *)

(** [[a-zA-Z\s\-\']] *)
Definition name_char (c : ascii) : bool :=
  is_letter c || is_space c || is_char "-" c || is_char "'" c.

(** [([A-Z][a-zA-Z\s\-\']{2,50})] *)
Definition name_group : regex :=
  Group (Seq (Chr is_upper) (Rep name_char 2 (Some 50))).

(** [\b([A-Z][a-zA-Z\s\-\']{2,50})\s+vs\s+([A-Z][a-zA-Z\s\-\']{2,50})\b] *)
Definition vs_pattern : regex :=
  Seq WordB
   (Seq name_group
     (Seq ws_plus
       (Seq (Chr (is_char "v"))
         (Seq (Chr (is_char "s"))
           (Seq ws_plus
             (Seq name_group WordB)))))).

Definition exclude_patterns : list regex :=
  [ Seq Bol (Seq (Group (alt_ci (map txt ["vs"; "odds"; "Flag"]%string))) Eol);
    Seq Bol (Seq (Group (alt_ci (map txt
      ["United States"; "England"; "Brazil"; "China"; "Russia";
       "Dominican Republic"; "Lithuania"; "Cameroon"]%string))) Eol);
    Seq (Rep is_dot 0 None) (Seq (Group (alt_ci (map txt
      ["Title"; "Bout"; "Interim"; "Women"; "Lightweight"; "Bantamweight";
       "Heavyweight"; "Featherweight"; "Light Heavyweight"; "Middleweight";
       "Flyweight"; "Fight Card"]%string))) (Rep is_dot 0 None)) ].

(** [^[A-Z][a-zA-Z\s\-\']+$] *)
Definition proper_name_re : regex :=
  Seq Bol (Seq (Chr is_upper) (Seq (Rep name_char 1 None) Eol)).

Definition valid_name (fighter : str) : bool :=
  (5 <=? length fighter) && (length fighter <=? 40)
  && negb (existsb (fun pattern => re_match pattern fighter) exclude_patterns)
  && re_match proper_name_re fighter.

Abbreviation pair := (str * str)%type (only parsing).

(** [pattern.findall(text_content)]: one tuple of two groups per match. *)
Definition find_matches (text : str) : list pair :=
  map (fun caps => (nth 0 caps [], nth 1 caps [])) (re_findall vs_pattern text).

(** The two cleaned sides of a match. *)
Definition clean_match (m : pair) : pair :=
  (clean_fighter_name (strip (fst m)), clean_fighter_name (strip (snd m))).

Definition valid_pair (p : pair) : bool :=
  valid_name (fst p) && valid_name (snd p).

(** [tuple(sorted([a, b]))] *)
Definition sorted2 (a b : str) : pair := if str_ltb b a then (b, a) else (a, b).

Definition pair_key (p : pair) : pair :=
  sorted2 (normalize_name_for_matching (fst p))
          (normalize_name_for_matching (snd p)).

(** [seen_pairs]: a [dict] keeps its keys in insertion order. *)
Definition dict := list (pair * pair).

Definition key_eqb (k1 k2 : pair) : bool :=
  str_eqb (fst k1) (fst k2) && str_eqb (snd k1) (snd k2).

(** [d[k] = v]: an existing key keeps its place, a new one goes last. *)
Fixpoint dict_set (d : dict) (k : pair) (v : pair) : dict :=
  match d with
  | [] => [(k, v)]
  | (k', v') :: d' =>
      if key_eqb k' k then (k', v) :: d' else (k', v') :: dict_set d' k v
  end.

Fixpoint dict_get (d : dict) (k : pair) : option pair :=
  match d with
  | [] => None
  | (k', v') :: d' => if key_eqb k' k then Some v' else dict_get d' k
  end.

(** The test of lines 119-120: the pair matches a stored one, as it stands
    or with its sides swapped. *)
Definition same_fight (p existing : pair) : bool :=
  (names_match (fst p) (fst existing) && names_match (snd p) (snd existing))
  || (names_match (fst p) (snd existing) && names_match (snd p) (fst existing)).

(** The [for ... in seen_pairs.items()] loop with its [break]. *)
Fixpoint find_matched_key (d : dict) (p : pair) : option pair :=
  match d with
  | [] => None
  | (existing_key, existing_pair) :: d' =>
      if same_fight p existing_pair then Some existing_key
      else find_matched_key d' p
  end.

Definition unwanted_words : list str :=
  map txt ["live"; "round"; "method"; "card"; "follow"; "time"]%string.

Definition has_unwanted (p : pair) : bool :=
  existsb (fun word => contains word (lower_str (fst p))
                       || contains word (lower_str (snd p))) unwanted_words.

Definition total_len (p : pair) : nat := length (fst p) + length (snd p).

Definition total_words (p : pair) : nat :=
  length (split (fst p)) + length (split (snd p)).

(** Lines 145-151: whether the new pair replaces the stored one. *)
Definition replaces (current existing : pair) : bool :=
  if negb (has_unwanted current) && has_unwanted existing then true
  else if Bool.eqb (has_unwanted current) (has_unwanted existing) then
    if total_words existing <? total_words current then true
    else (total_words current =? total_words existing)
         && (total_len existing <? total_len current)
  else false.

(** What the loop body does with one valid pair. *)
Definition add_pair (seen_pairs : dict) (p : pair) : dict :=
  match find_matched_key seen_pairs p with
  | None => dict_set seen_pairs (pair_key p) p
  | Some matched_key =>
      match dict_get seen_pairs matched_key with
      | Some existing =>
          if replaces p existing then dict_set seen_pairs matched_key p
          else seen_pairs
      | None => seen_pairs
      end
  end.

(** The loop body for one regex match. *)
Definition process_match (seen_pairs : dict) (m : pair) : dict :=
  let p := clean_match m in
  if valid_pair p then add_pair seen_pairs p else seen_pairs.

Definition aggregate (matches : list pair) : dict :=
  fold_left process_match matches [].

(** [get_fighter_pairs_from_ufc_event] from the flattened page text on. *)
Definition fighter_pairs_of_text (text_content : str) : list pair :=
  map snd (aggregate (find_matches text_content)).

(** The cleaned pairs that pass the validity filter, in text order. *)
Definition valid_pairs (text : str) : list pair :=
  filter valid_pair (map clean_match (find_matches text)).

(** ** The script around the extractor

    Fetching and flattening the page are outside the model: the script is a
    function of the flattened text and of the (time-stamped) file name, and
    its effects are the lines it prints and the workbooks it saves. *)

Inductive event : Type :=
| PrintLine (line : str)
| SaveWorkbook (filename : str) (rows : list pair).

Definition decimal (n : nat) : str :=
  txt (DecimalString.NilEmpty.string_of_uint (Nat.to_uint n)).

(** [create_excel_file]: a header row, one row per pair, then the file is
    saved and its name printed. *)
Definition create_excel_file (fight_pairs : list pair) (filename : str)
    : list event :=
  [ SaveWorkbook filename ((txt "fighter 1", txt "fighter 2") :: fight_pairs);
    PrintLine (Ascii.ascii_of_nat 10
               :: txt "Excel file created: " ++ filename) ].

(** Lines 190-199. *)
Definition main_script (output_file : str) (text_content : str) : list event :=
  let fight_pairs := fighter_pairs_of_text text_content in
  PrintLine (txt "Fights found:")
  :: map (fun p => PrintLine (fst p ++ txt " vs " ++ snd p)) fight_pairs
  ++ match fight_pairs with
     | _ :: _ =>
         create_excel_file fight_pairs output_file
         ++ [PrintLine (txt "Total fights saved: "
                        ++ decimal (length fight_pairs))]
     | [] => [PrintLine (txt "No fights found to save.")]
     end.

Definition saves_file (e : event) : bool :=
  match e with SaveWorkbook _ _ => true | PrintLine _ => false end.

(** ** Notions used to state the properties *)

(** The last whitespace-delimited token of a string, if it has one. *)
Definition last_token (s : str) : option str :=
  match split s with
  | [] => None
  | words => Some (last words [])
  end.

(** The number of noise words that occur in either name of a pair. *)
Definition noise_occurrences (p : pair) : nat :=
  length (filter (fun word => contains word (lower_str (fst p))
                              || contains word (lower_str (snd p)))
                 unwanted_words).

(** An output entry stands for an extracted pair when the two match as the
    aggregator matches them, in either direction, or when they fall under
    the same grouping key. *)
Definition represents (entry p : pair) : bool :=
  same_fight entry p || same_fight p entry
  || key_eqb (pair_key entry) (pair_key p).

(** [re.search(r, s)] finds a (non-empty) match somewhere in [s]. *)
Fixpoint search_from (r : regex) (pv : option ascii) (s : str) : bool :=
  match s with
  | [] => false
  | c :: s' =>
      match match_at r pv s with
      | Some (S _, _) => true
      | _ => search_from r (Some c) s'
      end
  end.

Definition re_search (r : regex) (s : str) : bool := search_from r None s.

(** The patterns the cleaner strips with, in the order it applies them. *)
Definition strip_patterns : list regex :=
  rank_re :: champ_re :: map prefix_re prefix_keywords
  ++ map suffix_re suffix_keywords.

(** Some stripping pattern of the cleaner still matches in [s]. *)
Definition strippable (s : str) : bool :=
  existsb (fun r => re_search r s) strip_patterns.

(** The shape of one side of a raw match: a capital letter, then between
    [lo] and [hi] name characters. *)
Definition raw_shape (lo hi : nat) (g : str) : bool :=
  match g with
  | c :: rest =>
      is_upper c && forallb name_char rest
      && (lo <=? length rest) && (length rest <=? hi)
  | [] => false
  end.

(** ** Notions used in the proofs *)

Ltac each_char c := destruct c as [[] [] [] [] [] [] [] []].

(** Every entry is filed under the key of its current value. *)
Definition keyed (d : dict) : Prop :=
  forall k v, In (k, v) d -> k = pair_key v.

Definition unique_keys (d : dict) : Prop := NoDup (map fst d).

(** The length of the longest prefix of [s] made of [p] characters. *)
Fixpoint span_len (p : ascii -> bool) (s : str) : nat :=
  match s with
  | c :: s' => if p c then S (span_len p s') else 0
  | [] => 0
  end.

(** The character before position [n] of a subject [s] that starts after
    [pv]. *)
Definition prev_at (pv : option ascii) (s : str) (n : nat) : option ascii :=
  match n with
  | 0 => pv
  | S m => nth_error s m
  end.

Arguments prev_at : simpl never.

(** The least number of characters a match of [r] covers. *)
Fixpoint min_len (r : regex) : nat :=
  match r with
  | Chr _ => 1
  | Seq r1 r2 => min_len r1 + min_len r2
  | Alt r1 r2 => Nat.min (min_len r1) (min_len r2)
  | Rep _ lo _ => lo
  | Group r' => min_len r'
  | Eps | Bol | Eol | WordB => 0
  end.

(** A pattern without groups hands the groups on unchanged. *)
Fixpoint group_free (r : regex) : bool :=
  match r with
  | Seq r1 r2 | Alt r1 r2 => group_free r1 && group_free r2
  | Group _ => false
  | _ => true
  end.

Definition delete_all (patterns : list regex) (s : str) : str :=
  fold_left (fun name r => re_sub r [] name) patterns s.

(** [re.sub(r'\s+', ' ', s)] read off directly: each run of whitespace
    becomes one space.  [in_run] says that the previous character was
    whitespace. *)
Fixpoint squeeze_ws (in_run : bool) (s : str) : str :=
  match s with
  | [] => []
  | c :: s' =>
      if is_space c
      then if in_run then squeeze_ws true s' else " "%char :: squeeze_ws true s'
      else c :: squeeze_ws false s'
  end.

Definition starts_space (s : str) : bool :=
  match s with c :: _ => is_space c | [] => false end.

Fixpoint ends_space (s : str) : bool :=
  match s with
  | [] => false
  | [c] => is_space c
  | _ :: s' => ends_space s'
  end.

(** Every whitespace character is a plain space that no whitespace follows. *)
Fixpoint single_spaced (s : str) : bool :=
  match s with
  | [] => true
  | c :: s' =>
      (if is_space c then is_char " " c && negb (starts_space s') else true)
      && single_spaced s'
  end.

(** The shape [squeeze] produces. *)
Definition squeezed (s : str) : bool :=
  single_spaced s && negb (starts_space s) && negb (ends_space s).

(** No part of [r] accepts the character [c], and [r] does not ask for the
    end of the text. *)
Fixpoint rejects (c : ascii) (r : regex) : bool :=
  match r with
  | Eps | Bol => true
  | Chr p | Rep p _ _ => negb (p c)
  | Seq r1 r2 | Alt r1 r2 => rejects c r1 && rejects c r2
  | Eol => false
  | WordB => negb (is_word c)
  | Group r' => rejects c r'
  end.

(** The same result, in a subject that goes on with [tail]. *)
Definition extend (tail : str) (res : option result) : option result :=
  match res with
  | Some ((pv, s), caps) => Some ((pv, s ++ tail), caps)
  | None => None
  end.

(** The continuation [k'] does in the longer subject what [k] does in the
    shorter one. *)
Definition extends (tail : str) (k k' : cont) : Prop :=
  forall pv s caps, k' (pv, s ++ tail) caps = extend tail (k (pv, s) caps).

(** A character that can be part neither of a name nor of a word. *)
Definition is_separator (c : ascii) : bool :=
  negb (name_char c) && negb (is_word c).

Definition mention_full : str := txt "#4 Justin Gaethje vs Max Holloway".

Definition mention_short : str := txt "Live now Gaethje vs Holloway".

Definition starts_in (p : ascii -> bool) (s : str) : bool :=
  match s with c :: _ => p c | [] => false end.

(** The shape of one raw side of a match: it starts with a capital letter,
    is made of name characters (letters, whitespace, hyphen, apostrophe)
    and has between 3 and [hi] characters. *)
Definition capture_shape (hi : nat) (g : str) : Prop :=
  starts_in is_upper g = true
  /\ forallb name_char g = true
  /\ 3 <= length g <= hi.

(** No part of [r] takes the character [c], and [r] does not ask for the
    end of the text. *)
Fixpoint takes_not (c : ascii) (r : regex) : bool :=
  match r with
  | Eps | Bol | WordB => true
  | Chr p | Rep p _ _ => negb (p c)
  | Seq r1 r2 | Alt r1 r2 => takes_not c r1 && takes_not c r2
  | Eol => false
  | Group r' => takes_not c r'
  end.

(** The continuation [k'] does in a subject that goes on after [c] what [k]
    does in the subject that ends with [c]. *)
Definition carries (c : ascii) (rest : str) (k k' : cont) : Prop :=
  forall pv s caps,
  k' (pv, s ++ c :: rest) caps = extend rest (k (pv, s ++ [c]) caps).

(** The pattern does not ask for the end of the text. *)
Fixpoint no_eol (r : regex) : bool :=
  match r with
  | Eol => false
  | Seq r1 r2 | Alt r1 r2 => no_eol r1 && no_eol r2
  | Group r' => no_eol r'
  | _ => true
  end.

(** The continuation fails wherever only whitespace is left after a
    character that is no word character. *)
Definition dead (k : cont) : Prop :=
  forall c t caps,
  is_word c = false -> forallb is_space t = true -> k (Some c, t) caps = None.

(** The "vs" pattern up to its closing [\b], and that [\b] as the rest of
    the pattern. *)
Definition vs_open : regex :=
  Seq WordB
   (Seq name_group
     (Seq ws_plus
       (Seq (Chr (is_char "v"))
         (Seq (Chr (is_char "s"))
           (Seq ws_plus name_group))))).

Definition word_end : cont := fun cur caps => rmatch WordB cur caps accept.

(** After any whitespace the text goes on with a character that cannot be
    part of a name; directly after a mention, that character is no word
    character either. *)
Definition closed_by (s : str) : bool :=
  match lstrip s with
  | d :: _ => negb (name_char d) && (starts_space s || negb (is_word d))
  | [] => false
  end.

(** What may follow a mention: only whitespace up to the end of the text,
    or what [closed_by] says. *)
Definition ends_here (s : str) : bool := forallb is_space s || closed_by s.

Definition no_capital (s : str) : bool :=
  forallb (fun c => negb (is_upper c)) s.

(** What may precede a mention: no capital letter stands after the last
    character of [s] that cannot be part of a name, or in [s] at all when
    it has no such character.  [ok] says that no capital was read since
    the last such character. *)
Fixpoint leads_in_from (ok : bool) (s : str) : bool :=
  match s with
  | [] => ok
  | c :: s' =>
      if name_char c then leads_in_from (ok && negb (is_upper c)) s'
      else leads_in_from true s'
  end.

Definition leads_in (s : str) : bool := leads_in_from true s.

Definition full_pair : pair := (txt "Justin Gaethje", txt "Max Holloway").

Definition short_pair : pair := (txt "Gaethje", txt "Holloway").

(** The valid cleaned pairs of a list of raw matches. *)
Definition valid_of (found : list (list str)) : list pair :=
  filter valid_pair
    (map clean_match (map (fun caps => (nth 0 caps [], nth 1 caps [])) found)).

(** The entry for the fight of the two mentions is missing, or one of the
    two pairs. *)
Definition held (d : dict) : Prop :=
  dict_get d (pair_key full_pair) = None
  \/ dict_get d (pair_key full_pair) = Some full_pair
  \/ dict_get d (pair_key full_pair) = Some short_pair.

(** After whitespace comes a "v". *)
Definition late_vs (t : str) : bool :=
  starts_space t && starts_in (is_char "v") (lstrip t).

(** ** Notions used for the further properties *)

(** A whitespace-delimited token: not empty and free of whitespace. *)
Definition is_token (w : str) : bool :=
  match w with
  | [] => false
  | _ :: _ => forallb (fun c => negb (is_space c)) w
  end.

(** [s'] is what is left of [s] after some prefix. *)
Definition suffix_of (s' s : str) : Prop := exists pre, s = pre ++ s'.

(** [g] occurs in [t]. *)
Definition infix_of (g t : str) : Prop := exists pre post, t = pre ++ g ++ post.

(** The same pair with its sides exchanged. *)
Definition swap_sides (p : pair) : pair := (snd p, fst p).

(** A letter, a plain space, a hyphen or an apostrophe. *)
Definition plain_char (c : ascii) : bool :=
  is_letter c || is_char " " c || is_char "-" c || is_char "'" c.

(** What a name of the output looks like. *)
Definition tidy_name (f : str) : Prop :=
  5 <= length f <= 40
  /\ starts_in is_upper f = true
  /\ forallb plain_char f = true
  /\ ends_space f = false
  /\ single_spaced f = true.

(** The word lists of the three exclusion patterns of lines 99-101. *)
Definition excluded_tokens : list str := map txt ["vs"; "odds"; "Flag"]%string.

Definition excluded_countries : list str :=
  map txt ["United States"; "England"; "Brazil"; "China"; "Russia";
           "Dominican Republic"; "Lithuania"; "Cameroon"]%string.

Definition excluded_keywords : list str :=
  map txt ["Title"; "Bout"; "Interim"; "Women"; "Lightweight"; "Bantamweight";
           "Heavyweight"; "Featherweight"; "Light Heavyweight"; "Middleweight";
           "Flyweight"; "Fight Card"]%string.

(** [^(w1|w2|...)$] under [re.I] *)
Definition exact_pattern (words : list str) : regex :=
  Seq Bol (Seq (Group (alt_ci words)) Eol).

(** [.*(w1|w2|...).*] under [re.I] *)
Definition containing_pattern (words : list str) : regex :=
  Seq (Rep is_dot 0 None) (Seq (Group (alt_ci words)) (Rep is_dot 0 None)).

(** The name is none of the excluded words and holds none of the excluded
    keywords, whatever the letter case. *)
Definition free_of_excluded (f : str) : Prop :=
  (forall kw, In kw (excluded_tokens ++ excluded_countries) ->
              lower_str f <> lower_str kw)
  /\ (forall kw, In kw excluded_keywords ->
                 contains (lower_str kw) (lower_str f) = false).

(** The header row of the workbook. *)
Definition header_row : pair := (txt "fighter 1", txt "fighter 2").

(** The line the script prints for a pair. *)
Definition pair_line (p : pair) : event :=
  PrintLine (fst p ++ txt " vs " ++ snd p).

(** What one match of the "vs" pattern covers: a name, whitespace, "vs",
    whitespace, a name. *)
Definition vs_mention (g1 ws1 ws2 g2 : str) : str :=
  g1 ++ ws1 ++ txt "vs" ++ ws2 ++ g2.

Definition blank (ws : str) : bool :=
  match ws with [] => false | _ :: _ => forallb is_space ws end.

(** An entry of the aggregation map as it is first inserted. *)
Definition new_entry (p : pair) : pair * pair := (pair_key p, p).

(** The program's functions are unfolded by name in the proofs, never by
    [simpl]. *)
Arguments is_char : simpl never.
Arguments is_space : simpl never.
Arguments is_upper : simpl never.
Arguments is_letter : simpl never.
Arguments is_digit : simpl never.
Arguments is_word : simpl never.
Arguments name_char : simpl never.
Arguments lower : simpl never.
Arguments clean_fighter_name : simpl never.
Arguments normalize_name_for_matching : simpl never.
Arguments names_match : simpl never.
Arguments valid_name : simpl never.
Arguments valid_pair : simpl never.
Arguments clean_match : simpl never.
Arguments pair_key : simpl never.
Arguments same_fight : simpl never.
Arguments replaces : simpl never.
Arguments add_pair : simpl never.
Arguments process_match : simpl never.
Arguments find_matches : simpl never.
Arguments represents : simpl never.

(** ** Characters and strings: basic facts *)

Lemma is_space_lower (c : ascii) : is_space (lower c) = is_space c.
Proof. each_char c; reflexivity. Qed.

Lemma str_eqb_eq (a b : str) : str_eqb a b = true <-> a = b.
Proof.
  revert b; induction a as [|x a IH]; intros [|y b]; simpl; split;
    try congruence; try discriminate.
  - intros H. apply andb_true_iff in H as [H1 H2].
    apply Ascii.eqb_eq in H1. apply IH in H2. congruence.
  - intros H. injection H as -> ->. apply andb_true_iff. split.
    + apply Ascii.eqb_refl.
    + now apply IH.
Qed.

Lemma str_eqb_refl (a : str) : str_eqb a a = true.
Proof. now apply str_eqb_eq. Qed.

Lemma key_eqb_eq (k1 k2 : pair) : key_eqb k1 k2 = true <-> k1 = k2.
Proof.
  destruct k1 as [a b], k2 as [c d]; unfold key_eqb; simpl.
  rewrite andb_true_iff, !str_eqb_eq. split.
  - intros [-> ->]; reflexivity.
  - intros H; injection H as -> ->; split; reflexivity.
Qed.

Lemma code_inj (x y : ascii) : code x = code y -> x = y.
Proof.
  unfold code. intros H.
  rewrite <- (ascii_N_embedding x), <- (ascii_N_embedding y). now rewrite H.
Qed.

Lemma str_ltb_irrefl (a : str) : str_ltb a a = false.
Proof.
  induction a as [|x a IH]; simpl; [reflexivity|].
  rewrite N.ltb_irrefl, N.eqb_refl, IH. reflexivity.
Qed.

Lemma str_ltb_asym (a b : str) : str_ltb a b = true -> str_ltb b a = false.
Proof.
  revert b; induction a as [|x a IH]; intros [|y b]; simpl; try congruence.
  intros H. apply orb_true_iff in H as [H|H].
  - apply N.ltb_lt in H.
    replace (code y <? code x)%N with false by (symmetry; apply N.ltb_ge; lia).
    replace (code y =? code x)%N with false by (symmetry; apply N.eqb_neq; lia).
    reflexivity.
  - apply andb_true_iff in H as [H1 H2]. apply N.eqb_eq in H1.
    rewrite H1, N.ltb_irrefl, N.eqb_refl. simpl. now apply IH.
Qed.

Lemma str_ltb_total (a b : str) :
  str_ltb a b = false -> str_ltb b a = false -> a = b.
Proof.
  revert b; induction a as [|x a IH]; intros [|y b]; simpl;
    try congruence.
  intros H1 H2.
  apply orb_false_iff in H1 as [H1 H1'], H2 as [H2 H2'].
  apply N.ltb_ge in H1, H2.
  assert (E : code x = code y) by lia.
  rewrite E, N.eqb_refl in H1', H2'. simpl in H1', H2'.
  apply code_inj in E. subst y. f_equal. now apply IH.
Qed.

Lemma sorted2_comm (a b : str) : sorted2 a b = sorted2 b a.
Proof.
  unfold sorted2.
  destruct (str_ltb b a) eqn:Hba, (str_ltb a b) eqn:Hab; try reflexivity.
  - apply str_ltb_asym in Hba. congruence.
  - now rewrite (str_ltb_total a b Hab Hba).
Qed.

Lemma starts_with_length (p s : str) :
  starts_with p s = true -> length p <= length s.
Proof.
  revert s; induction p as [|x p IH]; intros [|y s]; simpl; try lia;
    try discriminate.
  intros H. apply andb_true_iff in H as [_ H]. apply IH in H. lia.
Qed.

Lemma starts_with_same_length (p s : str) :
  starts_with p s = true -> length p = length s -> p = s.
Proof.
  revert s; induction p as [|x p IH]; intros [|y s]; simpl; try discriminate;
    try reflexivity.
  intros H L. apply andb_true_iff in H as [H1 H2].
  apply Ascii.eqb_eq in H1. subst y. f_equal. apply IH; [assumption|lia].
Qed.

Lemma contains_length (sub s : str) :
  contains sub s = true -> length sub <= length s.
Proof.
  induction s as [|y s IH]; simpl; intros H;
    apply orb_true_iff in H as [H|H]; try discriminate.
  - apply starts_with_length in H. simpl in H. lia.
  - apply starts_with_length in H. simpl in H. lia.
  - apply IH in H. lia.
Qed.

Lemma contains_same_length (sub s : str) :
  contains sub s = true -> length sub = length s -> sub = s.
Proof.
  destruct s as [|y s]; simpl; intros H L;
    apply orb_true_iff in H as [H|H]; try discriminate.
  - now apply starts_with_same_length.
  - now apply starts_with_same_length.
  - apply contains_length in H. simpl in L. lia.
Qed.

Lemma lower_str_length (s : str) : length (lower_str s) = length s.
Proof. apply length_map. Qed.

(** ** Splitting commutes with lowering *)

Lemma split_from_lower (w s : str) :
  split_from (lower_str w) (lower_str s) = map lower_str (split_from w s).
Proof.
  revert w; induction s as [|c s IH]; intros w; simpl.
  - destruct w; reflexivity.
  - rewrite is_space_lower. destruct (is_space c).
    + pose proof (IH []) as IH0. simpl in IH0.
      destruct w; simpl; rewrite IH0; reflexivity.
    + rewrite <- IH. unfold lower_str. rewrite map_app. reflexivity.
Qed.

Lemma split_lower (s : str) : split (lower_str s) = map lower_str (split s).
Proof. apply (split_from_lower [] s). Qed.

Lemma last_lower (l : list str) :
  last (map lower_str l) [] = lower_str (last l []).
Proof.
  induction l as [|x l IH]; simpl; [reflexivity|].
  destruct l; simpl in *; [reflexivity|assumption].
Qed.

Lemma last_token_lower (s : str) :
  last_token (lower_str s) = option_map lower_str (last_token s).
Proof.
  unfold last_token. rewrite split_lower.
  destruct (split s) as [|w ws] eqn:E; simpl; [reflexivity|].
  f_equal. apply (last_lower (w :: ws)).
Qed.

Lemma normalize_last_token (s : str) :
  normalize_name_for_matching s =
  match last_token (lower_str s) with Some t => t | None => lower_str s end.
Proof.
  rewrite last_token_lower. unfold normalize_name_for_matching, last_token.
  destruct (split s); reflexivity.
Qed.

(** What [names_match] computes, in terms of last tokens. *)
Lemma names_match_unfold (a b : str) :
  names_match a b =
  if str_eqb (lower_str a) (lower_str b) then true
  else if contains (lower_str a) (lower_str b)
          || contains (lower_str b) (lower_str a)
  then match last_token (lower_str (if length a <? length b then a else b)),
             last_token (lower_str (if length a <? length b then b else a)) with
       | Some t, Some u => str_eqb t u
       | _, _ => false
       end
  else false.
Proof.
  unfold names_match, last_token.
  destruct (str_eqb (lower_str a) (lower_str b)); [reflexivity|].
  destruct (contains (lower_str a) (lower_str b)
            || contains (lower_str b) (lower_str a)); [|reflexivity].
  destruct (split (lower_str (if length a <? length b then a else b)));
    [reflexivity|].
  destruct (split (lower_str (if length a <? length b then b else a)));
    reflexivity.
Qed.

Lemma names_match_same_key (a b : str) :
  names_match a b = true ->
  normalize_name_for_matching a = normalize_name_for_matching b.
Proof.
  rewrite names_match_unfold, !normalize_last_token.
  destruct (str_eqb (lower_str a) (lower_str b)) eqn:E.
  - intros _. apply str_eqb_eq in E. now rewrite E.
  - destruct (contains (lower_str a) (lower_str b)
              || contains (lower_str b) (lower_str a)); [|discriminate].
    destruct (length a <? length b);
      destruct (last_token (lower_str a)), (last_token (lower_str b));
      try discriminate; intros H; apply str_eqb_eq in H; congruence.
Qed.

(** ** The aggregation map *)

Lemma same_fight_same_key (p e : pair) :
  same_fight p e = true -> pair_key p = pair_key e.
Proof.
  unfold same_fight, pair_key. intros H.
  apply orb_true_iff in H as [H|H]; apply andb_true_iff in H as [H1 H2];
    apply names_match_same_key in H1, H2; rewrite H1, H2.
  - reflexivity.
  - apply sorted2_comm.
Qed.

Lemma dict_set_in (d : dict) (k v : pair) (k0 v0 : pair) :
  In (k0, v0) (dict_set d k v) -> In (k0, v0) d \/ (k0 = k /\ v0 = v).
Proof.
  induction d as [|[k' v'] d IH]; simpl.
  - intros [H|[]]. injection H as <- <-. now right.
  - destruct (key_eqb k' k) eqn:E; simpl.
    + apply key_eqb_eq in E. subst k'. intros [H|H].
      * injection H as <- <-. now right.
      * left. now right.
    + intros [H|H].
      * left. now left.
      * destruct (IH H) as [H'|H']; [left; now right|now right].
Qed.

Lemma dict_set_key_in (d : dict) (k v : pair) (x : pair) :
  In x (map fst (dict_set d k v)) -> In x (map fst d) \/ x = k.
Proof.
  intros H. apply in_map_iff in H as [[k0 v0] [<- H]].
  apply dict_set_in in H as [H|[-> _]]; [left|now right].
  apply in_map_iff. now exists (k0, v0).
Qed.

Lemma dict_set_unique (d : dict) (k v : pair) :
  unique_keys d -> unique_keys (dict_set d k v).
Proof.
  unfold unique_keys. induction d as [|[k' v'] d IH]; simpl; intros H.
  - constructor; [intros []|constructor].
  - inversion H as [|? ? Hn Hd]; subst.
    destruct (key_eqb k' k) eqn:E; simpl.
    + now constructor.
    + constructor; [|now apply IH].
      intros Hin. apply dict_set_key_in in Hin as [Hin| ->]; [contradiction|].
      rewrite (proj2 (key_eqb_eq k k) eq_refl) in E. discriminate.
Qed.

Lemma dict_set_keyed (d : dict) (k v : pair) :
  keyed d -> k = pair_key v -> keyed (dict_set d k v).
Proof.
  intros Hd Hk k0 v0 H. apply dict_set_in in H as [H|[-> ->]]; auto.
Qed.

Lemma dict_set_length (d : dict) (k v : pair) :
  length d <= length (dict_set d k v) /\ 1 <= length (dict_set d k v).
Proof.
  induction d as [|[k' v'] d IH]; simpl; [lia|].
  destruct (key_eqb k' k); simpl; lia.
Qed.

Lemma find_matched_key_in (d : dict) (p k : pair) :
  find_matched_key d p = Some k ->
  exists e, In (k, e) d /\ same_fight p e = true.
Proof.
  induction d as [|[k' e'] d IH]; simpl; [discriminate|].
  destruct (same_fight p e') eqn:E.
  - intros H. injection H as <-. exists e'. split; [now left|assumption].
  - intros H. destruct (IH H) as [e [Hin He]]. exists e.
    split; [now right|assumption].
Qed.

Lemma add_pair_invariant (d : dict) (p : pair) :
  keyed d /\ unique_keys d ->
  keyed (add_pair d p) /\ unique_keys (add_pair d p).
Proof.
  intros [Hk Hu]. unfold add_pair.
  destruct (find_matched_key d p) as [k|] eqn:F.
  - destruct (dict_get d k) as [existing|]; [|now split].
    destruct (replaces p existing); [|now split].
    apply find_matched_key_in in F as [e [Hin He]].
    split; [|now apply dict_set_unique].
    apply dict_set_keyed; [assumption|].
    rewrite (Hk _ _ Hin). symmetry. now apply same_fight_same_key.
  - split; [now apply dict_set_keyed|now apply dict_set_unique].
Qed.

Lemma process_match_invariant (d : dict) (m : pair) :
  keyed d /\ unique_keys d ->
  keyed (process_match d m) /\ unique_keys (process_match d m).
Proof.
  intros H. unfold process_match.
  destruct (valid_pair (clean_match m));
    [now apply add_pair_invariant|assumption].
Qed.

Lemma fold_invariant (ms : list pair) (d : dict) :
  keyed d /\ unique_keys d ->
  keyed (fold_left process_match ms d)
  /\ unique_keys (fold_left process_match ms d).
Proof.
  revert d; induction ms as [|m ms IH]; intros d H; cbn [fold_left];
    [assumption|].
  apply IH. now apply process_match_invariant.
Qed.

Lemma aggregate_invariant (ms : list pair) :
  keyed (aggregate ms) /\ unique_keys (aggregate ms).
Proof.
  apply fold_invariant. split.
  - intros k v [].
  - constructor.
Qed.

Lemma filter_none_without_key (d : dict) (q : pair -> bool) (K : pair) :
  keyed d -> (forall e, q e = true -> pair_key e = K) ->
  ~ In K (map fst d) -> filter q (map snd d) = [].
Proof.
  intros Hk Hq. induction d as [|[k v] d IH]; simpl; intros Hn; [reflexivity|].
  destruct (q v) eqn:E.
  - exfalso. apply Hn. left. rewrite (Hk k v (or_introl eq_refl)). now apply Hq.
  - apply IH.
    + intros k0 v0 H. apply Hk. now right.
    + intros H. apply Hn. now right.
Qed.

Lemma at_most_one_per_key (d : dict) (q : pair -> bool) (K : pair) :
  keyed d -> unique_keys d -> (forall e, q e = true -> pair_key e = K) ->
  length (filter q (map snd d)) <= 1.
Proof.
  intros Hk Hu Hq. induction d as [|[k v] d IH]; simpl; [lia|].
  inversion Hu as [|? ? Hn Hd]; subst.
  assert (Hk' : keyed d) by (intros k0 v0 H; apply Hk; now right).
  destruct (q v) eqn:E.
  - rewrite (filter_none_without_key d q K Hk' Hq); [simpl; lia|].
    rewrite <- (Hq v E), <- (Hk k v (or_introl eq_refl)). exact Hn.
  - now apply IH.
Qed.

Lemma represents_same_key (e p : pair) :
  represents e p = true -> pair_key e = pair_key p.
Proof.
  unfold represents. intros H.
  apply orb_true_iff in H as [H|H]; [apply orb_true_iff in H as [H|H]|].
  - now apply same_fight_same_key.
  - symmetry. now apply same_fight_same_key.
  - now apply key_eqb_eq.
Qed.

(** With no valid pair, the loop never touches the map. *)
Lemma fold_no_valid (ms : list pair) (d : dict) :
  filter valid_pair (map clean_match ms) = [] ->
  fold_left process_match ms d = d.
Proof.
  revert d; induction ms as [|m ms IH]; intros d; cbn [map filter fold_left];
    [reflexivity|].
  unfold process_match at 2.
  destruct (valid_pair (clean_match m)); [discriminate|]. apply IH.
Qed.

Lemma add_pair_length (d : dict) (p : pair) :
  length d <= length (add_pair d p) /\ 1 <= length (add_pair d p).
Proof.
  unfold add_pair. destruct (find_matched_key d p) as [k|] eqn:F.
  - apply find_matched_key_in in F as [e [Hin _]].
    assert (1 <= length d) by (destruct d; [destruct Hin|simpl; lia]).
    destruct (dict_get d k) as [existing|]; [|lia].
    destruct (replaces p existing); [|lia].
    apply dict_set_length.
  - apply dict_set_length.
Qed.

Lemma fold_length (ms : list pair) (d : dict) :
  length d <= length (fold_left process_match ms d).
Proof.
  revert d; induction ms as [|m ms IH]; intros d; cbn [fold_left]; [lia|].
  etransitivity; [|apply IH]. unfold process_match.
  destruct (valid_pair (clean_match m)); [apply add_pair_length|lia].
Qed.

Lemma fold_some_valid (ms : list pair) (d : dict) :
  filter valid_pair (map clean_match ms) <> [] ->
  1 <= length (fold_left process_match ms d).
Proof.
  revert d; induction ms as [|m ms IH]; intros d; cbn [map filter fold_left];
    [congruence|].
  unfold process_match at 2.
  destruct (valid_pair (clean_match m)) eqn:E.
  - intros _. etransitivity; [|apply fold_length]. apply add_pair_length.
  - apply IH.
Qed.

Lemma no_pairs_iff (text : str) :
  fighter_pairs_of_text text = [] <-> valid_pairs text = [].
Proof.
  unfold fighter_pairs_of_text, valid_pairs, aggregate. split.
  - intros H.
    destruct (filter valid_pair (map clean_match (find_matches text))) eqn:E;
      [reflexivity|].
    assert (L : 1 <= length (fold_left process_match (find_matches text) [])).
    { apply fold_some_valid. rewrite E. discriminate. }
    apply (f_equal (@length pair)) in H. rewrite length_map in H.
    simpl in H. lia.
  - intros H. now rewrite fold_no_valid.
Qed.

(** ** The matcher: what a match looks like *)

Lemma prev_at_cons (pv : option ascii) (c : ascii) (s : str) (n : nat) :
  prev_at (Some c) s n = prev_at pv (c :: s) (S n).
Proof. destruct n; reflexivity. Qed.

Lemma span_len_le (p : ascii -> bool) (s : str) : span_len p s <= length s.
Proof. induction s as [|c s IH]; simpl; [lia|]. destruct (p c); lia. Qed.

Lemma span_len_firstn (p : ascii -> bool) (s : str) (n : nat) :
  n <= span_len p s -> forallb p (firstn n s) = true.
Proof.
  revert n; induction s as [|c s IH]; intros [|n]; simpl; try reflexivity;
    try lia.
  destruct (p c); [|lia]. intros H. simpl. apply IH. lia.
Qed.

(** Where a repetition stops, the rest of the pattern goes on. *)
Lemma rep_sound (p : ascii -> bool) (s : str) :
  forall lo hi pv caps k res,
  rep p lo hi pv s caps k = Some res ->
  exists n, lo <= n /\ n <= span_len p s
            /\ (forall h, hi = Some h -> n <= h)
            /\ k (prev_at pv s n, skipn n s) caps = Some res.
Proof.
  induction s as [|c s IH]; intros lo hi pv caps k res; simpl.
  - destruct lo; [|discriminate]. intros H. exists 0. repeat split; auto; lia.
  - assert (Stop : match lo with 0 => k (pv, c :: s) caps | S _ => None end
                   = Some res ->
                   exists n, lo <= n /\ n <= (if p c then S (span_len p s) else 0)
                     /\ (forall h, hi = Some h -> n <= h)
                     /\ k (prev_at pv (c :: s) n, skipn n (c :: s)) caps = Some res).
    { destruct lo; [|discriminate]. intros H. exists 0.
      repeat split; auto; lia. }
    destruct (p c) eqn:Pc; simpl; [|exact Stop].
    destruct (more hi) eqn:M; [|exact Stop].
    destruct (rep p (pred lo) (option_map pred hi) (Some c) s caps k)
      as [r|] eqn:R; [|exact Stop].
    intros H. injection H as ->.
    apply IH in R as [n [Hlo [Hsp [Hhi Hk]]]].
    exists (S n). repeat split; try lia.
    + intros h ->. destruct h; [discriminate|].
      specialize (Hhi h eq_refl). lia.
    + rewrite <- prev_at_cons. exact Hk.
Qed.

(** An open-ended repetition takes the whole run when the rest of the
    pattern matches after it. *)
Lemma rep_takes_run (p : ascii -> bool) (s : str) :
  forall lo pv caps k res,
  lo <= span_len p s ->
  k (prev_at pv s (span_len p s), skipn (span_len p s) s) caps = Some res ->
  rep p lo None pv s caps k = Some res.
Proof.
  induction s as [|c s IH]; intros lo pv caps k res; simpl.
  - intros L H. destruct lo; [assumption|lia].
  - destruct (p c) eqn:Pc; simpl.
    + intros L H. rewrite (IH (pred lo) (Some c) caps k res); auto; [lia|].
      now rewrite (prev_at_cons pv).
    + intros L H. destruct lo; [assumption|lia].
Qed.

Lemma rep_short_run (p : ascii -> bool) (s : str) :
  forall lo hi pv caps k,
  span_len p s < lo -> rep p lo hi pv s caps k = None.
Proof.
  induction s as [|c s IH]; intros lo hi pv caps k; simpl.
  - destruct lo; [lia|reflexivity].
  - destruct (p c) eqn:Pc; simpl.
    + intros L. destruct lo; [lia|].
      rewrite IH by (simpl; lia). destruct (more hi); reflexivity.
    + destruct lo; [lia|reflexivity].
Qed.

(** ... and only the whole run when the rest of the pattern cannot start
    with a [p] character. *)
Lemma rep_whole_run (p : ascii -> bool) (k : cont) (s : str) :
  (forall pv' c s' caps', p c = true -> k (pv', c :: s') caps' = None) ->
  forall lo pv caps,
  rep p lo None pv s caps k =
  if lo <=? span_len p s
  then k (prev_at pv s (span_len p s), skipn (span_len p s) s) caps
  else None.
Proof.
  intros Hk. induction s as [|c s IH]; intros lo pv caps; simpl.
  - destruct lo; reflexivity.
  - destruct (p c) eqn:Pc; simpl.
    + rewrite IH, <- (prev_at_cons pv). destruct lo as [|lo]; simpl.
      * rewrite (Hk pv c s caps Pc).
        destruct (k (prev_at (Some c) s (span_len p s), skipn (span_len p s) s) caps);
          reflexivity.
      * destruct (lo <=? span_len p s); [|reflexivity].
        destruct (k (prev_at (Some c) s (span_len p s), skipn (span_len p s) s) caps);
          reflexivity.
    + destruct lo; reflexivity.
Qed.

Lemma rmatch_group_free (r : regex) :
  group_free r = true ->
  forall cur caps k res,
  rmatch r cur caps k = Some res -> exists cur', k cur' caps = Some res.
Proof.
  induction r as [|p|r1 IH1 r2 IH2|r1 IH1 r2 IH2|p lo hi| | | |r IH];
    simpl; intros G cur caps k res H; try discriminate.
  - now exists cur.
  - destruct (snd cur) as [|c s']; [discriminate|].
    destruct (p c); [|discriminate]. now exists (Some c, s').
  - apply andb_true_iff in G as [G1 G2].
    apply (IH1 G1) in H as [cur1 H]. now apply (IH2 G2) in H.
  - apply andb_true_iff in G as [G1 G2].
    destruct (rmatch r1 cur caps k) eqn:E.
    + injection H as ->. now apply (IH1 G1) in E.
    + now apply (IH2 G2) in H.
  - apply rep_sound in H as [n [_ [_ [_ H]]]]. eauto.
  - destruct (fst cur); [discriminate|]. now exists cur.
  - destruct (at_eol (snd cur)); [|discriminate]. now exists cur.
  - destruct (xorb _ _); [|discriminate]. now exists cur.
Qed.

(** A match covers at least [min_len r] characters. *)
Lemma rmatch_min_len (r : regex) :
  forall pv s caps k res,
  rmatch r (pv, s) caps k = Some res ->
  exists pv' s' caps',
    k (pv', s') caps' = Some res /\ length s' + min_len r <= length s.
Proof.
  induction r as [|p|r1 IH1 r2 IH2|r1 IH1 r2 IH2|p lo hi| | | |r IH];
    intros pv s caps k res; cbn [rmatch min_len fst snd]; intros H.
  - exists pv, s, caps. split; [exact H|lia].
  - destruct s as [|c s]; [discriminate|]. destruct (p c); [|discriminate].
    exists (Some c), s, caps. split; [exact H|simpl; lia].
  - apply IH1 in H as [pv1 [s1 [caps1 [H L1]]]].
    apply IH2 in H as [pv2 [s2 [caps2 [H L2]]]].
    exists pv2, s2, caps2. split; [exact H|lia].
  - destruct (rmatch r1 (pv, s) caps k) as [x|] eqn:E.
    + injection H as ->. apply IH1 in E as [pv1 [s1 [caps1 [H L]]]].
      exists pv1, s1, caps1. split; [exact H|lia].
    + apply IH2 in H as [pv2 [s2 [caps2 [H L]]]].
      exists pv2, s2, caps2. split; [exact H|lia].
  - apply rep_sound in H as [n [Hlo [Hsp [_ H]]]].
    exists (prev_at pv s n), (skipn n s), caps. split; [exact H|].
    pose proof (span_len_le p s). rewrite length_skipn. lia.
  - destruct pv; [discriminate|]. exists None, s, caps. split; [exact H|lia].
  - destruct (at_eol s); [|discriminate].
    exists pv, s, caps. split; [exact H|lia].
  - destruct (xorb _ _); [|discriminate].
    exists pv, s, caps. split; [exact H|lia].
  - apply IH in H as [pv1 [s1 [caps1 [H L]]]]. eauto.
Qed.

Lemma match_at_min_len (r : regex) pv (s : str) (n : nat) (caps : list str) :
  match_at r pv s = Some (n, caps) -> min_len r <= n.
Proof.
  unfold match_at.
  destruct (rmatch r (pv, s) [] accept) as [[[pv' s'] caps']|] eqn:E;
    [|discriminate].
  intros H. injection H as <- _.
  apply rmatch_min_len in E as [pv1 [s1 [caps1 [H L]]]].
  unfold accept in H. injection H as _ -> _. lia.
Qed.

(** Every pattern the program substitutes or scans with covers at least one
    character, so none of them ever matches the empty string. *)
Lemma program_patterns_consume :
  Forall (fun r => 1 <= min_len r) (ws_plus :: vs_pattern :: strip_patterns).
Proof. repeat constructor; vm_compute; lia. Qed.

Lemma no_empty_match (r : regex) pv (s : str) (caps : list str) :
  In r (ws_plus :: vs_pattern :: strip_patterns) ->
  match_at r pv s <> Some (0, caps).
Proof.
  intros I H. apply match_at_min_len in H.
  pose proof program_patterns_consume as F. rewrite Forall_forall in F.
  specialize (F r I). lia.
Qed.

Lemma length_skipn_sub (s : str) (n : nat) :
  n <= length s -> length s - length (skipn n s) = n.
Proof. intros H. rewrite length_skipn. lia. Qed.

(** One side of the "vs" pattern: what its group holds. *)
Lemma name_group_sound (cur : cursor) (caps : list str) (k : cont)
    (res : result) :
  rmatch name_group cur caps k = Some res ->
  exists g cur', raw_shape 2 50 g = true /\ k cur' (caps ++ [g]) = Some res.
Proof.
  destruct cur as [pv s]. unfold name_group. cbn [rmatch fst snd].
  destruct s as [|c s]; [discriminate|].
  destruct (is_upper c) eqn:U; [|discriminate].
  intros H. apply rep_sound in H as [n [Hlo [Hsp [Hhi H]]]].
  cbn [fst snd] in H.
  assert (Hn : n <= length s) by (pose proof (span_len_le name_char s); lia).
  replace (length (c :: s) - length (skipn n s)) with (S n) in H
    by (cbn [length]; rewrite length_skipn; lia).
  eexists; eexists; split; [|exact H].
  cbn [firstn raw_shape]. rewrite U, (span_len_firstn _ _ _ Hsp), length_firstn.
  specialize (Hhi 50 eq_refl).
  replace (Nat.min n (length s)) with n by lia.
  rewrite (proj2 (Nat.leb_le 2 n) Hlo), (proj2 (Nat.leb_le n 50) Hhi).
  reflexivity.
Qed.

Lemma seq_group_free (r1 r2 : regex) cur caps k res :
  group_free r1 = true ->
  rmatch (Seq r1 r2) cur caps k = Some res ->
  exists cur', rmatch r2 cur' caps k = Some res.
Proof.
  intros G H.
  change (rmatch r1 cur caps (fun c' caps' => rmatch r2 c' caps' k)
          = Some res) in H.
  now apply (rmatch_group_free r1 G) in H.
Qed.

Lemma seq_name_group (r2 : regex) cur caps k res :
  rmatch (Seq name_group r2) cur caps k = Some res ->
  exists g cur', raw_shape 2 50 g = true
                 /\ rmatch r2 cur' (caps ++ [g]) k = Some res.
Proof.
  intros H.
  change (rmatch name_group cur caps (fun c' caps' => rmatch r2 c' caps' k)
          = Some res) in H.
  now apply name_group_sound in H.
Qed.

Lemma vs_pattern_groups (pv : option ascii) (s : str) (n : nat)
    (caps : list str) :
  match_at vs_pattern pv s = Some (n, caps) ->
  exists g1 g2, caps = [g1; g2]
                /\ raw_shape 2 50 g1 = true /\ raw_shape 2 50 g2 = true.
Proof.
  unfold match_at.
  destruct (rmatch vs_pattern (pv, s) [] accept) as [[[pv' s'] caps']|] eqn:E;
    [|discriminate].
  intros H. injection H as _ <-.
  unfold vs_pattern in E.
  apply seq_group_free in E as [c1 E]; [|reflexivity].
  apply seq_name_group in E as [g1 [c2 [S1 E]]].
  do 4 (apply seq_group_free in E as [? E]; [|reflexivity]).
  apply seq_name_group in E as [g2 [c7 [S2 E]]].
  apply (rmatch_group_free WordB eq_refl) in E as [c8 E].
  unfold accept in E. injection E as _ <-.
  exists g1, g2. auto.
Qed.

Lemma findall_from_forall (r : regex) (P : list str -> Prop) :
  (forall pv s n caps, match_at r pv s = Some (n, caps) -> P caps) ->
  forall s pv skip, Forall P (findall_from r pv s skip).
Proof.
  intros HP. induction s as [|c s IH]; intros pv skip; simpl; [constructor|].
  destruct skip; [|apply IH].
  destruct (match_at r pv (c :: s)) as [[[|n] caps]|] eqn:E; try apply IH.
  constructor; [now apply (HP _ _ _ _ E)|apply IH].
Qed.

Lemma find_matches_shape (text : str) (g1 g2 : str) :
  In (g1, g2) (find_matches text) ->
  raw_shape 2 50 g1 = true /\ raw_shape 2 50 g2 = true.
Proof.
  unfold find_matches, re_findall. intros H.
  apply in_map_iff in H as [caps [E H]].
  pose proof (findall_from_forall vs_pattern
    (fun caps => exists g1 g2, caps = [g1; g2]
       /\ raw_shape 2 50 g1 = true /\ raw_shape 2 50 g2 = true)
    vs_pattern_groups text None 0) as F.
  rewrite Forall_forall in F. destruct (F caps H) as [h1 [h2 [-> [S1 S2]]]].
  simpl in E. injection E as <- <-. auto.
Qed.

(** ** Substitution: general facts *)

Lemma sub_from_skip (r : regex) (repl : str) (s : str) :
  forall n pv, n <= length s ->
  sub_from r repl pv s n = sub_from r repl (prev_at pv s n) (skipn n s) 0.
Proof.
  induction s as [|c s IH]; intros [|n] pv; simpl; try reflexivity; try lia.
  intros H. rewrite IH by lia. now rewrite (prev_at_cons pv).
Qed.

(** Deleting matches never lengthens the subject. *)
Lemma sub_from_delete_length (r : regex) (s : str) :
  forall pv skip, length (sub_from r [] pv s skip) <= length s.
Proof.
  induction s as [|c s IH]; intros pv skip; simpl; [lia|].
  destruct skip.
  - destruct (match_at r pv (c :: s)) as [[[|n] caps]|]; simpl;
      try (specialize (IH (Some c) 0); lia).
    specialize (IH (Some c) n); lia.
  - specialize (IH (Some c) skip); lia.
Qed.

(** Without a match, nothing changes. *)
Lemma sub_from_no_match (r : regex) (repl : str) (s : str) :
  forall pv, search_from r pv s = false -> sub_from r repl pv s 0 = s.
Proof.
  induction s as [|c s IH]; intros pv; simpl; [reflexivity|].
  destruct (match_at r pv (c :: s)) as [[[|n] caps]|]; try discriminate;
    intros H; now rewrite IH.
Qed.

(** With a match, deleting it shortens the subject. *)
Lemma sub_from_match_shorter (r : regex) (s : str) :
  forall pv, search_from r pv s = true ->
  length (sub_from r [] pv s 0) < length s.
Proof.
  induction s as [|c s IH]; intros pv; simpl; [discriminate|].
  destruct (match_at r pv (c :: s)) as [[[|n] caps]|]; simpl;
    try (intros H; specialize (IH _ H); lia).
  intros _. pose proof (sub_from_delete_length r s (Some c) n). lia.
Qed.

Lemma delete_all_length (patterns : list regex) :
  forall s, length (delete_all patterns s) <= length s.
Proof.
  induction patterns as [|r rs IH]; intros s; simpl; [lia|].
  etransitivity; [apply IH|]. apply sub_from_delete_length.
Qed.

Lemma delete_all_no_match (patterns : list regex) :
  forall s, existsb (fun r => re_search r s) patterns = false ->
  delete_all patterns s = s.
Proof.
  induction patterns as [|r rs IH]; intros s; simpl; [reflexivity|].
  intros H. apply orb_false_iff in H as [H1 H2].
  unfold re_sub. rewrite (sub_from_no_match r [] s None H1). now apply IH.
Qed.

Lemma delete_all_match_shorter (patterns : list regex) :
  forall s, existsb (fun r => re_search r s) patterns = true ->
  length (delete_all patterns s) < length s.
Proof.
  induction patterns as [|r rs IH]; intros s; simpl; [discriminate|].
  destruct (re_search r s) eqn:E; simpl.
  - intros _. pose proof (sub_from_match_shorter r s None E).
    pose proof (delete_all_length rs (re_sub r [] s)). unfold re_sub in *. lia.
  - intros H. unfold re_sub. rewrite (sub_from_no_match r [] s None E).
    now apply IH.
Qed.

(** ** Whitespace normalisation *)

Lemma match_at_ws_plus (pv : option ascii) (s : str) :
  match_at ws_plus pv s =
  match span_len is_space s with
  | 0 => None
  | S n => Some (S n, [])
  end.
Proof.
  unfold match_at, ws_plus. cbn [rmatch fst snd].
  destruct (span_len is_space s) as [|n] eqn:E.
  - rewrite rep_short_run; [reflexivity|lia].
  - rewrite (rep_takes_run is_space s 1 pv [] accept
               (prev_at pv s (span_len is_space s),
                skipn (span_len is_space s) s, [])); [| lia | reflexivity].
    rewrite length_skipn_sub, E; [reflexivity|apply span_len_le].
Qed.

Lemma sub_ws_plus (s : str) :
  forall pv,
  sub_from ws_plus [" "%char] pv s 0 = squeeze_ws false s
  /\ sub_from ws_plus [" "%char] pv s (span_len is_space s) = squeeze_ws true s.
Proof.
  induction s as [|c s IH]; intros pv; [split; reflexivity|].
  assert (H0 : sub_from ws_plus [" "%char] pv (c :: s) 0
               = squeeze_ws false (c :: s)).
  { cbn [sub_from]. rewrite match_at_ws_plus. cbn [span_len squeeze_ws].
    destruct (is_space c).
    - cbn [app]. f_equal. apply IH.
    - f_equal. apply IH. }
  split; [exact H0|].
  cbn [span_len squeeze_ws]. destruct (is_space c) eqn:Sc.
  - cbn [sub_from]. apply IH.
  - rewrite H0. cbn [squeeze_ws]. now rewrite Sc.
Qed.

Lemma squeeze_direct (s : str) : squeeze s = squeeze_ws false (strip s).
Proof. unfold squeeze, re_sub. apply sub_ws_plus. Qed.

Lemma squeeze_ws_start (s : str) :
  starts_space s = false -> squeeze_ws true s = squeeze_ws false s.
Proof. destruct s as [|c s]; simpl; [reflexivity|]. now intros ->. Qed.

Lemma squeeze_ws_fixed (s : str) :
  single_spaced s = true -> squeeze_ws false s = s.
Proof.
  induction s as [|c s IH]; simpl; [reflexivity|].
  intros H. apply andb_true_iff in H as [H1 H2].
  destruct (is_space c).
  - apply andb_true_iff in H1 as [H1 H3]. apply Ascii.eqb_eq in H1. subst c.
    apply negb_true_iff in H3. rewrite (squeeze_ws_start s H3), (IH H2).
    reflexivity.
  - now rewrite (IH H2).
Qed.

Lemma squeeze_ws_starts (b : bool) (s : str) :
  starts_space (squeeze_ws b s) = true -> starts_space s = true.
Proof.
  destruct s as [|c s]; simpl; [discriminate|].
  destruct (is_space c) eqn:Sc; [reflexivity|]. simpl. congruence.
Qed.

Lemma squeeze_ws_single (s : str) :
  forall b, single_spaced (squeeze_ws b s) = true
            /\ (b = true -> starts_space (squeeze_ws b s) = false).
Proof.
  induction s as [|c s IH]; intros b; simpl; [split; reflexivity|].
  destruct (is_space c) eqn:Sc.
  - destruct b.
    + apply IH.
    + split; [|discriminate]. simpl.
      destruct (IH true) as [H1 H2]. rewrite H1, (H2 eq_refl). reflexivity.
  - split.
    + simpl. rewrite Sc. apply IH.
    + intros _. simpl. exact Sc.
Qed.

Lemma ends_space_cons (x : ascii) (t : str) :
  ends_space (x :: t) = match t with [] => is_space x | _ => ends_space t end.
Proof. destruct t; reflexivity. Qed.

Lemma squeeze_ws_false_nil (s : str) : squeeze_ws false s = [] -> s = [].
Proof.
  destruct s as [|c s]; simpl; [reflexivity|].
  destruct (is_space c); discriminate.
Qed.

Lemma squeeze_ws_true_nil (s : str) :
  squeeze_ws true s = [] -> s <> [] -> ends_space s = true.
Proof.
  induction s as [|c s IH]; [congruence|]. intros H _.
  cbn [squeeze_ws] in H. destruct (is_space c) eqn:Sc; [|discriminate].
  rewrite ends_space_cons. destruct s as [|d s]; [exact Sc|].
  apply IH; [exact H|discriminate].
Qed.

Lemma squeeze_ws_ends (s : str) :
  forall b, ends_space s = false -> ends_space (squeeze_ws b s) = false.
Proof.
  induction s as [|c s IH]; intros b; [reflexivity|].
  rewrite ends_space_cons. cbn [squeeze_ws].
  destruct (is_space c) eqn:Sc.
  - destruct s as [|d s]; [congruence|]. intros H.
    destruct b; [now apply IH|].
    rewrite ends_space_cons.
    destruct (squeeze_ws true (d :: s)) as [|e t] eqn:E;
      [|rewrite <- E; now apply IH].
    apply squeeze_ws_true_nil in E; [congruence|discriminate].
  - intros H. rewrite ends_space_cons.
    destruct (squeeze_ws false s) as [|e t] eqn:E; [exact Sc|].
    destruct s as [|d s]; [discriminate|]. rewrite <- E. now apply IH.
Qed.

Lemma lstrip_starts (s : str) : starts_space (lstrip s) = false.
Proof.
  induction s as [|c s IH]; simpl; [reflexivity|].
  destruct (is_space c) eqn:Sc; [exact IH|]. simpl. exact Sc.
Qed.

Lemma lstrip_fixed (s : str) : starts_space s = false -> lstrip s = s.
Proof. destruct s as [|c s]; simpl; [reflexivity|]. now intros ->. Qed.

Lemma lstrip_length (s : str) : length (lstrip s) <= length s.
Proof.
  induction s as [|c s IH]; simpl; [lia|]. destruct (is_space c); simpl; lia.
Qed.

Lemma rstrip_ends (s : str) : ends_space (rstrip s) = false.
Proof.
  induction s as [|c s IH]; [reflexivity|]. cbn [rstrip].
  destruct (rstrip s) as [|d t] eqn:E.
  - destruct (is_space c) eqn:Sc; [reflexivity|]. simpl. exact Sc.
  - rewrite ends_space_cons. exact IH.
Qed.

Lemma rstrip_fixed (s : str) : ends_space s = false -> rstrip s = s.
Proof.
  induction s as [|c s IH]; [reflexivity|].
  rewrite ends_space_cons. cbn [rstrip]. destruct s as [|d s].
  - intros ->. reflexivity.
  - intros H. rewrite (IH H). reflexivity.
Qed.

Lemma rstrip_starts (s : str) :
  starts_space s = false -> starts_space (rstrip s) = false.
Proof.
  destruct s as [|c s]; [reflexivity|]. cbn [rstrip starts_space].
  intros Sc. destruct (rstrip s); [rewrite Sc|]; simpl; auto.
Qed.

Lemma rstrip_length (s : str) : length (rstrip s) <= length s.
Proof.
  induction s as [|c s IH]; simpl; [lia|].
  destruct (rstrip s); [destruct (is_space c)|]; simpl in *; lia.
Qed.

Lemma squeeze_ws_length (s : str) :
  forall b, length (squeeze_ws b s) <= length s.
Proof.
  induction s as [|c s IH]; intros b; simpl; [lia|].
  destruct (is_space c); [destruct b|]; simpl;
    try (specialize (IH true); lia); specialize (IH false); lia.
Qed.

Lemma squeeze_squeezed (s : str) : squeezed (squeeze s) = true.
Proof.
  rewrite squeeze_direct. unfold squeezed, strip.
  destruct (squeeze_ws_single (rstrip (lstrip s)) false) as [H1 _].
  rewrite H1, squeeze_ws_ends by apply rstrip_ends.
  destruct (starts_space (squeeze_ws false (rstrip (lstrip s)))) eqn:E;
    [|reflexivity].
  apply squeeze_ws_starts in E.
  rewrite rstrip_starts in E by apply lstrip_starts. discriminate.
Qed.

Lemma squeeze_fixed (s : str) : squeezed s = true -> squeeze s = s.
Proof.
  unfold squeezed. intros H.
  apply andb_true_iff in H as [H H3]. apply andb_true_iff in H as [H1 H2].
  apply negb_true_iff in H2, H3.
  rewrite squeeze_direct. unfold strip.
  rewrite (lstrip_fixed s H2), (rstrip_fixed s H3). now apply squeeze_ws_fixed.
Qed.

Lemma squeeze_length (s : str) : length (squeeze s) <= length s.
Proof.
  rewrite squeeze_direct. unfold strip.
  pose proof (squeeze_ws_length (rstrip (lstrip s)) false).
  pose proof (rstrip_length (lstrip s)). pose proof (lstrip_length s). lia.
Qed.

(** ** The cleaner as a pipeline *)

Lemma clean_pipeline (name : str) :
  clean_fighter_name name = squeeze (delete_all strip_patterns (squeeze name)).
Proof. reflexivity. Qed.

Lemma clean_squeezed (name : str) : squeezed (clean_fighter_name name) = true.
Proof. rewrite clean_pipeline. apply squeeze_squeezed. Qed.

(** A squeezed name in which no stripping pattern matches is left alone;
    any other squeezed name gets shorter. *)
Lemma clean_fixed_iff (y : str) :
  squeezed y = true ->
  (clean_fighter_name y = y <-> strippable y = false).
Proof.
  intros Hy. rewrite clean_pipeline, (squeeze_fixed y Hy). split.
  - intros H. destruct (strippable y) eqn:E; [|reflexivity].
    pose proof (delete_all_match_shorter strip_patterns y E).
    pose proof (squeeze_length (delete_all strip_patterns y)).
    rewrite H in *. lia.
  - intros H. unfold strippable in H.
    rewrite (delete_all_no_match strip_patterns y H). now apply squeeze_fixed.
Qed.

Lemma match_at_length (r : regex) pv (s : str) (m : nat) (caps : list str) :
  match_at r pv s = Some (m, caps) -> m <= length s.
Proof.
  unfold match_at.
  destruct (rmatch r (pv, s) [] accept) as [[[pv' s'] caps']|]; [|discriminate].
  intros H. injection H as <- _. lia.
Qed.

(** ** A match never looks past a character that the pattern rejects *)

Section Frame.

Variable c : ascii.
Variable rest : str.

Lemma rep_frame (p : ascii -> bool) (k k' : cont) :
  p c = false -> extends (c :: rest) k k' ->
  forall s lo hi pv caps,
  rep p lo hi pv (s ++ c :: rest) caps k'
  = extend (c :: rest) (rep p lo hi pv s caps k).
Proof.
  intros Pc Hk. induction s as [|x s IH]; intros lo hi pv caps.
  - cbn [app rep]. rewrite Pc. cbn [andb].
    destruct lo; [apply (Hk pv [] caps)|reflexivity].
  - cbn [app rep]. destruct (p x && more hi).
    + rewrite IH.
      destruct (rep p (pred lo) (option_map pred hi) (Some x) s caps k)
        as [[[pv' s'] caps']|]; [reflexivity|].
      destruct lo; [apply (Hk pv (x :: s) caps)|reflexivity].
    + destruct lo; [apply (Hk pv (x :: s) caps)|reflexivity].
Qed.

Lemma rmatch_frame (r : regex) :
  rejects c r = true ->
  forall k k', extends (c :: rest) k k' ->
  forall pv s caps,
  rmatch r (pv, s ++ c :: rest) caps k'
  = extend (c :: rest) (rmatch r (pv, s) caps k).
Proof.
  induction r as [|p|r1 IH1 r2 IH2|r1 IH1 r2 IH2|p lo hi| | | |r IH];
    cbn [rejects]; intros R k k' Hk pv s caps; cbn [rmatch fst snd].
  - apply Hk.
  - apply negb_true_iff in R. destruct s as [|x s]; cbn [app].
    + now rewrite R.
    + destruct (p x); [apply (Hk (Some x) s caps)|reflexivity].
  - apply andb_true_iff in R as [R1 R2].
    apply (IH1 R1). intros pv' s' caps'. now apply (IH2 R2).
  - apply andb_true_iff in R as [R1 R2].
    rewrite (IH1 R1 k k' Hk), (IH2 R2 k k' Hk).
    destruct (rmatch r1 (pv, s) caps k) as [[[pv' s'] caps']|]; reflexivity.
  - apply negb_true_iff in R. now apply rep_frame.
  - destruct pv; [reflexivity|apply Hk].
  - discriminate.
  - apply negb_true_iff in R.
    replace (word_after (s ++ c :: rest)) with (word_after s)
      by (destruct s; [simpl; now rewrite R|reflexivity]).
    destruct (xorb _ _); [apply Hk|reflexivity].
  - apply (IH R). intros pv' s' caps'. cbn [snd].
    rewrite !length_app, firstn_app.
    replace (length s + length (c :: rest) - (length s' + length (c :: rest)))
      with (length s - length s') by lia.
    replace (length s - length s' - length s) with 0 by lia.
    cbn [firstn]. rewrite app_nil_r. apply Hk.
Qed.

Lemma match_at_frame (r : regex) (pv : option ascii) (s : str) :
  rejects c r = true -> match_at r pv (s ++ c :: rest) = match_at r pv s.
Proof.
  intros R. unfold match_at.
  rewrite (rmatch_frame r R accept accept) by (intros ? ? ?; reflexivity).
  destruct (rmatch r (pv, s) [] accept) as [[[pv' s'] caps']|];
    [|reflexivity].
  cbn [extend]. rewrite !length_app. f_equal. f_equal. lia.
Qed.

Lemma findall_frame (r : regex) :
  rejects c r = true ->
  forall s pv skip, skip <= length s ->
  findall_from r pv (s ++ c :: rest) skip
  = findall_from r pv s skip
    ++ findall_from r (prev_at pv s (length s)) (c :: rest) 0.
Proof.
  intros R. induction s as [|x s IH]; intros pv skip L.
  - destruct skip; [reflexivity|simpl in L; lia].
  - cbn [app findall_from length]. rewrite <- (prev_at_cons pv x s (length s)).
    simpl in L. destruct skip as [|n]; [|apply IH; lia].
    change (x :: s ++ c :: rest) with ((x :: s) ++ (c :: rest)).
    rewrite (match_at_frame r pv (x :: s) R).
    destruct (match_at r pv (x :: s)) as [[[|n] caps]|] eqn:E;
      try (apply IH; lia).
    rewrite <- app_comm_cons. f_equal. apply IH.
    apply match_at_length in E. cbn [length] in E. lia.
Qed.

End Frame.

(** ** The scan around a mention *)

Lemma separator_rejects (c : ascii) :
  is_separator c = true -> rejects c vs_pattern = true.
Proof.
  each_char c; intros H; vm_compute in H; try discriminate H; reflexivity.
Qed.

Lemma match_at_vs_not_upper pv (c : ascii) (s : str) :
  is_upper c = false -> match_at vs_pattern pv (c :: s) = None.
Proof.
  intros H. unfold match_at, vs_pattern, name_group. cbn [rmatch fst snd].
  rewrite H. destruct (xorb _ _); reflexivity.
Qed.

Lemma findall_skip_char pv (c : ascii) (s : str) :
  is_upper c = false ->
  findall_from vs_pattern pv (c :: s) 0 = findall_from vs_pattern (Some c) s 0.
Proof. intros H. cbn [findall_from]. now rewrite match_at_vs_not_upper. Qed.

Lemma match_at_vs_prev pv pv' (s : str) :
  word_before pv = word_before pv' ->
  match_at vs_pattern pv s = match_at vs_pattern pv' s.
Proof.
  intros H. unfold match_at, vs_pattern, name_group. cbn [rmatch fst snd].
  rewrite H. reflexivity.
Qed.

Lemma findall_vs_prev pv pv' (s : str) :
  word_before pv = word_before pv' ->
  findall_from vs_pattern pv s 0 = findall_from vs_pattern pv' s 0.
Proof.
  intros H. destruct s as [|c s]; [reflexivity|].
  cbn [findall_from]. now rewrite (match_at_vs_prev pv pv' _ H).
Qed.

Lemma findall_mention_full pv :
  findall_from vs_pattern pv mention_full 0
  = [[txt "Justin Gaethje"; txt "Max Holloway"]].
Proof.
  unfold mention_full.
  change (txt "#4 Justin Gaethje vs Max Holloway")
    with ("#"%char :: "4"%char :: " "%char
          :: txt "Justin Gaethje vs Max Holloway").
  rewrite !findall_skip_char by reflexivity. vm_compute. reflexivity.
Qed.

Lemma findall_mention_short pv :
  word_before pv = false ->
  findall_from vs_pattern pv mention_short 0
  = [[txt "Live now Gaethje"; txt "Holloway"]].
Proof.
  intros H. rewrite (findall_vs_prev pv None) by exact H.
  vm_compute. reflexivity.
Qed.

(** ** The stripping steps of the cleaner *)

Lemma skipn_length_app (a b : str) : skipn (length a) (a ++ b) = b.
Proof. induction a as [|x a IH]; simpl; auto. Qed.

Lemma prev_at_some (x : ascii) (s : str) (n : nat) :
  n <= length s -> exists c, prev_at (Some x) s n = Some c.
Proof.
  destruct n as [|n]; unfold prev_at; [now exists x|]. intros H.
  destruct (nth_error s n) as [c|] eqn:E; [now exists c|].
  apply nth_error_None in E. lia.
Qed.

Lemma span_len_app (p : ascii -> bool) (run rest : str) :
  forallb p run = true -> starts_in p rest = false ->
  span_len p (run ++ rest) = length run.
Proof.
  intros H R. induction run as [|c run IH]; simpl.
  - destruct rest as [|d rest]; [reflexivity|]. simpl in *. now rewrite R.
  - simpl in H. apply andb_true_iff in H as [-> H]. now rewrite IH.
Qed.

Lemma space_not_digit (c : ascii) : is_space c = true -> is_digit c = false.
Proof.
  each_char c; intros H; vm_compute in H; try discriminate H; reflexivity.
Qed.

Lemma digit_not_space (c : ascii) : is_digit c = true -> is_space c = false.
Proof.
  each_char c; intros H; vm_compute in H; try discriminate H; reflexivity.
Qed.

(** A pattern anchored with [^] matches at the start only. *)
Lemma anchored_later (r : regex) (c : ascii) (s : str) :
  search_from (Seq Bol r) (Some c) s = false.
Proof.
  revert c; induction s as [|x s IH]; intros c; [reflexivity|].
  cbn [search_from]. unfold match_at at 1. cbn [rmatch fst]. apply IH.
Qed.

Lemma sub_anchored (r : regex) (s : str) (n : nat) (caps : list str) :
  match_at (Seq Bol r) None s = Some (S n, caps) ->
  re_sub (Seq Bol r) [] s = skipn (S n) s.
Proof.
  intros H. pose proof (match_at_length _ _ _ _ _ H) as L.
  destruct s as [|x s]; [simpl in L; lia|].
  unfold re_sub. cbn [sub_from]. rewrite H. cbn [app skipn length] in *.
  rewrite sub_from_skip by lia.
  destruct (prev_at_some x s n) as [c ->]; [lia|].
  apply sub_from_no_match, anchored_later.
Qed.

(** [\s+] at the end of a pattern takes a whole run of whitespace. *)
Lemma ws_plus_accept (ws rest : str) pv (caps : list str) :
  ws <> [] -> forallb is_space ws = true -> starts_space rest = false ->
  rep is_space 1 None pv (ws ++ rest) caps accept
  = Some ((prev_at pv (ws ++ rest) (length ws), rest), caps).
Proof.
  intros Hn Hw Hr.
  pose proof (span_len_app is_space ws rest Hw Hr) as Sp.
  apply rep_takes_run.
  - rewrite Sp. destruct ws; [congruence|simpl; lia].
  - rewrite Sp, skipn_length_app. reflexivity.
Qed.

(** A keyword under [re.I] matches any spelling of it. *)
Lemma lit_ci_match (kw : str) :
  forall kw' pv t caps k,
  lower_str kw' = lower_str kw ->
  rmatch (lit_ci kw) (pv, kw' ++ t) caps k
  = k (prev_at pv (kw' ++ t) (length kw'), t) caps.
Proof.
  induction kw as [|a kw IH]; intros [|a' kw'] pv t caps k E;
    try discriminate E; [reflexivity|].
  injection E as Ea E.
  cbn [lit_ci fold_right rmatch fst snd app]. fold (lit_ci kw).
  unfold same_letter at 1. rewrite Ea, Ascii.eqb_refl.
  rewrite (IH kw' (Some a') t caps k E). now rewrite (prev_at_cons pv).
Qed.

(** ... and nothing shorter than itself. *)
Lemma lit_ci_sound (kw : str) :
  forall pv t caps k res,
  rmatch (lit_ci kw) (pv, t) caps k = Some res ->
  exists pv', length kw <= length t
              /\ k (pv', skipn (length kw) t) caps = Some res.
Proof.
  induction kw as [|a kw IH]; intros pv t caps k res.
  - intros H. exists pv. split; [simpl; lia|exact H].
  - cbn [lit_ci fold_right rmatch fst snd]. fold (lit_ci kw).
    destruct t as [|x t]; [discriminate|].
    destruct (same_letter a x); [|discriminate].
    intros H. apply IH in H as [pv' [L H]].
    exists pv'. split; [simpl; lia|exact H].
Qed.

Lemma match_at_rank (ds ws rest : str) :
  ds <> [] -> forallb is_digit ds = true ->
  ws <> [] -> forallb is_space ws = true -> starts_space rest = false ->
  match_at rank_re None ("#"%char :: ds ++ ws ++ rest)
  = Some (S (length ds + length ws), []).
Proof.
  intros Hd Dd Hw Dw Hr. unfold match_at, rank_re, ws_plus.
  cbn [rmatch fst snd]. change (is_char "#" "#") with true. cbv iota.
  rewrite rep_whole_run.
  2:{ intros pv' c s' caps' Dc. cbn [fst snd]. apply rep_short_run.
      simpl. rewrite (digit_not_space c Dc). lia. }
  assert (Sp : span_len is_digit (ds ++ ws ++ rest) = length ds).
  { apply span_len_app; [exact Dd|].
    destruct ws as [|w ws]; [congruence|]. simpl in Dw |- *.
    apply andb_true_iff in Dw as [Dw _]. now apply space_not_digit. }
  rewrite Sp, skipn_length_app. cbn [fst snd].
  replace (1 <=? length ds) with true
    by (symmetry; apply Nat.leb_le; destruct ds; [congruence|simpl; lia]).
  rewrite (ws_plus_accept ws rest _ [] Hw Dw Hr).
  f_equal. f_equal. cbn [length]. rewrite !length_app. lia.
Qed.

Lemma match_at_prefix (kw kw' ws rest : str) :
  lower_str kw' = lower_str kw ->
  ws <> [] -> forallb is_space ws = true -> starts_space rest = false ->
  match_at (prefix_re kw) None (kw' ++ ws ++ rest)
  = Some (length kw' + length ws, []).
Proof.
  intros E Hw Dw Hr. unfold match_at, prefix_re, ws_plus.
  cbn [rmatch fst]. rewrite (lit_ci_match kw kw' None _ [] _ E).
  cbn [rmatch fst snd].
  rewrite (ws_plus_accept ws rest _ [] Hw Dw Hr).
  f_equal. f_equal. rewrite !length_app. lia.
Qed.

Lemma starts_space_lower (s : str) :
  starts_space (lower_str s) = starts_space s.
Proof. destruct s; simpl; [reflexivity|apply is_space_lower]. Qed.

Lemma span_len_inside (body tail : str) :
  body <> [] -> ends_space body = false ->
  span_len is_space (body ++ tail) < length body.
Proof.
  induction body as [|c body IH]; [congruence|]. intros _.
  rewrite ends_space_cons. cbn [app span_len length].
  destruct body as [|d body].
  - intros ->. lia.
  - intros H. destruct (is_space c); [|lia].
    specialize (IH ltac:(discriminate) H). cbn [app length] in *. lia.
Qed.

(** Inside the body of a name, no suffix keyword can match: what follows
    the whitespace is too long to end the text. *)
Lemma suffix_no_early_match (kw kw' body ws : str) pv :
  body <> [] -> ends_space body = false ->
  ws <> [] -> length kw' = length kw ->
  match_at (suffix_re kw) pv (body ++ ws ++ kw') = None.
Proof.
  intros Hb He Hw Lk. unfold match_at, suffix_re, ws_plus. cbn [rmatch fst snd].
  destruct (rep _ _ _ _ _ _ _) as [res|] eqn:R; [exfalso|reflexivity].
  apply rep_sound in R as [n [Hlo [Hsp [_ R]]]].
  apply lit_ci_sound in R as [pv' [L R]]. cbn [fst snd] in R.
  destruct (at_eol _) eqn:A; [|discriminate].
  pose proof (span_len_inside body (ws ++ kw') Hb He) as Sp.
  assert (T : length (skipn (length kw) (skipn n (body ++ ws ++ kw'))) >= 2).
  { rewrite !length_skipn, !length_app.
    destruct ws; [congruence|]. simpl. lia. }
  destruct (skipn (length kw) (skipn n (body ++ ws ++ kw'))) as [|x [|y t]];
    simpl in T, A; try lia; discriminate.
Qed.

Lemma sub_suffix (kw kw' ws : str) :
  kw <> [] -> starts_space kw = false -> lower_str kw' = lower_str kw ->
  ws <> [] -> forallb is_space ws = true ->
  forall body pv, ends_space body = false ->
  sub_from (suffix_re kw) [] pv (body ++ ws ++ kw') 0 = body.
Proof.
  intros Hk Sk E Hw Dw.
  assert (Lk : length kw' = length kw).
  { rewrite <- (lower_str_length kw'), E. apply lower_str_length. }
  assert (Sk' : starts_space kw' = false).
  { rewrite <- starts_space_lower, E, starts_space_lower. exact Sk. }
  induction body as [|c body IH]; intros pv He.
  - cbn [app].
    assert (M : match_at (suffix_re kw) pv (ws ++ kw')
                = Some (length ws + length kw', [])).
    { unfold match_at, suffix_re, ws_plus. cbn [rmatch fst snd].
      rewrite (rep_takes_run is_space (ws ++ kw') 1 pv [] _
                 ((prev_at (prev_at pv (ws ++ kw') (length ws)) (kw' ++ [])
                     (length kw'), []), [])).
      - rewrite length_app. f_equal. f_equal. simpl. lia.
      - rewrite (span_len_app is_space ws kw' Dw Sk').
        destruct ws; [congruence|simpl; lia].
      - rewrite (span_len_app is_space ws kw' Dw Sk'), skipn_length_app.
        rewrite <- (app_nil_r kw') at 2.
        rewrite (lit_ci_match kw kw' _ [] [] _ E). reflexivity. }
    destruct ws as [|w ws]; [congruence|].
    cbn [app sub_from]. cbn [app length Nat.add] in M. rewrite M.
    rewrite sub_from_skip by (rewrite length_app; lia).
    rewrite <- length_app, skipn_all. reflexivity.
  - assert (M : match_at (suffix_re kw) pv ((c :: body) ++ ws ++ kw') = None)
      by (apply suffix_no_early_match; auto; discriminate).
    cbn [app sub_from] in *. rewrite M. f_equal. apply IH.
    rewrite ends_space_cons in He. destruct body; [reflexivity|exact He].
Qed.

(** ** One marker in front of, or behind, a name that the cleaner keeps *)

Lemma delete_all_app (ps qs : list regex) (s : str) :
  delete_all (ps ++ qs) s = delete_all qs (delete_all ps s).
Proof. unfold delete_all. apply fold_left_app. Qed.

(** When the steps before [r] find nothing in [m], and [r] turns [m] into a
    name that the cleaner keeps, the cleaner turns [m] into that name. *)
Lemma clean_single_step (earlier later : list regex) (r : regex) (m x : str) :
  strip_patterns = earlier ++ r :: later ->
  squeezed m = true ->
  existsb (fun r' => re_search r' m) earlier = false ->
  re_sub r [] m = x ->
  clean_fighter_name x = x ->
  clean_fighter_name m = x.
Proof.
  intros Hs Hm He Hr Hx.
  pose proof (clean_squeezed x) as Sx. rewrite Hx in Sx.
  pose proof (proj1 (clean_fixed_iff x Sx) Hx) as Fx.
  unfold strippable in Fx. rewrite Hs, existsb_app in Fx.
  apply orb_false_iff in Fx as [_ Fx]. cbn [existsb] in Fx.
  apply orb_false_iff in Fx as [_ Fx].
  rewrite clean_pipeline, (squeeze_fixed m Hm), Hs, delete_all_app.
  rewrite (delete_all_no_match earlier m He).
  change (delete_all (r :: later) m) with (delete_all later (re_sub r [] m)).
  rewrite Hr, (delete_all_no_match later x Fx). now apply squeeze_fixed.
Qed.

Lemma is_plain_space_lower (c : ascii) : is_char " " (lower c) = is_char " " c.
Proof. each_char c; reflexivity. Qed.

Lemma ends_space_lower (s : str) : ends_space (lower_str s) = ends_space s.
Proof.
  induction s as [|c s IH]; [reflexivity|].
  change (lower_str (c :: s)) with (lower c :: lower_str s).
  rewrite !ends_space_cons, IH, is_space_lower.
  destruct s; reflexivity.
Qed.

Lemma single_spaced_lower (s : str) :
  single_spaced (lower_str s) = single_spaced s.
Proof.
  induction s as [|c s IH]; [reflexivity|].
  change (lower_str (c :: s)) with (lower c :: lower_str s).
  cbn [single_spaced].
  now rewrite IH, is_space_lower, is_plain_space_lower, starts_space_lower.
Qed.

Lemma squeezed_lower (s : str) : squeezed (lower_str s) = squeezed s.
Proof.
  unfold squeezed.
  now rewrite single_spaced_lower, starts_space_lower, ends_space_lower.
Qed.

Lemma single_spaced_app (a s : str) :
  a <> [] -> ends_space a = false -> single_spaced a = true ->
  single_spaced (a ++ s) = single_spaced s.
Proof.
  induction a as [|c a IH]; [congruence|]. intros _.
  rewrite ends_space_cons. cbn [app single_spaced].
  destruct a as [|d a].
  - intros -> _. reflexivity.
  - intros He H. apply andb_true_iff in H as [Hc H].
    rewrite (IH ltac:(discriminate) He H).
    cbn [app starts_space] in *. now rewrite Hc.
Qed.

Lemma ends_space_after (a b : str) :
  b <> [] -> ends_space (a ++ b) = ends_space b.
Proof.
  intros Hb. induction a as [|c a IH]; [reflexivity|].
  cbn [app]. rewrite ends_space_cons, IH.
  destruct (a ++ b) eqn:E; [|reflexivity].
  destruct a, b; try discriminate E. congruence.
Qed.

Lemma spaceless_squeezed (t : str) :
  forallb (fun c => negb (is_space c)) t = true -> squeezed t = true.
Proof.
  intros H. unfold squeezed.
  assert (S1 : single_spaced t = true).
  { induction t as [|c t IH]; [reflexivity|].
    cbn [forallb single_spaced] in *. apply andb_true_iff in H as [Hc H].
    apply negb_true_iff in Hc. now rewrite Hc, IH. }
  assert (S2 : starts_space t = false).
  { destruct t as [|c t]; [reflexivity|].
    cbn [forallb starts_space] in *. apply andb_true_iff in H as [Hc _].
    now apply negb_true_iff in Hc. }
  assert (S3 : ends_space t = false).
  { induction t as [|c t IH]; [reflexivity|].
    cbn [forallb] in H. apply andb_true_iff in H as [Hc H].
    rewrite ends_space_cons. destruct t; [now apply negb_true_iff in Hc|].
    apply IH; [exact H| |]; clear IH.
    - cbn [single_spaced] in S1. now apply andb_true_iff in S1 as [_ S1].
    - cbn [forallb starts_space] in *. apply andb_true_iff in H as [Hd _].
      now apply negb_true_iff in Hd. }
  now rewrite S1, S2, S3.
Qed.

(** Two squeezed strings with one space between them make a squeezed
    string. *)
Lemma squeezed_join (a b : str) :
  a <> [] -> b <> [] -> squeezed a = true -> squeezed b = true ->
  squeezed (a ++ " "%char :: b) = true.
Proof.
  unfold squeezed. intros Ha Hb Sa Sb.
  apply andb_true_iff in Sa as [Sa Ea]. apply andb_true_iff in Sa as [Sa Ta].
  apply andb_true_iff in Sb as [Sb Eb]. apply andb_true_iff in Sb as [Sb Tb].
  apply negb_true_iff in Ea, Ta, Eb, Tb.
  rewrite (single_spaced_app a _ Ha Ea Sa).
  rewrite (ends_space_after a (" "%char :: b)) by discriminate.
  rewrite ends_space_cons. cbn [single_spaced].
  replace (starts_space (a ++ " "%char :: b)) with (starts_space a)
    by (destruct a; [congruence|reflexivity]).
  rewrite Ta, Tb, Sb. destruct b as [|x b]; [congruence|].
  now rewrite Eb.
Qed.

(** A keyword of the cleaner is squeezed, in whatever letter case it is
    spelled. *)
Lemma keyword_squeezed (kw kw' : str) :
  In kw (prefix_keywords ++ suffix_keywords) ->
  lower_str kw' = lower_str kw ->
  kw <> [] /\ kw' <> [] /\ squeezed kw' = true.
Proof.
  intros I E.
  assert (H : kw <> [] /\ squeezed kw = true).
  { revert I. generalize kw.
    apply Forall_forall. repeat constructor; discriminate. }
  destruct H as [Hk Sk]. split; [exact Hk|]. split.
  - intros ->. destruct kw; [congruence|discriminate].
  - now rewrite <- squeezed_lower, E, squeezed_lower.
Qed.

Lemma squeezed_ends (s : str) :
  squeezed s = true -> starts_space s = false /\ ends_space s = false.
Proof.
  unfold squeezed. intros H.
  apply andb_true_iff in H as [H E]. apply andb_true_iff in H as [_ T].
  now apply negb_true_iff in E, T.
Qed.

(** A name the cleaner keeps is squeezed. *)
Lemma kept_squeezed (x : str) :
  clean_fighter_name x = x -> squeezed x = true.
Proof. intros H. rewrite <- H. apply clean_squeezed. Qed.

Lemma strip_patterns_at_prefix (before after : list str) (kw : str) :
  prefix_keywords = before ++ kw :: after ->
  strip_patterns
  = (rank_re :: champ_re :: map prefix_re before)
    ++ prefix_re kw
       :: (map prefix_re after ++ map suffix_re suffix_keywords).
Proof.
  intros H. unfold strip_patterns. rewrite H, map_app. cbn [map app].
  now rewrite <- app_assoc.
Qed.

Lemma strip_patterns_at_suffix (before after : list str) (kw : str) :
  suffix_keywords = before ++ kw :: after ->
  strip_patterns
  = (rank_re :: champ_re
     :: map prefix_re prefix_keywords ++ map suffix_re before)
    ++ suffix_re kw :: map suffix_re after.
Proof.
  intros H. unfold strip_patterns. rewrite H, map_app. cbn [map app].
  now rewrite <- app_assoc.
Qed.

Lemma clean_after_rank (ds x : str) :
  ds <> [] -> forallb is_digit ds = true ->
  x <> [] -> clean_fighter_name x = x ->
  clean_fighter_name ("#"%char :: ds ++ " "%char :: x) = x.
Proof.
  intros Hd Dd Hx Kx. pose proof (kept_squeezed x Kx) as Sx.
  destruct (squeezed_ends x Sx) as [Tx _].
  apply (clean_single_step [] (champ_re :: map prefix_re prefix_keywords
                                 ++ map suffix_re suffix_keywords) rank_re).
  - reflexivity.
  - change ("#"%char :: ds ++ " "%char :: x) with (("#"%char :: ds) ++ " "%char :: x).
    apply squeezed_join; auto; [discriminate|].
    apply spaceless_squeezed. cbn [forallb].
    change (negb (is_space "#")) with true. cbn [andb].
    clear Hd. induction ds as [|d ds IH]; [reflexivity|].
    cbn [forallb] in Dd |- *. apply andb_true_iff in Dd as [D Dd].
    now rewrite (digit_not_space d D), IH.
  - reflexivity.
  - change (ds ++ " "%char :: x) with (ds ++ [" "%char] ++ x).
    pose proof (match_at_rank ds [" "%char] x Hd Dd ltac:(discriminate)
                  eq_refl Tx) as M.
    unfold rank_re in *. rewrite (sub_anchored _ _ _ _ M).
    cbn [skipn]. rewrite app_assoc, <- length_app. apply skipn_length_app.
  - exact Kx.
Qed.

Lemma clean_after_prefix (before after : list str) (kw kw' x : str) :
  prefix_keywords = before ++ kw :: after ->
  lower_str kw' = lower_str kw ->
  x <> [] -> clean_fighter_name x = x ->
  existsb (fun r => re_search r (kw' ++ " "%char :: x))
    (rank_re :: champ_re :: map prefix_re before) = false ->
  clean_fighter_name (kw' ++ " "%char :: x) = x.
Proof.
  intros Hs E Hx Kx He. pose proof (kept_squeezed x Kx) as Sx.
  destruct (squeezed_ends x Sx) as [Tx _].
  assert (I : In kw (prefix_keywords ++ suffix_keywords))
    by (rewrite Hs; apply in_or_app; left; apply in_or_app; right; now left).
  destruct (keyword_squeezed kw kw' I E) as [Hk [Hk' Sk']].
  apply (clean_single_step _ _ _ _ _ (strip_patterns_at_prefix _ _ _ Hs)).
  - now apply squeezed_join.
  - exact He.
  - pose proof (match_at_prefix kw kw' [" "%char] x E ltac:(discriminate)
                  eq_refl Tx) as M.
    cbn [length app] in M. unfold prefix_re in *.
    destruct (length kw' + 1) as [|n] eqn:L; [lia|].
    rewrite (sub_anchored _ _ _ _ M), <- L.
    replace (length kw' + 1) with (length (kw' ++ [" "%char]))
      by (rewrite length_app; reflexivity).
    change (kw' ++ " "%char :: x) with (kw' ++ [" "%char] ++ x).
    rewrite app_assoc. apply skipn_length_app.
  - exact Kx.
Qed.

Lemma clean_before_suffix (before after : list str) (kw kw' x : str) :
  suffix_keywords = before ++ kw :: after ->
  lower_str kw' = lower_str kw ->
  x <> [] -> clean_fighter_name x = x ->
  existsb (fun r => re_search r (x ++ " "%char :: kw'))
    (rank_re :: champ_re
     :: map prefix_re prefix_keywords ++ map suffix_re before) = false ->
  clean_fighter_name (x ++ " "%char :: kw') = x.
Proof.
  intros Hs E Hx Kx He. pose proof (kept_squeezed x Kx) as Sx.
  destruct (squeezed_ends x Sx) as [_ Ex].
  assert (I : In kw (prefix_keywords ++ suffix_keywords))
    by (rewrite Hs; apply in_or_app; right; apply in_or_app; right; now left).
  destruct (keyword_squeezed kw kw' I E) as [Hk [Hk' Sk']].
  assert (Tk : starts_space kw = false).
  { rewrite <- starts_space_lower, <- E, starts_space_lower.
    now destruct (squeezed_ends kw' Sk'). }
  apply (clean_single_step _ _ _ _ _ (strip_patterns_at_suffix _ _ _ Hs)).
  - now apply squeezed_join.
  - exact He.
  - change (x ++ " "%char :: kw') with (x ++ [" "%char] ++ kw').
    apply sub_suffix; auto. discriminate.
  - exact Kx.
Qed.

(** ** The properties of the specification *)

Lemma upper_name_char (c : ascii) : is_upper c = true -> name_char c = true.
Proof.
  unfold name_char, is_letter. intros ->.
  now rewrite orb_true_r.
Qed.

Lemma raw_shape_capture (g : str) :
  raw_shape 2 50 g = true -> capture_shape 51 g.
Proof.
  destruct g as [|c rest]; [discriminate|]. cbn [raw_shape].
  intros H. apply andb_true_iff in H as [H H4].
  apply andb_true_iff in H as [H H3]. apply andb_true_iff in H as [H1 H2].
  apply Nat.leb_le in H3, H4.
  repeat split; cbn [starts_in forallb length]; try lia; auto.
  now rewrite (upper_name_char c H1).
Qed.

Lemma in_keywords (kw : str) (kws : list string) :
  In kw (map txt kws) ->
  Forall (fun k => txt k <> [] /\ starts_space (txt k) = false) kws ->
  kw <> [] /\ starts_space kw = false.
Proof.
  intros H F. apply in_map_iff in H as [k [<- H]].
  rewrite Forall_forall in F. now apply F.
Qed.

(** C2, counterexample: the candidate ("Cardoso", "Holloway") has one
    noise-word occurrence ("card"), the stored ("Clive Cardoso",
    "Max Holloway") has two ("live", "card"); the candidate does not win,
    the stored pair stays. *)
Lemma fewer_noise_words_do_not_win :
  let current := (txt "Cardoso", txt "Holloway") in
  let existing := (txt "Clive Cardoso", txt "Max Holloway") in
  noise_occurrences current = 1
  /\ noise_occurrences existing = 2
  /\ same_fight current existing = true
  /\ replaces current existing = false
  /\ add_pair [(pair_key existing, existing)] current
     = [(pair_key existing, existing)]
  /\ fighter_pairs_of_text
       (txt "Clive Cardoso vs Max Holloway. Cardoso vs Holloway")
     = [existing].
Proof. vm_compute. repeat split; reflexivity. Qed.

(** C2, amended: when a valid pair matches an entry of the aggregation,
    the stored pair is replaced by the new one exactly when [replaces]
    says so, and that is decided in this order: (i) noise words count by
    presence only: a pair without any noise word replaces a stored pair
    with one, and a pair with a noise word never replaces a stored pair
    without; (ii) when both or neither have a noise word, the pair with
    strictly more words in total wins; (iii) with as many words, the pair
    with strictly more characters in total wins; otherwise the stored pair
    is kept. *)
Theorem replacement_rule (seen_pairs : dict) (p matched_key existing : pair) :
  find_matched_key seen_pairs p = Some matched_key ->
  dict_get seen_pairs matched_key = Some existing ->
  add_pair seen_pairs p
  = (if replaces p existing then dict_set seen_pairs matched_key p
     else seen_pairs)
  /\ (has_unwanted p = false -> has_unwanted existing = true ->
      replaces p existing = true)
  /\ (has_unwanted p = true -> has_unwanted existing = false ->
      replaces p existing = false)
  /\ (has_unwanted p = has_unwanted existing ->
      (replaces p existing = true <->
       total_words existing < total_words p
       \/ (total_words p = total_words existing
           /\ total_len existing < total_len p))).
Proof.
  intros F G. split; [unfold add_pair; now rewrite F, G|].
  unfold replaces. split; [|split].
  - intros -> ->. reflexivity.
  - intros -> ->. reflexivity.
  - intros ->. destruct (has_unwanted existing); cbn [negb andb Bool.eqb];
      (destruct (total_words existing <? total_words p) eqn:W;
       [apply Nat.ltb_lt in W; split; auto
       |apply Nat.ltb_ge in W; rewrite andb_true_iff, Nat.eqb_eq, Nat.ltb_lt;
        split; [auto|intros [H|H]; [lia|exact H]]]).
Qed.

(** The full names replace the stored surnames. *)
Lemma replacement_rule_witness :
  let seen_pairs :=
    [(pair_key (txt "Gaethje", txt "Holloway"), (txt "Gaethje", txt "Holloway"))] in
  add_pair seen_pairs (txt "Justin Gaethje", txt "Max Holloway")
  = [(pair_key (txt "Gaethje", txt "Holloway"),
      (txt "Justin Gaethje", txt "Max Holloway"))].
Proof.
  exact (proj1 (replacement_rule
    [(pair_key (txt "Gaethje", txt "Holloway"), (txt "Gaethje", txt "Holloway"))]
    (txt "Justin Gaethje", txt "Max Holloway")
    (pair_key (txt "Gaethje", txt "Holloway"))
    (txt "Gaethje", txt "Holloway") eq_refl eq_refl)).
Defined.

(** C3, counterexample: "Main Live Jon Jones" is cleaned to
    "Live Jon Jones" ("Live" has had its turn when "Main" goes), and
    cleaning that again gives "Jon Jones". *)
Lemma clean_not_idempotent :
  let x := txt "Main Live Jon Jones" in
  clean_fighter_name x = txt "Live Jon Jones"
  /\ clean_fighter_name (clean_fighter_name x) = txt "Jon Jones"
  /\ clean_fighter_name (clean_fighter_name x) <> clean_fighter_name x.
Proof. vm_compute. repeat split; try reflexivity. discriminate. Qed.

(** C3, amended: cleaning a cleaned name again changes nothing exactly when
    the first pass has left nothing to strip, that is when none of the
    cleaner's patterns (rank marker, champion marker, a prefix keyword at
    the start, a suffix keyword at the end) matches in the cleaned name any
    more. *)
Theorem clean_idempotent_iff (x : str) :
  clean_fighter_name (clean_fighter_name x) = clean_fighter_name x
  <-> strippable (clean_fighter_name x) = false.
Proof. apply clean_fixed_iff, clean_squeezed. Qed.

(** C4: for every text and all valid extracted pairs [p1], [p2] whose
    corresponding sides match each other in both directions, at most one
    entry of the output stands for them. *)
Theorem deduplication_invariant (text : str) (p1 p2 : pair) :
  In p1 (valid_pairs text) -> In p2 (valid_pairs text) ->
  names_match (fst p1) (fst p2) = true -> names_match (fst p2) (fst p1) = true ->
  names_match (snd p1) (snd p2) = true -> names_match (snd p2) (snd p1) = true ->
  length (filter (fun entry => represents entry p1 || represents entry p2)
                 (fighter_pairs_of_text text)) <= 1.
Proof.
  intros _ _ H1 _ H2 _. unfold fighter_pairs_of_text.
  destruct (aggregate_invariant (find_matches text)) as [Hk Hu].
  apply (at_most_one_per_key _ _ (pair_key p1) Hk Hu).
  intros e H. apply orb_true_iff in H as [H|H].
  - now apply represents_same_key.
  - rewrite (represents_same_key e p2 H). symmetry.
    apply same_fight_same_key. unfold same_fight. now rewrite H1, H2.
Qed.

(** The full and the short mention of one fight. *)
Lemma deduplication_invariant_witness :
  let text := txt "#4 Justin Gaethje vs Max Holloway. Live now Gaethje vs Holloway" in
  let p1 := (txt "Justin Gaethje", txt "Max Holloway") in
  let p2 := (txt "Gaethje", txt "Holloway") in
  valid_pairs text = [p1; p2]
  /\ length (filter (fun entry => represents entry p1 || represents entry p2)
                    (fighter_pairs_of_text text)) <= 1.
Proof.
  split; [vm_compute; reflexivity|].
  apply (deduplication_invariant
    (txt "#4 Justin Gaethje vs Max Holloway. Live now Gaethje vs Holloway")
    (txt "Justin Gaethje", txt "Max Holloway") (txt "Gaethje", txt "Holloway"));
    vm_compute; auto.
Defined.

(** C5: two names match exactly when they are equal without regard to
    case, or one lowercased name is a substring of the other and the last
    whitespace-delimited token of the shorter is the last token of the
    longer, both lowercased; with the three examples of the
    specification. *)
Theorem names_match_spec :
  (forall a b : str,
     names_match a b = true <->
     lower_str a = lower_str b
     \/ ((contains (lower_str a) (lower_str b) = true
          \/ contains (lower_str b) (lower_str a) = true)
         /\ exists shorter longer t,
              ((shorter = a /\ longer = b) \/ (shorter = b /\ longer = a))
              /\ length shorter <= length longer
              /\ last_token (lower_str shorter) = Some t
              /\ last_token (lower_str longer) = Some t))
  /\ names_match (txt "Gaethje") (txt "Justin Gaethje") = true
  /\ names_match (txt "Justin Gaethje") (txt "Max Holloway") = false
  /\ names_match (txt "Jon Jones") (txt "Jon Jones") = true.
Proof.
  split; [|vm_compute; repeat split; reflexivity].
  intros a b. rewrite names_match_unfold. split.
  - destruct (str_eqb (lower_str a) (lower_str b)) eqn:E.
    + intros _. left. now apply str_eqb_eq.
    + destruct (contains (lower_str a) (lower_str b)
                || contains (lower_str b) (lower_str a)) eqn:C; [|discriminate].
      apply orb_true_iff in C. intros H. right. split; [exact C|].
      destruct (length a <? length b) eqn:L.
      * apply Nat.ltb_lt in L.
        destruct (last_token (lower_str a)) as [t|] eqn:Ta; [|discriminate].
        destruct (last_token (lower_str b)) as [u|] eqn:Tb; [|discriminate].
        apply str_eqb_eq in H. subst u.
        exists a, b, t. repeat split; auto; lia.
      * apply Nat.ltb_ge in L.
        destruct (last_token (lower_str b)) as [t|] eqn:Tb; [|discriminate].
        destruct (last_token (lower_str a)) as [u|] eqn:Ta; [|discriminate].
        apply str_eqb_eq in H. subst u.
        exists b, a, t. repeat split; auto.
  - intros [E|[C [shorter [longer [t [O [_ [Ts Tl]]]]]]]].
    + now rewrite (proj2 (str_eqb_eq _ _) E).
    + destruct (str_eqb (lower_str a) (lower_str b)); [reflexivity|].
      rewrite (proj2 (orb_true_iff _ _) C).
      destruct O as [[-> ->]|[-> ->]]; destruct (length a <? length b);
        rewrite Ts, Tl; apply str_eqb_refl.
Qed.

(** C6: the cleaner strips a leading rank marker, leading prefix keywords
    and trailing suffix keywords.  The three examples of the specification;
    then the cleaner as a whole: for a non-empty name that the cleaner
    itself keeps, a rank marker "#" with any digits in front of it, any
    prefix keyword of the list in front of it, and any suffix keyword of the
    list behind it, in whatever letter case, are removed together with the
    space, and the name comes out, provided none of the steps that the
    cleaner runs before the step of that keyword matches too (as
    "Live now" does in "Live now X" for the keyword "Live"); then what each
    stripping step removes for any run of whitespace: the rank step "#", the
    digits and the whitespace after them, a prefix step its keyword and the
    whitespace after it, a suffix step its keyword and the whitespace
    before it. *)
Theorem clean_strips_markers :
  (clean_fighter_name (txt "#4 Justin Gaethje") = txt "Justin Gaethje"
   /\ clean_fighter_name (txt "Live now Israel Adesanya") = txt "Israel Adesanya"
   /\ clean_fighter_name (txt "Tom Aspinall Round") = txt "Tom Aspinall")
  /\ (forall ds x : str,
        ds <> [] -> forallb is_digit ds = true ->
        x <> [] -> clean_fighter_name x = x ->
        clean_fighter_name (txt "#" ++ ds ++ txt " " ++ x) = x)
  /\ (forall (before after : list str) (kw kw' x : str),
        prefix_keywords = before ++ kw :: after ->
        lower_str kw' = lower_str kw ->
        x <> [] -> clean_fighter_name x = x ->
        existsb (fun r => re_search r (kw' ++ txt " " ++ x))
          (rank_re :: champ_re :: map prefix_re before) = false ->
        clean_fighter_name (kw' ++ txt " " ++ x) = x)
  /\ (forall (before after : list str) (kw kw' x : str),
        suffix_keywords = before ++ kw :: after ->
        lower_str kw' = lower_str kw ->
        x <> [] -> clean_fighter_name x = x ->
        existsb (fun r => re_search r (x ++ txt " " ++ kw'))
          (rank_re :: champ_re
           :: map prefix_re prefix_keywords ++ map suffix_re before) = false ->
        clean_fighter_name (x ++ txt " " ++ kw') = x)
  /\ (forall ds ws rest : str,
        ds <> [] -> forallb is_digit ds = true ->
        ws <> [] -> forallb is_space ws = true -> starts_space rest = false ->
        re_sub rank_re [] ("#"%char :: ds ++ ws ++ rest) = rest)
  /\ (forall kw kw' ws rest : str,
        In kw prefix_keywords -> lower_str kw' = lower_str kw ->
        ws <> [] -> forallb is_space ws = true -> starts_space rest = false ->
        re_sub (prefix_re kw) [] (kw' ++ ws ++ rest) = rest)
  /\ (forall kw kw' ws body : str,
        In kw suffix_keywords -> lower_str kw' = lower_str kw ->
        ws <> [] -> forallb is_space ws = true -> ends_space body = false ->
        re_sub (suffix_re kw) [] (body ++ ws ++ kw') = body).
Proof.
  split; [vm_compute; repeat split; reflexivity|].
  split; [exact clean_after_rank|]. split; [exact clean_after_prefix|].
  split; [exact clean_before_suffix|]. split; [|split].
  - intros ds ws rest Hd Dd Hw Dw Hr.
    pose proof (match_at_rank ds ws rest Hd Dd Hw Dw Hr) as M.
    unfold rank_re in *. rewrite (sub_anchored _ _ _ _ M).
    cbn [skipn]. rewrite app_assoc, <- length_app. apply skipn_length_app.
  - intros kw kw' ws rest _ E Hw Dw Hr.
    pose proof (match_at_prefix kw kw' ws rest E Hw Dw Hr) as M.
    rewrite <- length_app in M. unfold prefix_re in *.
    destruct (length (kw' ++ ws)) as [|n] eqn:L.
    + destruct kw', ws; try discriminate L. congruence.
    + rewrite (sub_anchored _ _ _ _ M), <- L, app_assoc.
      apply skipn_length_app.
  - intros kw kw' ws body I E Hw Dw He.
    destruct (in_keywords kw _ I) as [Hk Sk];
      [repeat constructor; try discriminate|].
    now apply sub_suffix.
Qed.

(** A two-digit rank, the seventh prefix keyword in capitals and the fourth
    suffix keyword in another spelling, around the name "Jon Jones". *)
Lemma clean_strips_markers_witness :
  clean_fighter_name (txt "#" ++ txt "12" ++ txt " " ++ txt "Jon Jones")
  = txt "Jon Jones"
  /\ clean_fighter_name (txt "MAIN CARD" ++ txt " " ++ txt "Jon Jones")
     = txt "Jon Jones"
  /\ clean_fighter_name (txt "Jon Jones" ++ txt " " ++ txt "Follow Live")
     = txt "Jon Jones".
Proof.
  destruct clean_strips_markers as [_ [R [P [S _]]]]. split; [|split].
  - exact (R (txt "12") (txt "Jon Jones") ltac:(discriminate) eq_refl
             ltac:(discriminate) eq_refl).
  - exact (P (map txt ["Live now"; "Live"; "LIVE NOW"; "LIVE"; "Card";
                       "Method"]%string)
             [txt "Main"] (txt "Main Card") (txt "MAIN CARD")
             (txt "Jon Jones") eq_refl eq_refl ltac:(discriminate) eq_refl
             eq_refl).
  - exact (S (map txt ["Round"; "Round Time"; "Time"]%string)
             (map txt ["Follow"; "LIVE NOW"; "LIVE"; "now"]%string)
             (txt "Follow live") (txt "Follow Live") (txt "Jon Jones")
             eq_refl eq_refl ltac:(discriminate) eq_refl eq_refl).
Defined.

(** C7, counterexample: a first name of 51 characters is captured whole;
    and a capture may hold a line feed, which is whitespace but no space. *)
Lemma raw_capture_of_51 :
  let text := txt "Abcdefghij klmnopqrst uvwxyzabcd efghijklmn opqrstu vs Bob" in
  let g1 := txt "Abcdefghij klmnopqrst uvwxyzabcd efghijklmn opqrstu" in
  let lf := Ascii.ascii_of_nat 10 in
  find_matches text = [(g1, txt "Bob")]
  /\ length g1 = 51
  /\ ~ capture_shape 50 g1
  /\ find_matches (txt "Jon" ++ lf :: txt "Jones vs Max Holloway")
     = [(txt "Jon" ++ lf :: txt "Jones", txt "Max Holloway")].
Proof.
  split; [vm_compute; reflexivity|]. split; [reflexivity|].
  split; [|vm_compute; reflexivity].
  intros [_ [_ [_ H]]]. vm_compute in H. lia.
Qed.

(** C7, amended: every raw substring captured on either side of a "vs"
    starts with a capital letter, is made of letters, whitespace, hyphens
    and apostrophes only, and has between 3 and 51 characters (a capital
    letter and 2 to 50 more). *)
Theorem raw_capture_shape (text : str) (g1 g2 : str) :
  In (g1, g2) (find_matches text) ->
  capture_shape 51 g1 /\ capture_shape 51 g2.
Proof.
  intros H. apply find_matches_shape in H as [H1 H2].
  split; now apply raw_shape_capture.
Qed.

(** The two sides of "#4 Justin Gaethje vs Max Holloway". *)
Lemma raw_capture_shape_witness :
  capture_shape 51 (txt "Justin Gaethje") /\ capture_shape 51 (txt "Max Holloway").
Proof.
  apply (raw_capture_shape (txt "#4 Justin Gaethje vs Max Holloway")).
  vm_compute. left. reflexivity.
Defined.

(** C8: on empty text, and whenever no valid pair remains after the
    filter, the extractor returns no pair, the script prints its
    "No fights found to save." line and saves no file. *)
Theorem no_fights_found_path :
  (forall output_file : str,
     fighter_pairs_of_text [] = []
     /\ main_script output_file []
        = [PrintLine (txt "Fights found:"); PrintLine (txt "No fights found to save.")])
  /\ (forall output_file text : str,
        valid_pairs text = [] ->
        fighter_pairs_of_text text = []
        /\ main_script output_file text
           = [PrintLine (txt "Fights found:"); PrintLine (txt "No fights found to save.")]
        /\ existsb saves_file (main_script output_file text) = false).
Proof.
  assert (G : forall output_file text, valid_pairs text = [] ->
            fighter_pairs_of_text text = []
            /\ main_script output_file text
               = [PrintLine (txt "Fights found:"); PrintLine (txt "No fights found to save.")]
            /\ existsb saves_file (main_script output_file text) = false).
  { intros output_file text H. apply no_pairs_iff in H.
    unfold main_script. rewrite H. repeat split; reflexivity. }
  split; [|exact G].
  intros output_file.
  destruct (G output_file [] eq_refl) as [H1 [H2 _]]. now split.
Qed.

(** Country names are matched by the scan and rejected by the filter. *)
Lemma no_fights_found_path_witness :
  valid_pairs (txt "United States vs Brazil") = []
  /\ find_matches (txt "United States vs Brazil")
     = [(txt "United States", txt "Brazil")]
  /\ main_script (txt "ufc_324.xlsx") (txt "United States vs Brazil")
     = [PrintLine (txt "Fights found:"); PrintLine (txt "No fights found to save.")].
Proof.
  split; [vm_compute; reflexivity|]. split; [vm_compute; reflexivity|].
  apply (proj2 no_fights_found_path (txt "ufc_324.xlsx")
           (txt "United States vs Brazil")).
  vm_compute. reflexivity.
Defined.

(** C9: there is a text with two valid pairs that match on no side, yet
    fall under the same sorted key pair; adding the second overwrites the
    entry of the first, and the output holds the later pair only. *)
Theorem key_collision_loses_pair :
  exists (text : str) (p1 p2 : pair),
    valid_pairs text = [p1; p2]
    /\ names_match (fst p2) (fst p1) = false
    /\ names_match (snd p2) (snd p1) = false
    /\ names_match (fst p2) (snd p1) = false
    /\ names_match (snd p2) (fst p1) = false
    /\ same_fight p2 p1 = false /\ same_fight p1 p2 = false
    /\ pair_key p1 = pair_key p2
    /\ add_pair [] p1 = [(pair_key p1, p1)]
    /\ find_matched_key [(pair_key p1, p1)] p2 = None
    /\ add_pair [(pair_key p1, p1)] p2 = [(pair_key p1, p2)]
    /\ fighter_pairs_of_text text = [p2]
    /\ ~ In p1 (fighter_pairs_of_text text).
Proof.
  exists (txt "Jon Jones vs Max Holloway. Tom Jones vs Ilia Holloway"),
         (txt "Jon Jones", txt "Max Holloway"),
         (txt "Tom Jones", txt "Ilia Holloway").
  vm_compute. repeat split; try reflexivity.
  intros [H|[]]. discriminate H.
Qed.

(** C10: whenever two names match, they have the same normalized key. *)
Theorem match_implies_same_key (a b : str) :
  names_match a b = true ->
  normalize_name_for_matching a = normalize_name_for_matching b.
Proof. apply names_match_same_key. Qed.

(** A surname and the full name. *)
Lemma match_implies_same_key_witness :
  names_match (txt "Gaethje") (txt "Justin Gaethje") = true
  /\ normalize_name_for_matching (txt "Gaethje")
     = normalize_name_for_matching (txt "Justin Gaethje").
Proof.
  split; [reflexivity|].
  apply (match_implies_same_key (txt "Gaethje") (txt "Justin Gaethje")).
  reflexivity.
Defined.

(** ** Further properties of the code *)

(** *** The pair matcher *)

Lemma str_eqb_sym (a b : str) : str_eqb a b = str_eqb b a.
Proof.
  destruct (str_eqb a b) eqn:E.
  - apply str_eqb_eq in E. subst b. symmetry. apply str_eqb_refl.
  - destruct (str_eqb b a) eqn:E'; [|reflexivity].
    apply str_eqb_eq in E'. subst b. rewrite str_eqb_refl in E. discriminate.
Qed.

Lemma names_match_refl (a : str) : names_match a a = true.
Proof. rewrite names_match_unfold. now rewrite str_eqb_refl. Qed.

Lemma names_match_sym (a b : str) : names_match a b = names_match b a.
Proof.
  rewrite !names_match_unfold.
  rewrite (str_eqb_sym (lower_str b) (lower_str a)).
  rewrite (orb_comm (contains (lower_str b) (lower_str a))).
  destruct (str_eqb (lower_str a) (lower_str b)); [reflexivity|].
  destruct (contains (lower_str a) (lower_str b)
            || contains (lower_str b) (lower_str a)); [|reflexivity].
  destruct (length a <? length b) eqn:L1, (length b <? length a) eqn:L2;
    try reflexivity.
  - apply Nat.ltb_lt in L1, L2. lia.
  - destruct (last_token (lower_str b)) as [t|],
             (last_token (lower_str a)) as [u|]; try reflexivity.
    apply str_eqb_sym.
Qed.

(** X1: the pair matcher is reflexive and symmetric, but not transitive: a
    bare surname matches two full names that do not match each other. *)
Theorem names_match_tolerance :
  (forall a : str, names_match a a = true)
  /\ (forall a b : str, names_match a b = names_match b a)
  /\ (exists a b c : str,
        names_match a b = true /\ names_match b c = true
        /\ names_match a c = false).
Proof.
  split; [exact names_match_refl|]. split; [exact names_match_sym|].
  exists (txt "Justin Gaethje"), (txt "Gaethje"), (txt "Tom Gaethje").
  vm_compute. repeat split; reflexivity.
Qed.

(** *** The name normalizer *)

Lemma lower_idem (c : ascii) : lower (lower c) = lower c.
Proof. each_char c; reflexivity. Qed.

Lemma lower_str_idem (s : str) : lower_str (lower_str s) = lower_str s.
Proof.
  unfold lower_str. rewrite map_map. apply map_ext. exact lower_idem.
Qed.

Lemma normalize_lower (s : str) :
  normalize_name_for_matching (lower_str s) = normalize_name_for_matching s.
Proof. rewrite !normalize_last_token. now rewrite lower_str_idem. Qed.

Lemma split_from_tokens (s : str) :
  forall acc, forallb (fun c => negb (is_space c)) acc = true ->
  Forall (fun w => is_token w = true) (split_from acc s).
Proof.
  induction s as [|c s IH]; intros acc Ha; cbn [split_from].
  - destruct acc; constructor; [exact Ha|constructor].
  - destruct (is_space c) eqn:Sc.
    + destruct acc as [|a acc]; [now apply IH|].
      constructor; [exact Ha|now apply IH].
    + apply IH. rewrite forallb_app, Ha. simpl. now rewrite Sc.
Qed.

Lemma split_from_spaces (trail : str) :
  forallb is_space trail = true -> split_from [] trail = [].
Proof.
  induction trail as [|c trail IH]; [reflexivity|]. cbn [forallb split_from].
  intros H. apply andb_true_iff in H as [-> H]. now apply IH.
Qed.

Lemma split_from_token (w trail : str) :
  forallb (fun c => negb (is_space c)) w = true ->
  forallb is_space trail = true ->
  forall acc, acc ++ w <> [] -> split_from acc (w ++ trail) = [acc ++ w].
Proof.
  intros Hw Ht. induction w as [|c w IH]; intros acc Hn.
  - rewrite app_nil_r in *. cbn [app].
    destruct trail as [|c trail]; cbn [split_from].
    + destruct acc; [congruence|reflexivity].
    + cbn [forallb] in Ht. apply andb_true_iff in Ht as [-> Ht].
      destruct acc; [congruence|]. now rewrite split_from_spaces.
  - cbn [forallb] in Hw. apply andb_true_iff in Hw as [Hc Hw].
    apply negb_true_iff in Hc. cbn [app split_from]. rewrite Hc.
    rewrite (IH Hw) by (destruct acc; discriminate).
    now rewrite <- app_assoc.
Qed.

Lemma split_token (w trail : str) :
  is_token w = true -> forallb is_space trail = true ->
  split (w ++ trail) = [w].
Proof.
  intros Hw Ht. destruct w as [|c w]; [discriminate|]. cbn [is_token] in Hw.
  unfold split. now rewrite (split_from_token (c :: w) trail Hw Ht []).
Qed.

Lemma last_cons_nonempty (x : str) (l : list str) :
  l <> [] -> last (x :: l) [] = last l [].
Proof. destruct l; [congruence|reflexivity]. Qed.

Lemma last_split_from (w trail : str) :
  is_token w = true -> forallb is_space trail = true ->
  forall pre acc, ends_space pre = true ->
  last (split_from acc (pre ++ w ++ trail)) [] = w.
Proof.
  intros Hw Ht.
  assert (Wn : w <> []) by (destruct w; [discriminate|discriminate]).
  pose proof (split_token w trail Hw Ht) as Sw. unfold split in Sw.
  induction pre as [|c pre IH]; intros acc He; [discriminate|].
  rewrite ends_space_cons in He. cbn [app split_from].
  destruct pre as [|d pre].
  - rewrite He. cbn [app]. rewrite Sw. destruct acc; reflexivity.
  - destruct (is_space c).
    + assert (L : last (split_from [] ((d :: pre) ++ w ++ trail)) [] = w)
        by now apply IH.
      destruct acc; [exact L|].
      rewrite last_cons_nonempty; [exact L|].
      intros E. rewrite E in L. simpl in L. congruence.
    + now apply IH.
Qed.

Lemma normalize_nonempty_split (s : str) :
  split s <> [] ->
  normalize_name_for_matching s = lower_str (last (split s) []).
Proof.
  unfold normalize_name_for_matching. destruct (split s); [congruence|reflexivity].
Qed.

Lemma forall_last (P : str -> Prop) (l : list str) :
  Forall P l -> l <> [] -> P (last l []).
Proof.
  induction l as [|x l IH]; [congruence|]. intros F _.
  inversion F as [|? ? Hx Hl]; subst.
  destruct l as [|y l]; [exact Hx|]. apply IH; [exact Hl|discriminate].
Qed.

(** X2: the normalizer ignores letter case and is idempotent: the key of a
    key is the key itself. *)
Theorem normalize_idempotent :
  (forall s : str,
     normalize_name_for_matching (lower_str s) = normalize_name_for_matching s)
  /\ (forall s : str,
        normalize_name_for_matching (normalize_name_for_matching s)
        = normalize_name_for_matching s).
Proof.
  split; [exact normalize_lower|].
  intros s. destruct (split s) as [|w ws] eqn:E.
  - assert (N : normalize_name_for_matching s = lower_str s)
      by (unfold normalize_name_for_matching; now rewrite E).
    rewrite N, normalize_lower. exact N.
  - rewrite (normalize_nonempty_split s) by (rewrite E; discriminate).
    rewrite normalize_lower.
    assert (T : is_token (last (split s) []) = true).
    { apply (forall_last (fun w => is_token w = true)).
      - apply split_from_tokens. reflexivity.
      - rewrite E. discriminate. }
    pose proof (split_token _ [] T eq_refl) as Sp. rewrite app_nil_r in Sp.
    unfold normalize_name_for_matching. rewrite Sp. reflexivity.
Qed.

(** X3: the key of a name is its last token in lower case, whatever comes
    before it (nothing, or text that ends with whitespace) and whatever
    whitespace follows it. *)
Theorem normalize_is_last_token (pre w trail : str) :
  pre = [] \/ ends_space pre = true ->
  is_token w = true ->
  forallb is_space trail = true ->
  normalize_name_for_matching (pre ++ w ++ trail) = lower_str w.
Proof.
  intros Hp Hw Ht.
  assert (L : last (split (pre ++ w ++ trail)) [] = w).
  { destruct Hp as [->|He].
    - cbn [app]. now rewrite (split_token w trail Hw Ht).
    - now apply last_split_from. }
  rewrite normalize_nonempty_split; [now rewrite L|].
  intros E. rewrite E in L. simpl in L. subst w. discriminate.
Qed.

(** "Justin Gaethje" and "  O'Malley " with a tab after it. *)
Lemma normalize_is_last_token_witness :
  normalize_name_for_matching (txt "Justin " ++ txt "Gaethje" ++ [])
  = txt "gaethje"
  /\ normalize_name_for_matching
       ([] ++ txt "O'Malley" ++ [Ascii.ascii_of_nat 9])
     = txt "o'malley".
Proof.
  split.
  - exact (normalize_is_last_token (txt "Justin ") (txt "Gaethje") []
             (or_intror eq_refl) eq_refl eq_refl).
  - exact (normalize_is_last_token [] (txt "O'Malley") [Ascii.ascii_of_nat 9]
             (or_introl eq_refl) eq_refl eq_refl).
Defined.

(** *** The name cleaner *)

(** X4: cleaning never lengthens a name. *)
Theorem clean_never_longer (name : str) :
  length (clean_fighter_name name) <= length name.
Proof.
  rewrite clean_pipeline.
  pose proof (squeeze_length (delete_all strip_patterns (squeeze name))).
  pose proof (delete_all_length strip_patterns (squeeze name)).
  pose proof (squeeze_length name). lia.
Qed.

Lemma strip_fixed (s : str) :
  starts_space s = false -> ends_space s = false -> strip s = s.
Proof.
  intros H1 H2. unfold strip. now rewrite (lstrip_fixed s H1), (rstrip_fixed s H2).
Qed.

(** X5: a cleaned name is whitespace-normal: it neither starts nor ends
    with whitespace, each whitespace character in it is a single plain
    space, and stripping or squeezing it again changes nothing. *)
Theorem clean_output_normal (name : str) :
  let cleaned := clean_fighter_name name in
  starts_space cleaned = false
  /\ ends_space cleaned = false
  /\ single_spaced cleaned = true
  /\ strip cleaned = cleaned
  /\ squeeze cleaned = cleaned.
Proof.
  intros cleaned. pose proof (clean_squeezed name) as H. fold cleaned in H.
  pose proof (squeeze_fixed cleaned H) as F.
  unfold squeezed in H. apply andb_true_iff in H as [H H3].
  apply andb_true_iff in H as [H1 H2]. apply negb_true_iff in H2, H3.
  repeat split; auto. now apply strip_fixed.
Qed.

Lemma ends_space_app (l n : str) :
  n <> [] -> ends_space (l ++ n) = ends_space n.
Proof.
  intros Hn. induction l as [|c l IH]; [reflexivity|].
  cbn [app]. rewrite ends_space_cons.
  destruct (l ++ n) eqn:E; [|exact IH].
  destruct l; [simpl in E; congruence|discriminate].
Qed.

Lemma single_spaced_token_app (t s : str) :
  forallb (fun c => negb (is_space c)) t = true ->
  single_spaced (t ++ s) = single_spaced s.
Proof.
  induction t as [|c t IH]; [reflexivity|]. cbn [forallb app single_spaced].
  intros H. apply andb_true_iff in H as [Hc H]. apply negb_true_iff in Hc.
  rewrite Hc. now apply IH.
Qed.

(** A token, a space and a squeezed name make a squeezed name. *)
Lemma squeezed_after_token (t n : str) :
  is_token t = true -> squeezed n = true -> n <> [] ->
  squeezed (t ++ " "%char :: n) = true.
Proof.
  intros Ht Hs Hn. destruct t as [|c t]; [discriminate|]. cbn [is_token] in Ht.
  unfold squeezed in *. apply andb_true_iff in Hs as [Hs H3].
  apply andb_true_iff in Hs as [H1 H2].
  rewrite (single_spaced_token_app (c :: t) _ Ht).
  rewrite (ends_space_app (c :: t) (" "%char :: n)) by discriminate.
  rewrite ends_space_cons. destruct n as [|d n]; [congruence|].
  change (single_spaced (" "%char :: d :: n))
    with ((if is_space " " then is_char " " " " && negb (starts_space (d :: n))
           else true) && single_spaced (d :: n)).
  rewrite H1, H2, H3. cbn [app starts_space].
  cbn [forallb] in Ht. apply andb_true_iff in Ht as [Hc _].
  rewrite Hc. reflexivity.
Qed.

Lemma clean_steps (name : str) :
  clean_fighter_name name
  = squeeze (delete_all (map prefix_re prefix_keywords
                         ++ map suffix_re suffix_keywords)
               (re_sub champ_re [] (re_sub rank_re [] (squeeze name)))).
Proof. reflexivity. Qed.

(** What a name that the cleaner leaves alone looks like. *)
Lemma clean_fixed_facts (n : str) :
  clean_fighter_name n = n ->
  squeezed n = true
  /\ re_sub rank_re [] n = n
  /\ re_sub champ_re [] n = n
  /\ delete_all (map prefix_re prefix_keywords
                 ++ map suffix_re suffix_keywords) n = n.
Proof.
  intros H. assert (Sq : squeezed n = true) by (rewrite <- H; apply clean_squeezed).
  split; [exact Sq|].
  apply (clean_fixed_iff n Sq) in H. unfold strippable, strip_patterns in H.
  cbn [existsb] in H.
  apply orb_false_iff in H as [H1 H]. apply orb_false_iff in H as [H2 H3].
  repeat split.
  - now apply sub_from_no_match.
  - now apply sub_from_no_match.
  - now apply delete_all_no_match.
Qed.

Lemma rank_needs_hash (c : ascii) (s : str) :
  is_char "#" c = false -> re_sub rank_re [] (c :: s) = c :: s.
Proof.
  intros H. apply sub_from_no_match. cbn [search_from].
  unfold match_at at 1, rank_re. cbn [rmatch fst snd]. rewrite H.
  apply anchored_later.
Qed.

Lemma match_at_champ (ws rest : str) :
  ws <> [] -> forallb is_space ws = true -> starts_space rest = false ->
  match_at champ_re None ("C"%char :: ws ++ rest) = Some (S (length ws), []).
Proof.
  intros Hw Dw Hr. unfold match_at, champ_re, ws_plus. cbn [rmatch fst snd].
  change (is_char "C" "C") with true. cbv iota.
  rewrite (ws_plus_accept ws rest _ [] Hw Dw Hr).
  f_equal. f_equal. cbn [length]. rewrite length_app. lia.
Qed.

Lemma sub_champ (rest : str) :
  starts_space rest = false ->
  re_sub champ_re [] ("C"%char :: " "%char :: rest) = rest.
Proof.
  intros Hr.
  pose proof (match_at_champ [" "%char] rest ltac:(discriminate) eq_refl Hr) as M.
  unfold champ_re in *. cbn [app length] in M.
  now rewrite (sub_anchored _ _ _ _ M).
Qed.

Lemma sub_rank (ds rest : str) :
  ds <> [] -> forallb is_digit ds = true -> starts_space rest = false ->
  re_sub rank_re [] ("#"%char :: ds ++ " "%char :: rest) = rest.
Proof.
  intros Hd Dd Hr.
  pose proof (match_at_rank ds [" "%char] rest Hd Dd
                ltac:(discriminate) eq_refl Hr) as M.
  unfold rank_re in *. cbn [app] in M. rewrite (sub_anchored _ _ _ _ M).
  cbn [skipn length]. rewrite Nat.add_1_r.
  change (skipn (S (length ds)) (ds ++ " "%char :: rest))
    with (skipn (S (length ds)) (ds ++ [" "%char] ++ rest)).
  rewrite app_assoc.
  replace (S (length ds)) with (length (ds ++ [" "%char]))
    by (rewrite length_app; simpl; lia).
  apply skipn_length_app.
Qed.

Lemma digits_token (ds : str) :
  forallb is_digit ds = true -> is_token ("#"%char :: ds) = true.
Proof.
  intros H. cbn [is_token forallb]. change (negb (is_space "#")) with true.
  cbn [andb]. induction ds as [|d ds IH]; [reflexivity|].
  cbn [forallb] in *. apply andb_true_iff in H as [Hd H].
  rewrite (digit_not_space d Hd). now apply IH.
Qed.

(** X6: in front of a non-empty name that the cleaner leaves alone, a rank
    marker, a champion marker, or a rank marker followed by a champion
    marker is removed, and nothing else is. *)
Theorem clean_removes_leading_markers (ds n : str) :
  ds <> [] -> forallb is_digit ds = true ->
  n <> [] -> clean_fighter_name n = n ->
  clean_fighter_name ("#"%char :: ds ++ " "%char :: n) = n
  /\ clean_fighter_name ("C"%char :: " "%char :: n) = n
  /\ clean_fighter_name
       ("#"%char :: ds ++ " "%char :: "C"%char :: " "%char :: n) = n.
Proof.
  intros Hd Dd Hn Hc.
  destruct (clean_fixed_facts n Hc) as [Sq [Fr [Fc Fd]]].
  assert (St : starts_space n = false).
  { unfold squeezed in Sq. apply andb_true_iff in Sq as [Sq _].
    apply andb_true_iff in Sq as [_ Sq]. now apply negb_true_iff in Sq. }
  pose proof (squeeze_fixed n Sq) as Fs.
  pose proof (squeezed_after_token [("C"%char)] n eq_refl Sq Hn) as SqC.
  cbn [app] in SqC.
  split; [|split]; rewrite clean_steps.
  - pose proof (squeezed_after_token ("#"%char :: ds) n
                  (digits_token ds Dd) Sq Hn) as SqR.
    cbn [app] in SqR. rewrite (squeeze_fixed _ SqR).
    rewrite (sub_rank ds n Hd Dd St), Fc, Fd. exact Fs.
  - rewrite (squeeze_fixed _ SqC), rank_needs_hash by reflexivity.
    rewrite (sub_champ n St), Fd. exact Fs.
  - pose proof (squeezed_after_token ("#"%char :: ds) _
                  (digits_token ds Dd) SqC ltac:(discriminate)) as SqR.
    cbn [app] in SqR. rewrite (squeeze_fixed _ SqR).
    rewrite (sub_rank ds ("C"%char :: " "%char :: n) Hd Dd eq_refl).
    rewrite (sub_champ n St), Fd. exact Fs.
Qed.

(** "#12 C Jon Jones" and its two shorter forms. *)
Lemma clean_removes_leading_markers_witness :
  clean_fighter_name (txt "Jon Jones") = txt "Jon Jones"
  /\ clean_fighter_name ("#"%char :: txt "12" ++ " "%char :: txt "Jon Jones")
     = txt "Jon Jones"
  /\ clean_fighter_name ("C"%char :: " "%char :: txt "Jon Jones")
     = txt "Jon Jones"
  /\ clean_fighter_name
       ("#"%char :: txt "12" ++ " "%char :: "C"%char :: " "%char
        :: txt "Jon Jones")
     = txt "Jon Jones".
Proof.
  split; [reflexivity|].
  apply (clean_removes_leading_markers (txt "12") (txt "Jon Jones"));
    [discriminate|reflexivity|discriminate|reflexivity].
Defined.

(** *** The choice of the representative *)

Lemma replaces_iff (p e : pair) :
  replaces p e = true <->
  (has_unwanted p = false /\ has_unwanted e = true)
  \/ (has_unwanted p = has_unwanted e
      /\ (total_words e < total_words p
          \/ (total_words p = total_words e /\ total_len e < total_len p))).
Proof.
  unfold replaces.
  destruct (has_unwanted p), (has_unwanted e); cbn [negb andb Bool.eqb];
    try (split; [auto|reflexivity]);
    try (split; [discriminate|intros [[? ?]|[? _]]; discriminate]).
  - destruct (total_words e <? total_words p) eqn:W.
    + apply Nat.ltb_lt in W. split; auto.
    + apply Nat.ltb_ge in W. rewrite andb_true_iff, Nat.eqb_eq, Nat.ltb_lt.
      split; [auto|]. intros [[? ?]|[_ [?|?]]]; [discriminate|lia|assumption].
  - destruct (total_words e <? total_words p) eqn:W.
    + apply Nat.ltb_lt in W. split; auto.
    + apply Nat.ltb_ge in W. rewrite andb_true_iff, Nat.eqb_eq, Nat.ltb_lt.
      split; [auto|]. intros [[? ?]|[_ [?|?]]]; [discriminate|lia|assumption].
Qed.

(** X7: "replaces" is a strict order on pairs: no pair replaces itself, two
    pairs never replace each other, and replacing is transitive; so a stored
    representative only ever gets better. *)
Theorem replaces_strict_order :
  (forall p : pair, replaces p p = false)
  /\ (forall p e : pair, replaces p e = true -> replaces e p = false)
  /\ (forall a b c : pair,
        replaces a b = true -> replaces b c = true -> replaces a c = true).
Proof.
  split; [|split].
  - intros p. destruct (replaces p p) eqn:E; [|reflexivity].
    apply replaces_iff in E as [[H1 H2]|[_ [H|[_ H]]]]; [congruence|lia|lia].
  - intros p e H. destruct (replaces e p) eqn:E; [|reflexivity].
    apply replaces_iff in H, E.
    destruct H as [[H1 H2]|[H1 H2]], E as [[E1 E2]|[E1 E2]];
      try congruence; lia.
  - intros a b c H1 H2. apply replaces_iff in H1, H2. apply replaces_iff.
    destruct H1 as [[A1 A2]|[A1 A2]], H2 as [[B1 B2]|[B1 B2]].
    + congruence.
    + left. split; congruence.
    + left. split; congruence.
    + right. split; [congruence|lia].
Qed.

(** Full names replace surnames, which replace names with a noise word. *)
Lemma replaces_strict_order_witness :
  let a := (txt "Justin Gaethje", txt "Max Holloway") in
  let b := (txt "Gaethje", txt "Holloway") in
  let c := (txt "Live Gaethje", txt "Holloway") in
  replaces a b = true /\ replaces b c = true
  /\ replaces a c = true /\ replaces b a = false.
Proof.
  destruct replaces_strict_order as [_ [A T]].
  split; [reflexivity|]. split; [reflexivity|]. split.
  - apply (T (txt "Justin Gaethje", txt "Max Holloway")
             (txt "Gaethje", txt "Holloway")
             (txt "Live Gaethje", txt "Holloway")); reflexivity.
  - apply A. reflexivity.
Defined.

Lemma existsb_same (f g : str -> bool) (l : list str) :
  (forall x, f x = g x) -> existsb f l = existsb g l.
Proof.
  intros H. induction l as [|x l IH]; [reflexivity|].
  cbn [existsb]. now rewrite H, IH.
Qed.

Lemma has_unwanted_swap (p : pair) :
  has_unwanted (swap_sides p) = has_unwanted p.
Proof.
  unfold has_unwanted, swap_sides. cbn [fst snd].
  apply existsb_same. intros w. apply orb_comm.
Qed.

Lemma replaces_swap (p e : pair) :
  replaces (swap_sides p) e = replaces p e
  /\ replaces p (swap_sides e) = replaces p e.
Proof.
  unfold replaces. rewrite !has_unwanted_swap.
  unfold total_words, total_len, swap_sides. cbn [fst snd].
  rewrite (Nat.add_comm (length (split (snd p)))),
          (Nat.add_comm (length (snd p))),
          (Nat.add_comm (length (split (snd e)))),
          (Nat.add_comm (length (snd e))).
  split; reflexivity.
Qed.

(** X8: the order of the two fighters in a mention does not matter: the
    reversed pair is the same fight, has the same key, and is neither
    better nor worse than the pair itself, so it never displaces it. *)
Theorem swapped_pair_same_fight (p : pair) :
  same_fight (swap_sides p) p = true
  /\ same_fight p (swap_sides p) = true
  /\ pair_key (swap_sides p) = pair_key p
  /\ replaces (swap_sides p) p = false
  /\ (forall e : pair, replaces (swap_sides p) e = replaces p e)
  /\ add_pair [(pair_key p, p)] (swap_sides p) = [(pair_key p, p)].
Proof.
  assert (S1 : same_fight (swap_sides p) p = true).
  { unfold same_fight, swap_sides. cbn [fst snd].
    rewrite !names_match_refl. apply orb_true_r. }
  assert (R : replaces (swap_sides p) p = false).
  { rewrite (proj1 (replaces_swap p p)).
    destruct (replaces p p) eqn:E; [|reflexivity].
    apply replaces_iff in E as [[H1 H2]|[_ [H|[_ H]]]]; [congruence|lia|lia]. }
  repeat split.
  - exact S1.
  - unfold same_fight, swap_sides. cbn [fst snd].
    rewrite !names_match_refl. apply orb_true_r.
  - unfold pair_key, swap_sides. cbn [fst snd]. apply sorted2_comm.
  - exact R.
  - intros e. apply replaces_swap.
  - unfold add_pair. cbn [find_matched_key]. rewrite S1.
    cbn [dict_get]. rewrite (proj2 (key_eqb_eq _ _) eq_refl). now rewrite R.
Qed.

(** *** The aggregation loop *)

Lemma dict_set_keys (d : dict) (k v : pair) :
  (In k (map fst d) -> map fst (dict_set d k v) = map fst d)
  /\ (~ In k (map fst d) -> map fst (dict_set d k v) = map fst d ++ [k]).
Proof.
  induction d as [|[k' v'] d [IH1 IH2]]; cbn [dict_set map fst In].
  - split; [intros []|reflexivity].
  - destruct (key_eqb k' k) eqn:E; cbn [map fst].
    + apply key_eqb_eq in E. subst k'. split; [reflexivity|].
      intros H. exfalso. apply H. now left.
    + split.
      * intros [H|H]; [subst k'; rewrite (proj2 (key_eqb_eq k k) eq_refl) in E;
                       discriminate|].
        now rewrite (IH1 H).
      * intros H. cbn [app]. rewrite IH2; [reflexivity|]. intros H'. apply H. now right.
Qed.

Lemma find_matched_key_key (d : dict) (p k : pair) :
  find_matched_key d p = Some k -> In k (map fst d).
Proof.
  intros H. apply find_matched_key_in in H as [e [H _]].
  apply in_map_iff. now exists (k, e).
Qed.

Lemma add_pair_keys (d : dict) (p : pair) :
  map fst (add_pair d p)
  = if match find_matched_key d p with Some _ => true | None => false end
       || existsb (key_eqb (pair_key p)) (map fst d)
    then map fst d
    else map fst d ++ [pair_key p].
Proof.
  unfold add_pair. destruct (find_matched_key d p) as [k|] eqn:F.
  - cbn [orb]. destruct (dict_get d k) as [e|]; [|reflexivity].
    destruct (replaces p e); [|reflexivity].
    apply (dict_set_keys d k p). now apply (find_matched_key_key d p).
  - cbn [orb]. destruct (existsb (key_eqb (pair_key p)) (map fst d)) eqn:E.
    + apply (dict_set_keys d). apply existsb_exists in E as [k [Hk E]].
      apply key_eqb_eq in E. now subst k.
    + apply (dict_set_keys d). intros H.
      assert (existsb (key_eqb (pair_key p)) (map fst d) = true).
      { apply existsb_exists. exists (pair_key p).
        split; [exact H|now apply key_eqb_eq]. }
      congruence.
Qed.

Lemma fold_keys_prefix (ms : list pair) :
  forall d, exists extra,
    map fst (fold_left process_match ms d) = map fst d ++ extra.
Proof.
  induction ms as [|m ms IH]; intros d; cbn [fold_left].
  - exists []. now rewrite app_nil_r.
  - destruct (IH (process_match d m)) as [extra E]. rewrite E.
    unfold process_match. destruct (valid_pair (clean_match m)).
    + rewrite add_pair_keys. destruct (_ || _).
      * now exists extra.
      * exists (pair_key (clean_match m) :: extra). now rewrite <- app_assoc.
    + now exists extra.
Qed.

(** X9: the aggregation map only grows at its end: adding a pair keeps all
    keys in place, and appends the key of the pair exactly when the pair
    matches no stored pair and its key is new; so reading more matches never
    removes or reorders entries. *)
Theorem entries_only_appended :
  (forall (seen_pairs : dict) (p : pair),
     map fst (add_pair seen_pairs p)
     = if match find_matched_key seen_pairs p with
          | Some _ => true
          | None => false
          end
          || existsb (key_eqb (pair_key p)) (map fst seen_pairs)
       then map fst seen_pairs
       else map fst seen_pairs ++ [pair_key p])
  /\ (forall matches more_matches : list pair,
        exists extra,
          map fst (aggregate (matches ++ more_matches))
          = map fst (aggregate matches) ++ extra).
Proof.
  split; [exact add_pair_keys|].
  intros ms1 ms2. unfold aggregate. rewrite fold_left_app.
  apply fold_keys_prefix.
Qed.

(** The values of the map come from the valid pairs. *)
Lemma fold_values (V : list pair) (ms : list pair) :
  (forall m, In m ms -> valid_pair (clean_match m) = true ->
             In (clean_match m) V) ->
  forall d, (forall k v, In (k, v) d -> In v V) ->
  forall k v, In (k, v) (fold_left process_match ms d) -> In v V.
Proof.
  induction ms as [|m ms IH]; intros HV d Hd; cbn [fold_left]; [exact Hd|].
  apply IH; [intros m' Hm; apply HV; now right|].
  unfold process_match. destruct (valid_pair (clean_match m)) eqn:E; [|exact Hd].
  intros k v H. unfold add_pair in H.
  assert (Hp : In (clean_match m) V) by (apply HV; [now left|exact E]).
  destruct (find_matched_key d (clean_match m)) as [mk|].
  - destruct (dict_get d mk) as [e|]; [|now apply (Hd k)].
    destruct (replaces (clean_match m) e); [|now apply (Hd k)].
    apply dict_set_in in H as [H|[_ ->]]; [now apply (Hd k)|exact Hp].
  - apply dict_set_in in H as [H|[_ ->]]; [now apply (Hd k)|exact Hp].
Qed.

Lemma output_from_valid_pairs (text : str) (p : pair) :
  In p (fighter_pairs_of_text text) -> In p (valid_pairs text).
Proof.
  unfold fighter_pairs_of_text, aggregate. intros H.
  apply in_map_iff in H as [[k v] [<- H]]. cbn [snd].
  apply (fold_values (valid_pairs text) (find_matches text)) with (d := []) (k := k).
  - intros m Hm Hv. unfold valid_pairs. apply filter_In. split; [|exact Hv].
    now apply in_map.
  - intros ? ? [].
  - exact H.
Qed.

(** X10: the extractor invents nothing: every pair of the output is one of
    the cleaned pairs that passed the validity filter, so both its names
    are valid names. *)
Theorem output_pairs_are_valid (text : str) (p : pair) :
  In p (fighter_pairs_of_text text) ->
  In p (valid_pairs text)
  /\ valid_name (fst p) = true /\ valid_name (snd p) = true.
Proof.
  intros H. apply output_from_valid_pairs in H. split; [exact H|].
  unfold valid_pairs in H. apply filter_In in H as [_ H].
  unfold valid_pair in H. now apply andb_true_iff in H.
Qed.

(** The pair that comes out for the two mentions of one fight. *)
Lemma output_pairs_are_valid_witness :
  let text := txt "#4 Justin Gaethje vs Max Holloway. Live now Gaethje vs Holloway" in
  let p := (txt "Justin Gaethje", txt "Max Holloway") in
  fighter_pairs_of_text text = [p]
  /\ In p (valid_pairs text)
  /\ valid_name (fst p) = true /\ valid_name (snd p) = true.
Proof.
  split; [vm_compute; reflexivity|].
  apply (output_pairs_are_valid
    (txt "#4 Justin Gaethje vs Max Holloway. Live now Gaethje vs Holloway")
    (txt "Justin Gaethje", txt "Max Holloway")).
  vm_compute. left. reflexivity.
Defined.

Lemma keyed_keys (d : dict) :
  keyed d -> map pair_key (map snd d) = map fst d.
Proof.
  intros Hk. induction d as [|[k v] d IH]; [reflexivity|].
  cbn [map fst snd]. rewrite IH by (intros k0 v0 H; apply Hk; now right).
  now rewrite (Hk k v (or_introl eq_refl)).
Qed.

Lemma fold_filter (ms : list pair) :
  forall d,
  fold_left process_match ms d
  = fold_left add_pair (filter valid_pair (map clean_match ms)) d.
Proof.
  induction ms as [|m ms IH]; intros d; cbn [fold_left map filter];
    [reflexivity|].
  unfold process_match at 2.
  destruct (valid_pair (clean_match m)); cbn [fold_left]; apply IH.
Qed.

Lemma add_pair_length_le (d : dict) (p : pair) :
  length (add_pair d p) <= S (length d).
Proof.
  rewrite <- (length_map fst (add_pair d p)), add_pair_keys.
  destruct (_ || _); rewrite ?length_app, length_map; simpl; lia.
Qed.

Lemma fold_add_length (ps : list pair) :
  forall d, length (fold_left add_pair ps d) <= length d + length ps.
Proof.
  induction ps as [|p ps IH]; intros d; cbn [fold_left length]; [lia|].
  specialize (IH (add_pair d p)). pose proof (add_pair_length_le d p). lia.
Qed.

(** X11: matches that fail the validity filter have no effect at all: the
    output is what adding the valid cleaned pairs one after the other
    gives, and it has at most as many pairs as there are valid ones. *)
Theorem output_from_valid_pairs_only (text : str) :
  fighter_pairs_of_text text
  = map snd (fold_left add_pair (valid_pairs text) [])
  /\ length (fighter_pairs_of_text text) <= length (valid_pairs text).
Proof.
  assert (E : fighter_pairs_of_text text
              = map snd (fold_left add_pair (valid_pairs text) [])).
  { unfold fighter_pairs_of_text, aggregate, valid_pairs. now rewrite fold_filter. }
  split; [exact E|]. rewrite E, length_map.
  apply (fold_add_length (valid_pairs text) []).
Qed.

Lemma same_fight_refl (p : pair) : same_fight p p = true.
Proof. unfold same_fight. now rewrite !names_match_refl. Qed.

Lemma replaces_irrefl (p : pair) : replaces p p = false.
Proof.
  destruct (replaces p p) eqn:E; [|reflexivity].
  apply replaces_iff in E as [[H1 H2]|[_ [H|[_ H]]]]; [congruence|lia|lia].
Qed.

(** Once [p] is stored under [k], ahead of anything else it matches, the
    scan for [p] stops there. *)
Lemma found_after_set (d : dict) (p k : pair) :
  find_matched_key d p = None \/ find_matched_key d p = Some k ->
  find_matched_key (dict_set d k p) p = Some k
  /\ dict_get (dict_set d k p) k = Some p.
Proof.
  induction d as [|[k' v'] d IH]; cbn [find_matched_key dict_set].
  - intros _. cbn [find_matched_key dict_get].
    now rewrite same_fight_refl, (proj2 (key_eqb_eq k k) eq_refl).
  - destruct (same_fight p v') eqn:S.
    + intros [H|H]; [discriminate|]. injection H as ->.
      rewrite (proj2 (key_eqb_eq k k) eq_refl).
      cbn [find_matched_key dict_get].
      now rewrite same_fight_refl, (proj2 (key_eqb_eq k k) eq_refl).
    + intros H. destruct (key_eqb k' k) eqn:E; cbn [find_matched_key dict_get].
      * apply key_eqb_eq in E. subst k'.
        now rewrite same_fight_refl, (proj2 (key_eqb_eq k k) eq_refl).
      * rewrite S, E. now apply IH.
Qed.

Lemma add_pair_found (d : dict) (p : pair) :
  exists k e, find_matched_key (add_pair d p) p = Some k
              /\ dict_get (add_pair d p) k = Some e
              /\ replaces p e = false.
Proof.
  unfold add_pair. destruct (find_matched_key d p) as [k|] eqn:F.
  - destruct (dict_get d k) as [e|] eqn:G.
    + destruct (replaces p e) eqn:R.
      * exists k, p. destruct (found_after_set d p k (or_intror F)) as [H1 H2].
        repeat split; auto. apply replaces_irrefl.
      * exists k, e. auto.
    + exfalso. apply find_matched_key_in in F as [e [Hin _]].
      clear - Hin G. induction d as [|[k' v'] d IH]; [destruct Hin|].
      cbn [dict_get] in G. destruct (key_eqb k' k) eqn:E; [discriminate|].
      destruct Hin as [H|H]; [|now apply IH].
      injection H as -> _. rewrite (proj2 (key_eqb_eq k k) eq_refl) in E.
      discriminate.
  - exists (pair_key p), p.
    destruct (found_after_set d p (pair_key p) (or_introl F)) as [H1 H2].
    repeat split; auto. apply replaces_irrefl.
Qed.

(** X12: right after a valid pair has been added, the map holds an entry
    that matches it, and adding the same pair again changes nothing. *)
Theorem add_pair_settles (seen_pairs : dict) (p : pair) :
  (exists k e, In (k, e) (add_pair seen_pairs p) /\ same_fight p e = true)
  /\ add_pair (add_pair seen_pairs p) p = add_pair seen_pairs p.
Proof.
  destruct (add_pair_found seen_pairs p) as [k [e [F [G R]]]]. split.
  - apply find_matched_key_in in F as [e' [Hin He]]. now exists k, e'.
  - unfold add_pair at 1. now rewrite F, G, R.
Qed.

(** *** The validity filter *)

Lemma exclude_patterns_words :
  exclude_patterns
  = [exact_pattern excluded_tokens; exact_pattern excluded_countries;
     containing_pattern excluded_keywords].
Proof. reflexivity. Qed.

Lemma line_feed_name_char (c : ascii) :
  (code c =? 10)%N = true -> name_char c = true.
Proof.
  each_char c; intros H; vm_compute in H; try discriminate H; reflexivity.
Qed.

Lemma proper_name_sound (f : str) :
  re_match proper_name_re f = true ->
  starts_in is_upper f = true /\ forallb name_char f = true.
Proof.
  unfold re_match, match_at, proper_name_re.
  destruct (rmatch _ _ _ _) as [res|] eqn:E; [intros _|discriminate].
  cbn [rmatch fst snd] in E. destruct f as [|c rest]; [discriminate|].
  destruct (is_upper c) eqn:U; [|discriminate].
  apply rep_sound in E as [n [_ [Hsp [_ E]]]]. cbn [fst snd] in E.
  destruct (at_eol (skipn n rest)) eqn:A; [|discriminate].
  split; [exact U|]. cbn [forallb]. rewrite (upper_name_char c U). cbn [andb].
  rewrite <- (firstn_skipn n rest), forallb_app, (span_len_firstn _ _ _ Hsp).
  destruct (skipn n rest) as [|x [|y t]]; [reflexivity| |discriminate].
  simpl in A. cbn [forallb andb]. now rewrite (line_feed_name_char x A).
Qed.

Lemma valid_name_shape (f : str) :
  valid_name f = true ->
  5 <= length f <= 40
  /\ starts_in is_upper f = true /\ forallb name_char f = true.
Proof.
  unfold valid_name. intros H.
  apply andb_true_iff in H as [H H4]. apply andb_true_iff in H as [H _].
  apply andb_true_iff in H as [H1 H2]. apply Nat.leb_le in H1, H2.
  destruct (proper_name_sound f H4). auto.
Qed.

Lemma plain_of_single_spaced (f : str) :
  single_spaced f = true -> forallb name_char f = true ->
  forallb plain_char f = true.
Proof.
  induction f as [|c f IH]; [reflexivity|]. cbn [single_spaced forallb].
  intros H N. apply andb_true_iff in H as [Hc H], N as [Nc N].
  rewrite (IH H N), andb_true_r. unfold name_char in Nc. unfold plain_char.
  destruct (is_space c).
  - apply andb_true_iff in Hc as [-> _]. now rewrite orb_true_r.
  - rewrite orb_false_r in Nc.
    destruct (is_letter c); [reflexivity|]. cbn [orb] in *.
    destruct (is_char " " c); [reflexivity|exact Nc].
Qed.

Lemma valid_clean_tidy (raw : str) :
  valid_name (clean_fighter_name raw) = true ->
  tidy_name (clean_fighter_name raw).
Proof.
  intros V. destruct (valid_name_shape _ V) as [L [U N]].
  pose proof (clean_squeezed raw) as S. unfold squeezed in S.
  apply andb_true_iff in S as [S S3]. apply andb_true_iff in S as [S1 _].
  apply negb_true_iff in S3.
  repeat split; try lia; auto. now apply plain_of_single_spaced.
Qed.

(** X13: both names of every pair of the output have 5 to 40 characters,
    start with a capital letter, are made of letters, single plain spaces,
    hyphens and apostrophes only, and do not end with a space. *)
Theorem output_names_tidy (text : str) (f1 f2 : str) :
  In (f1, f2) (fighter_pairs_of_text text) -> tidy_name f1 /\ tidy_name f2.
Proof.
  intros H. apply output_from_valid_pairs in H. unfold valid_pairs in H.
  apply filter_In in H as [H V]. apply in_map_iff in H as [m [E _]].
  unfold valid_pair in V. apply andb_true_iff in V as [V1 V2].
  unfold clean_match in E. injection E as <- <-.
  split; now apply valid_clean_tidy.
Qed.

(** The names that come out for "#4 Justin Gaethje vs Max Holloway". *)
Lemma output_names_tidy_witness :
  tidy_name (txt "Justin Gaethje") /\ tidy_name (txt "Max Holloway").
Proof.
  apply (output_names_tidy (txt "#4 Justin Gaethje vs Max Holloway")).
  vm_compute. left. reflexivity.
Defined.

(** Some alternative matches when the given one does. *)
Lemma alt_ci_matches (kws : list str) (kw kw' t : str) (k : cont) :
  In kw kws -> lower_str kw' = lower_str kw ->
  (forall pv caps, k (pv, t) caps <> None) ->
  forall pv caps, rmatch (alt_ci kws) (pv, kw' ++ t) caps k <> None.
Proof.
  intros I E Hk. induction kws as [|kw0 rest IH]; [destruct I|].
  intros pv caps. cbn [alt_ci]. destruct rest as [|kw1 rest].
  - destruct I as [->|[]]. rewrite (lit_ci_match kw kw' pv t caps k E). apply Hk.
  - cbn [rmatch].
    destruct (rmatch (lit_ci kw0) (pv, kw' ++ t) caps k) eqn:M; [discriminate|].
    destruct I as [->|I]; [|now apply IH].
    rewrite (lit_ci_match kw kw' pv t caps k E) in M. now apply Hk in M.
Qed.

(** A repetition stops where the rest of the pattern matches, if not
    later. *)
Lemma rep_reaches (p : ascii -> bool) (k : cont) (s : str) :
  forall lo pv caps n,
  lo <= n -> n <= span_len p s ->
  k (prev_at pv s n, skipn n s) caps <> None ->
  rep p lo None pv s caps k <> None.
Proof.
  induction s as [|c s IH]; intros lo pv caps n Hlo Hn Hk; cbn [rep].
  - simpl in Hn. assert (n = 0) by lia. subst n.
    assert (lo = 0) by lia. subst lo. exact Hk.
  - cbn [span_len] in Hn. destruct (p c) eqn:Pc; cbn [andb more].
    + destruct n as [|n].
      * assert (lo = 0) by lia. subst lo.
        destruct (rep p (pred 0) (option_map pred None) (Some c) s caps k);
          [discriminate|exact Hk].
      * rewrite <- (prev_at_cons pv c s n) in Hk. cbn [skipn] in Hk.
        pose proof (IH (pred lo) (Some c) caps n ltac:(lia) ltac:(lia) Hk) as R.
        cbn [option_map].
        destruct (rep p (pred lo) None (Some c) s caps k);
          [discriminate|congruence].
    + assert (n = 0) by lia. subst n. assert (lo = 0) by lia. subst lo. exact Hk.
Qed.

Lemma rep_total (p : ascii -> bool) (k : cont) (s : str) :
  (forall cur caps, k cur caps <> None) ->
  forall hi pv caps, rep p 0 hi pv s caps k <> None.
Proof.
  intros Hk. induction s as [|c s IH]; intros hi pv caps; cbn [rep];
    [apply Hk|].
  destruct (p c && more hi); [|apply Hk].
  destruct (rep p (pred 0) (option_map pred hi) (Some c) s caps k);
    [discriminate|apply Hk].
Qed.

Lemma span_len_ge (p : ascii -> bool) (pre rest : str) :
  forallb p pre = true -> length pre <= span_len p (pre ++ rest).
Proof.
  induction pre as [|c pre IH]; cbn [forallb app span_len length]; [lia|].
  intros H. apply andb_true_iff in H as [-> H]. specialize (IH H). lia.
Qed.

Lemma exact_pattern_matches (words : list str) (kw f : str) :
  In kw words -> lower_str f = lower_str kw ->
  re_match (exact_pattern words) f = true.
Proof.
  intros I E. unfold re_match, match_at, exact_pattern.
  destruct (rmatch _ _ _ _) eqn:M; [destruct p as [[? ?] ?]; reflexivity|].
  exfalso. cbn [rmatch fst snd] in M. rewrite <- (app_nil_r f) in M at 1.
  revert M. apply (alt_ci_matches words kw f [] _ I E).
  intros pv caps. cbn [snd at_eol]. discriminate.
Qed.

Lemma containing_pattern_matches (words : list str) (kw kw' pre post : str) :
  In kw words -> lower_str kw' = lower_str kw -> forallb is_dot pre = true ->
  re_match (containing_pattern words) (pre ++ kw' ++ post) = true.
Proof.
  intros I E D. unfold re_match, match_at, containing_pattern.
  destruct (rmatch _ _ _ _) eqn:M; [destruct p as [[? ?] ?]; reflexivity|].
  exfalso. cbn [rmatch fst snd] in M. revert M.
  apply (rep_reaches is_dot _ _ 0 None [] (length pre));
    [lia|now apply span_len_ge|].
  rewrite skipn_length_app.
  apply (alt_ci_matches words kw kw' post _ I E).
  intros pv caps. cbn [fst snd]. apply rep_total. discriminate.
Qed.

Lemma excluded_invalid (f : str) :
  existsb (fun pattern => re_match pattern f) exclude_patterns = true ->
  valid_name f = false.
Proof.
  intros H. unfold valid_name. rewrite H. cbn [negb].
  now rewrite andb_false_r.
Qed.

Lemma excluded_word_invalid (kw f : str) :
  In kw (excluded_tokens ++ excluded_countries) ->
  lower_str f = lower_str kw -> valid_name f = false.
Proof.
  intros I E. apply excluded_invalid. rewrite exclude_patterns_words.
  cbn [existsb]. apply in_app_or in I as [I|I].
  - now rewrite (exact_pattern_matches _ kw f I E).
  - rewrite (exact_pattern_matches _ kw f I E). apply orb_true_r.
Qed.

Lemma excluded_keyword_invalid (kw kw' pre post : str) :
  In kw excluded_keywords -> lower_str kw' = lower_str kw ->
  forallb is_dot pre = true -> valid_name (pre ++ kw' ++ post) = false.
Proof.
  intros I E D. apply excluded_invalid. rewrite exclude_patterns_words.
  cbn [existsb]. rewrite (containing_pattern_matches _ kw kw' pre post I E D).
  now rewrite !orb_true_r.
Qed.

(** X14: the validity filter rejects, whatever the letter case, every name
    that is one of the words "vs", "odds", "Flag" or one of the eight
    country names, and every name that holds one of the twelve title and
    weight-class keywords with no line feed before it. *)
Theorem excluded_names_invalid :
  (forall kw f : str,
     In kw (excluded_tokens ++ excluded_countries) ->
     lower_str f = lower_str kw -> valid_name f = false)
  /\ (forall kw kw' pre post : str,
        In kw excluded_keywords -> lower_str kw' = lower_str kw ->
        forallb is_dot pre = true ->
        valid_name (pre ++ kw' ++ post) = false).
Proof. split; [exact excluded_word_invalid|exact excluded_keyword_invalid]. Qed.

(** "UNITED STATES" and "Interim lightweight Champ". *)
Lemma excluded_names_invalid_witness :
  valid_name (txt "UNITED STATES") = false
  /\ valid_name (txt "Interim " ++ txt "lightweight" ++ txt " Champ") = false.
Proof.
  destruct excluded_names_invalid as [A B]. split.
  - apply (A (txt "United States")); [vm_compute; tauto|reflexivity].
  - apply (B (txt "Lightweight")); [vm_compute; tauto|reflexivity|reflexivity].
Defined.

Lemma starts_with_split (sub s : str) :
  starts_with sub s = true -> exists post, s = sub ++ post.
Proof.
  revert s; induction sub as [|x sub IH]; intros s; [now exists s|].
  destruct s as [|y s]; [discriminate|]. cbn [starts_with]. intros H.
  apply andb_true_iff in H as [H1 H2]. apply Ascii.eqb_eq in H1. subst y.
  destruct (IH s H2) as [post ->]. now exists post.
Qed.

Lemma contains_split (sub s : str) :
  contains sub s = true -> exists pre post, s = pre ++ sub ++ post.
Proof.
  induction s as [|y s IH]; cbn [contains]; intros H;
    apply orb_true_iff in H as [H|H]; try discriminate.
  - apply starts_with_split in H as [post ->]. now exists [], post.
  - apply starts_with_split in H as [post ->]. now exists [], post.
  - destruct (IH H) as [pre [post ->]]. now exists (y :: pre), post.
Qed.

Lemma plain_char_dot (c : ascii) : plain_char c = true -> is_dot c = true.
Proof.
  each_char c; intros H; vm_compute in H; try discriminate H; reflexivity.
Qed.

Lemma valid_tidy_free (f : str) :
  valid_name f = true -> forallb plain_char f = true -> free_of_excluded f.
Proof.
  intros V P. split.
  - intros kw I E. rewrite (excluded_word_invalid kw f I E) in V. discriminate.
  - intros kw I. destruct (contains (lower_str kw) (lower_str f)) eqn:C;
      [exfalso|reflexivity].
    apply contains_split in C as [pre [post C]]. unfold lower_str in C.
    apply map_eq_app in C as [a [r [-> [Ea C]]]].
    apply map_eq_app in C as [b [c [-> [Eb Ec]]]].
    rewrite (excluded_keyword_invalid kw b a c I Eb) in V; [discriminate|].
    rewrite forallb_app in P. apply andb_true_iff in P as [P _].
    clear - P. induction a as [|x a IH]; [reflexivity|].
    cbn [forallb] in *. apply andb_true_iff in P as [Px P].
    now rewrite (plain_char_dot x Px), IH.
Qed.

(** X15: no name of the output is an excluded word or country name, and
    none holds a title or weight-class keyword, whatever the letter case. *)
Theorem output_free_of_excluded (text : str) (f1 f2 : str) :
  In (f1, f2) (fighter_pairs_of_text text) ->
  free_of_excluded f1 /\ free_of_excluded f2.
Proof.
  intros H. apply output_from_valid_pairs in H. unfold valid_pairs in H.
  apply filter_In in H as [H V]. apply in_map_iff in H as [m [E _]].
  unfold valid_pair in V. apply andb_true_iff in V as [V1 V2].
  unfold clean_match in E. injection E as <- <-. cbn [fst snd] in V1, V2.
  split; (apply valid_tidy_free; [assumption|]).
  - now destruct (valid_clean_tidy _ V1) as [_ [_ [P _]]].
  - now destruct (valid_clean_tidy _ V2) as [_ [_ [P _]]].
Qed.

(** The names that come out for "#4 Justin Gaethje vs Max Holloway". *)
Lemma output_free_of_excluded_witness :
  free_of_excluded (txt "Justin Gaethje") /\ free_of_excluded (txt "Max Holloway").
Proof.
  apply (output_free_of_excluded (txt "#4 Justin Gaethje vs Max Holloway")).
  vm_compute. left. reflexivity.
Defined.

(** *** The pattern scan *)

Lemma findall_vs_length (s : str) :
  forall pv skip, skip <= length s ->
  10 * length (findall_from vs_pattern pv s skip) + skip <= length s.
Proof.
  induction s as [|c s IH]; intros pv skip L; cbn [findall_from length] in *.
  - lia.
  - destruct skip as [|n]; [|specialize (IH (Some c) n); lia].
    destruct (match_at vs_pattern pv (c :: s)) as [[[|n] caps]|] eqn:E;
      try (specialize (IH (Some c) 0); lia).
    pose proof (match_at_min_len _ _ _ _ _ E) as M.
    pose proof (match_at_length _ _ _ _ _ E) as M'.
    change (min_len vs_pattern) with 10 in M. cbn [length] in *.
    specialize (IH (Some c) n). lia.
Qed.

Lemma findall_no_capital (s : str) :
  forallb (fun c => negb (is_upper c)) s = true ->
  forall pv, findall_from vs_pattern pv s 0 = [].
Proof.
  induction s as [|c s IH]; intros H pv; [reflexivity|].
  cbn [forallb] in H. apply andb_true_iff in H as [Hc H].
  apply negb_true_iff in Hc. rewrite (findall_skip_char pv c s Hc).
  now apply IH.
Qed.

(** X16: each match of the scan covers at least ten characters of the
    text, so a text of n characters gives at most n/10 matches and pairs,
    and a text shorter than ten characters gives none; and a text without
    a capital letter gives none either. *)
Theorem scan_bounds :
  (forall text : str,
     10 * length (find_matches text) <= length text
     /\ 10 * length (fighter_pairs_of_text text) <= length text)
  /\ (forall text : str,
        forallb (fun c => negb (is_upper c)) text = true ->
        find_matches text = [] /\ fighter_pairs_of_text text = []).
Proof.
  split.
  - intros text.
    assert (M : 10 * length (find_matches text) <= length text).
    { unfold find_matches, re_findall. rewrite length_map.
      pose proof (findall_vs_length text None 0). lia. }
    split; [exact M|].
    assert (length (fighter_pairs_of_text text) <= length (find_matches text)).
    { unfold fighter_pairs_of_text, aggregate.
      rewrite length_map, fold_filter.
      pose proof (fold_add_length
        (filter valid_pair (map clean_match (find_matches text))) []).
      pose proof (filter_length_le valid_pair
        (map clean_match (find_matches text))).
      rewrite length_map in *. simpl in *. lia. }
    lia.
  - intros text H.
    assert (M : find_matches text = []).
    { unfold find_matches, re_findall. now rewrite findall_no_capital. }
    split; [exact M|]. unfold fighter_pairs_of_text. now rewrite M.
Qed.

(** "justin gaethje vs max holloway" in small letters. *)
Lemma scan_bounds_witness :
  find_matches (txt "justin gaethje vs max holloway") = []
  /\ fighter_pairs_of_text (txt "justin gaethje vs max holloway") = [].
Proof.
  apply (proj2 scan_bounds (txt "justin gaethje vs max holloway")).
  reflexivity.
Defined.

Lemma chr_consumes (p : ascii -> bool) pv (s : str) caps (k : cont) res :
  rmatch (Chr p) (pv, s) caps k = Some res ->
  exists c s1, s = c :: s1 /\ p c = true /\ k (Some c, s1) caps = Some res.
Proof.
  cbn [rmatch snd]. destruct s as [|c s1]; [discriminate|].
  destruct (p c) eqn:Pc; [|discriminate]. intros H. now exists c, s1.
Qed.

Lemma ws_plus_consumes pv (s : str) caps (k : cont) res :
  rmatch ws_plus (pv, s) caps k = Some res ->
  exists ws s1 pv1,
    s = ws ++ s1 /\ blank ws = true /\ k (pv1, s1) caps = Some res.
Proof.
  unfold ws_plus. cbn [rmatch fst snd]. intros H.
  apply rep_sound in H as [n [Hlo [Hsp [_ H]]]].
  exists (firstn n s), (skipn n s), (prev_at pv s n).
  split; [now rewrite firstn_skipn|]. split; [|exact H].
  pose proof (span_len_firstn is_space s n Hsp) as F.
  pose proof (span_len_le is_space s).
  destruct (firstn n s) eqn:E; [|exact F].
  apply (f_equal (@length ascii)) in E. rewrite length_firstn in E.
  simpl in E. lia.
Qed.

Lemma name_group_consumes pv (s : str) caps (k : cont) res :
  rmatch name_group (pv, s) caps k = Some res ->
  exists g s1 pv1,
    s = g ++ s1 /\ raw_shape 2 50 g = true
    /\ k (pv1, s1) (caps ++ [g]) = Some res.
Proof.
  unfold name_group. cbn [rmatch fst snd].
  destruct s as [|c s]; [discriminate|].
  destruct (is_upper c) eqn:U; [|discriminate].
  intros H. apply rep_sound in H as [n [Hlo [Hsp [Hhi H]]]].
  cbn [fst snd] in H.
  assert (Hn : n <= length s) by (pose proof (span_len_le name_char s); lia).
  replace (length (c :: s) - length (skipn n s)) with (S n) in H
    by (cbn [length]; rewrite length_skipn; lia).
  exists (c :: firstn n s), (skipn n s), (prev_at (Some c) s n).
  split; [cbn [app]; now rewrite firstn_skipn|]. split; [|exact H].
  cbn [raw_shape]. rewrite U, (span_len_firstn _ _ _ Hsp), length_firstn.
  specialize (Hhi 50 eq_refl).
  replace (Nat.min n (length s)) with n by lia.
  rewrite (proj2 (Nat.leb_le 2 n) Hlo), (proj2 (Nat.leb_le n 50) Hhi).
  reflexivity.
Qed.

Lemma is_char_eq (a c : ascii) : is_char a c = true -> c = a.
Proof. unfold is_char. intros H. apply Ascii.eqb_eq in H. now subst. Qed.

(** What a match of the "vs" pattern covers and what it captures. *)
Lemma vs_pattern_consumes pv (s : str) (n : nat) (caps : list str) :
  match_at vs_pattern pv s = Some (n, caps) ->
  exists g1 ws1 ws2 g2 s',
    s = vs_mention g1 ws1 ws2 g2 ++ s'
    /\ caps = [g1; g2]
    /\ raw_shape 2 50 g1 = true /\ blank ws1 = true
    /\ blank ws2 = true /\ raw_shape 2 50 g2 = true.
Proof.
  unfold match_at.
  destruct (rmatch vs_pattern (pv, s) [] accept) as [[[pv' s'] caps']|] eqn:E;
    [|discriminate].
  intros H. injection H as _ <-. unfold vs_pattern in E.
  change (rmatch WordB (pv, s) []
            (fun c' caps' => rmatch
               (Seq name_group (Seq ws_plus (Seq (Chr (is_char "v"))
                  (Seq (Chr (is_char "s")) (Seq ws_plus
                     (Seq name_group WordB)))))) c' caps' accept)
          = Some (pv', s', caps')) in E.
  cbn [rmatch fst snd] in E. destruct (xorb _ _); [|discriminate].
  change (rmatch name_group (pv, s) []
            (fun c' caps' => rmatch
               (Seq ws_plus (Seq (Chr (is_char "v"))
                  (Seq (Chr (is_char "s")) (Seq ws_plus
                     (Seq name_group WordB))))) c' caps' accept)
          = Some (pv', s', caps')) in E.
  apply name_group_consumes in E as [g1 [s1 [pv1 [-> [S1 E]]]]].
  change (rmatch ws_plus (pv1, s1) ([] ++ [g1])
            (fun c' caps' => rmatch
               (Seq (Chr (is_char "v"))
                  (Seq (Chr (is_char "s")) (Seq ws_plus
                     (Seq name_group WordB)))) c' caps' accept)
          = Some (pv', s', caps')) in E.
  apply ws_plus_consumes in E as [ws1 [s2 [pv2 [-> [B1 E]]]]].
  change (rmatch (Chr (is_char "v")) (pv2, s2) ([] ++ [g1])
            (fun c' caps' => rmatch
               (Seq (Chr (is_char "s")) (Seq ws_plus
                  (Seq name_group WordB))) c' caps' accept)
          = Some (pv', s', caps')) in E.
  apply chr_consumes in E as [cv [s3 [-> [Cv E]]]].
  change (rmatch (Chr (is_char "s")) (Some cv, s3) ([] ++ [g1])
            (fun c' caps' => rmatch
               (Seq ws_plus (Seq name_group WordB)) c' caps' accept)
          = Some (pv', s', caps')) in E.
  apply chr_consumes in E as [cs [s4 [-> [Cs E]]]].
  change (rmatch ws_plus (Some cs, s4) ([] ++ [g1])
            (fun c' caps' => rmatch (Seq name_group WordB) c' caps' accept)
          = Some (pv', s', caps')) in E.
  apply ws_plus_consumes in E as [ws2 [s5 [pv5 [-> [B2 E]]]]].
  change (rmatch name_group (pv5, s5) ([] ++ [g1])
            (fun c' caps' => rmatch WordB c' caps' accept)
          = Some (pv', s', caps')) in E.
  apply name_group_consumes in E as [g2 [s6 [pv6 [-> [S2 E]]]]].
  cbn [rmatch fst snd] in E. destruct (xorb _ _); [|discriminate].
  unfold accept in E. injection E as _ _ <-.
  apply is_char_eq in Cv, Cs. subst cv cs.
  exists g1, ws1, ws2, g2, s6. repeat split; auto.
  unfold vs_mention. now rewrite <- !app_assoc.
Qed.

Lemma findall_from_suffix (r : regex) (t : str) (Q : list str -> Prop) :
  (forall pv s n caps,
     suffix_of s t -> match_at r pv s = Some (n, caps) -> Q caps) ->
  forall s pv skip, suffix_of s t -> Forall Q (findall_from r pv s skip).
Proof.
  intros HQ. induction s as [|c s IH]; intros pv skip Hs;
    cbn [findall_from]; [constructor|].
  assert (Hs' : suffix_of s t).
  { destruct Hs as [pre ->]. exists (pre ++ [c]). now rewrite <- app_assoc. }
  destruct skip; [|now apply IH].
  destruct (match_at r pv (c :: s)) as [[[|n] caps]|] eqn:E; try now apply IH.
  constructor; [now apply (HQ pv (c :: s) (S n))|now apply IH].
Qed.

(** X17: every match the scan reports stands in the text as it is: the
    first captured name, whitespace, "vs", whitespace, the second captured
    name, one after the other; so both captured names occur in the text. *)
Theorem matches_occur_in_text (text : str) (g1 g2 : str) :
  In (g1, g2) (find_matches text) ->
  (exists ws1 ws2,
     blank ws1 = true /\ blank ws2 = true
     /\ infix_of (vs_mention g1 ws1 ws2 g2) text)
  /\ infix_of g1 text /\ infix_of g2 text.
Proof.
  unfold find_matches, re_findall. intros H.
  apply in_map_iff in H as [caps [E H]].
  pose proof (findall_from_suffix vs_pattern text
    (fun caps => exists g1 ws1 ws2 g2,
       caps = [g1; g2] /\ blank ws1 = true /\ blank ws2 = true
       /\ infix_of (vs_mention g1 ws1 ws2 g2) text)) as F.
  assert (Q : Forall (fun caps => exists g1 ws1 ws2 g2,
       caps = [g1; g2] /\ blank ws1 = true /\ blank ws2 = true
       /\ infix_of (vs_mention g1 ws1 ws2 g2) text)
       (findall_from vs_pattern None text 0)).
  { apply F; [|now exists []].
    intros pv s n caps0 [pre ->] M.
    apply vs_pattern_consumes in M
      as [h1 [ws1 [ws2 [h2 [s' [-> [-> [_ [B1 [B2 _]]]]]]]]]].
    exists h1, ws1, ws2, h2. repeat split; auto. now exists pre, s'. }
  rewrite Forall_forall in Q.
  destruct (Q caps H) as [h1 [ws1 [ws2 [h2 [-> [B1 [B2 [pre [post I]]]]]]]]].
  cbn [nth] in E. injection E as <- <-.
  split; [exists ws1, ws2; repeat split; auto; now exists pre, post|].
  unfold vs_mention in I. split.
  - exists pre, (ws1 ++ txt "vs" ++ ws2 ++ h2 ++ post).
    rewrite I. now rewrite <- !app_assoc.
  - exists (pre ++ h1 ++ ws1 ++ txt "vs" ++ ws2), post.
    rewrite I. now rewrite <- !app_assoc.
Qed.

(** The match in "#4 Justin Gaethje vs Max Holloway". *)
Lemma matches_occur_in_text_witness :
  infix_of (txt "Justin Gaethje") (txt "#4 Justin Gaethje vs Max Holloway")
  /\ infix_of (txt "Max Holloway") (txt "#4 Justin Gaethje vs Max Holloway").
Proof.
  apply (matches_occur_in_text (txt "#4 Justin Gaethje vs Max Holloway")
           (txt "Justin Gaethje") (txt "Max Holloway")).
  vm_compute. left. reflexivity.
Defined.

(** *** Surnames and full names *)

Lemma starts_with_app (g post : str) : starts_with g (g ++ post) = true.
Proof.
  induction g as [|x g IH]; [reflexivity|].
  cbn [app starts_with]. now rewrite Ascii.eqb_refl, IH.
Qed.

Lemma contains_app (pre g post : str) : contains g (pre ++ g ++ post) = true.
Proof.
  induction pre as [|y pre IH]; cbn [app].
  - destruct (g ++ post) eqn:E; cbn [contains]; rewrite <- E;
      now rewrite starts_with_app.
  - cbn [contains]. rewrite IH. apply orb_true_r.
Qed.

(** X18: a bare surname matches any name that ends with it as its last
    token, in either order of the two arguments: "Gaethje" and
    "Justin Gaethje" are the same fighter. *)
Theorem surname_matches_full_name (first w : str) :
  is_token w = true -> ends_space first = true ->
  names_match w (first ++ w) = true /\ names_match (first ++ w) w = true.
Proof.
  intros Hw Hf.
  assert (M : names_match w (first ++ w) = true).
  { rewrite names_match_unfold.
    destruct (str_eqb (lower_str w) (lower_str (first ++ w))); [reflexivity|].
    assert (C : contains (lower_str w) (lower_str (first ++ w)) = true).
    { unfold lower_str. rewrite map_app.
      rewrite <- (app_nil_r (map lower w)) at 2. apply contains_app. }
    rewrite C. cbn [orb].
    assert (L : (length w <? length (first ++ w)) = true).
    { apply Nat.ltb_lt. rewrite length_app.
      destruct first; [discriminate|simpl; lia]. }
    rewrite L, !last_token_lower.
    assert (T1 : last_token w = Some w).
    { unfold last_token.
      pose proof (split_token w [] Hw eq_refl) as S. rewrite app_nil_r in S.
      now rewrite S. }
    assert (T2 : last_token (first ++ w) = Some w).
    { unfold last_token.
      pose proof (last_split_from w [] Hw eq_refl first [] Hf) as S.
      rewrite app_nil_r in S. unfold split.
      destruct (split_from [] (first ++ w)) eqn:E; [|now rewrite <- S].
      simpl in S. subst w. discriminate. }
    rewrite T1, T2. cbn [option_map]. apply str_eqb_refl. }
  split; [exact M|]. now rewrite names_match_sym.
Qed.

(** "Gaethje" against "Justin Gaethje". *)
Lemma surname_matches_full_name_witness :
  names_match (txt "Gaethje") (txt "Justin " ++ txt "Gaethje") = true
  /\ names_match (txt "Justin " ++ txt "Gaethje") (txt "Gaethje") = true.
Proof.
  exact (surname_matches_full_name (txt "Justin ") (txt "Gaethje")
           eq_refl eq_refl).
Defined.

(** *** The script *)

Lemma no_save_in_lines (ps : list pair) (tail : list event) :
  filter saves_file (map pair_line ps ++ tail) = filter saves_file tail.
Proof. induction ps as [|p ps IH]; [reflexivity|exact IH]. Qed.

(** X19: whenever at least one valid pair is found, the script prints one
    line per pair of the output, in order, saves exactly one workbook, under
    the given file name, with the header row followed by the pairs of the
    output in order, and prints their number. *)
Theorem script_saves_the_output (output_file text : str) :
  valid_pairs text <> [] ->
  let fight_pairs := fighter_pairs_of_text text in
  fight_pairs <> []
  /\ main_script output_file text
     = PrintLine (txt "Fights found:")
       :: map pair_line fight_pairs
       ++ [SaveWorkbook output_file (header_row :: fight_pairs);
           PrintLine (Ascii.ascii_of_nat 10
                      :: txt "Excel file created: " ++ output_file);
           PrintLine (txt "Total fights saved: "
                      ++ decimal (length fight_pairs))]
  /\ filter saves_file (main_script output_file text)
     = [SaveWorkbook output_file (header_row :: fight_pairs)].
Proof.
  intros H fight_pairs.
  assert (N : fight_pairs <> []).
  { intros E. apply H. now apply no_pairs_iff. }
  assert (M : main_script output_file text
     = PrintLine (txt "Fights found:")
       :: map pair_line fight_pairs
       ++ [SaveWorkbook output_file (header_row :: fight_pairs);
           PrintLine (Ascii.ascii_of_nat 10
                      :: txt "Excel file created: " ++ output_file);
           PrintLine (txt "Total fights saved: "
                      ++ decimal (length fight_pairs))]).
  { unfold main_script. fold fight_pairs.
    destruct fight_pairs; [congruence|reflexivity]. }
  split; [exact N|]. split; [exact M|].
  rewrite M. cbn [filter saves_file]. now rewrite no_save_in_lines.
Qed.

(** One fight on the page. *)
Lemma script_saves_the_output_witness :
  filter saves_file
    (main_script (txt "ufc_324.xlsx") (txt "Jon Jones vs Tom Aspinall"))
  = [SaveWorkbook (txt "ufc_324.xlsx")
       [header_row; (txt "Jon Jones", txt "Tom Aspinall")]].
Proof.
  assert (V : valid_pairs (txt "Jon Jones vs Tom Aspinall") <> [])
    by (vm_compute; discriminate).
  destruct (script_saves_the_output (txt "ufc_324.xlsx")
              (txt "Jon Jones vs Tom Aspinall") V) as [_ [_ F]].
  rewrite F. vm_compute. reflexivity.
Defined.

(** *** Keys and entries *)

Lemma add_pair_has_key (d : dict) (p : pair) :
  keyed d -> In (pair_key p) (map fst (add_pair d p)).
Proof.
  intros Hk. rewrite add_pair_keys.
  destruct (find_matched_key d p) as [k|] eqn:F; cbn [orb].
  - pose proof (find_matched_key_key d p k F) as I.
    apply find_matched_key_in in F as [e [Hin He]].
    rewrite (same_fight_same_key p e He), <- (Hk k e Hin). exact I.
  - destruct (existsb (key_eqb (pair_key p)) (map fst d)) eqn:E.
    + apply existsb_exists in E as [k [I E]]. apply key_eqb_eq in E. now subst k.
    + apply in_or_app. right. now left.
Qed.

Lemma add_pair_keeps_keys (d : dict) (p k : pair) :
  In k (map fst d) -> In k (map fst (add_pair d p)).
Proof.
  intros H. rewrite add_pair_keys. destruct (_ || _); [exact H|].
  apply in_or_app. now left.
Qed.

Lemma fold_add_keeps_keys (ps : list pair) :
  forall d k, In k (map fst d) -> In k (map fst (fold_left add_pair ps d)).
Proof.
  induction ps as [|p ps IH]; intros d k H; cbn [fold_left]; [exact H|].
  apply IH. now apply add_pair_keeps_keys.
Qed.

Lemma fold_add_invariant (ps : list pair) :
  forall d, keyed d /\ unique_keys d ->
  keyed (fold_left add_pair ps d) /\ unique_keys (fold_left add_pair ps d).
Proof.
  induction ps as [|p ps IH]; intros d H; cbn [fold_left]; [exact H|].
  apply IH. now apply add_pair_invariant.
Qed.

Lemma fold_add_has_keys (ps : list pair) :
  forall d, keyed d /\ unique_keys d ->
  forall p, In p ps -> In (pair_key p) (map fst (fold_left add_pair ps d)).
Proof.
  induction ps as [|q ps IH]; intros d H p I; [destruct I|].
  cbn [fold_left]. destruct I as [->|I].
  - apply fold_add_keeps_keys. apply add_pair_has_key. apply H.
  - apply IH; [now apply add_pair_invariant|exact I].
Qed.

(** X20: the output holds exactly one pair for each sorted key pair that
    occurs among the valid pairs: its key pairs are those of the valid
    pairs, none lost and none added, each of them once; in particular no
    pair comes out twice. *)
Theorem one_entry_per_key (text : str) :
  (forall key : pair,
     In key (map pair_key (fighter_pairs_of_text text))
     <-> In key (map pair_key (valid_pairs text)))
  /\ NoDup (map pair_key (fighter_pairs_of_text text))
  /\ NoDup (fighter_pairs_of_text text).
Proof.
  assert (E : fighter_pairs_of_text text
              = map snd (fold_left add_pair (valid_pairs text) [])).
  { unfold fighter_pairs_of_text, aggregate, valid_pairs. now rewrite fold_filter. }
  assert (I : keyed (@nil (pair * pair)) /\ unique_keys []).
  { split; [intros ? ? []|constructor]. }
  destruct (fold_add_invariant (valid_pairs text) [] I) as [Hk Hu].
  assert (N : NoDup (map pair_key (fighter_pairs_of_text text)))
    by (rewrite E, (keyed_keys _ Hk); exact Hu).
  split; [|split; [exact N|now apply NoDup_map_inv in N]].
  intros key. split.
  - intros H. apply in_map_iff in H as [p [<- H]].
    apply in_map. now apply output_from_valid_pairs.
  - intros H. apply in_map_iff in H as [p [<- H]].
    rewrite E, (keyed_keys _ Hk).
    now apply (fold_add_has_keys (valid_pairs text) [] I).
Qed.

Lemma no_match_without_key (d : dict) (p : pair) :
  keyed d -> ~ In (pair_key p) (map fst d) -> find_matched_key d p = None.
Proof.
  intros Hk Hn. destruct (find_matched_key d p) as [k|] eqn:F; [|reflexivity].
  exfalso. apply Hn. pose proof (find_matched_key_key d p k F) as I.
  apply find_matched_key_in in F as [e [Hin He]].
  now rewrite (same_fight_same_key p e He), <- (Hk k e Hin).
Qed.

Lemma dict_set_append (d : dict) (k v : pair) :
  ~ In k (map fst d) -> dict_set d k v = d ++ [(k, v)].
Proof.
  induction d as [|[k' v'] d IH]; cbn [dict_set map fst In app];
    [reflexivity|].
  intros H. destruct (key_eqb k' k) eqn:E.
  - apply key_eqb_eq in E. exfalso. apply H. now left.
  - rewrite IH; [reflexivity|]. intros H'. apply H. now right.
Qed.

Lemma fold_add_distinct (ps : list pair) :
  forall done : list pair,
  NoDup (map pair_key (done ++ ps)) ->
  fold_left add_pair ps (map new_entry done) = map new_entry (done ++ ps).
Proof.
  induction ps as [|p ps IH]; intros done N; cbn [fold_left].
  - now rewrite app_nil_r.
  - assert (K : map fst (map new_entry done) = map pair_key done)
      by (rewrite map_map; reflexivity).
    assert (Hn : ~ In (pair_key p) (map fst (map new_entry done))).
    { rewrite K. rewrite map_app in N. cbn [map] in N.
      apply NoDup_remove_2 in N. intros H. apply N.
      apply in_or_app. now left. }
    assert (Hk : keyed (map new_entry done)).
    { intros k v H. apply in_map_iff in H as [q [E _]].
      unfold new_entry in E. now injection E as <- <-. }
    unfold add_pair at 2.
    rewrite (no_match_without_key _ p Hk Hn), (dict_set_append _ _ _ Hn).
    change [(pair_key p, p)] with (map new_entry [p]). rewrite <- map_app.
    rewrite IH by (now rewrite <- app_assoc).
    now rewrite <- app_assoc.
Qed.

(** X21: when the valid pairs all fall under different sorted key pairs,
    the output is exactly the valid pairs, in the order of the text. *)
Theorem distinct_fights_unchanged (text : str) :
  NoDup (map pair_key (valid_pairs text)) ->
  fighter_pairs_of_text text = valid_pairs text.
Proof.
  intros N. unfold fighter_pairs_of_text, aggregate.
  rewrite fold_filter. fold (valid_pairs text).
  pose proof (fold_add_distinct (valid_pairs text) [] N) as F.
  cbn [map app] in F. rewrite F, map_map. unfold new_entry. cbn [snd]. apply map_id.
Qed.

(** Two fights on one page. *)
Lemma distinct_fights_unchanged_witness :
  let text := txt "Jon Jones vs Tom Aspinall. Justin Gaethje vs Max Holloway" in
  fighter_pairs_of_text text
  = [(txt "Jon Jones", txt "Tom Aspinall");
     (txt "Justin Gaethje", txt "Max Holloway")].
Proof.
  intros text.
  assert (N : NoDup (map pair_key (valid_pairs text))).
  { vm_compute. repeat constructor; simpl; intuition discriminate. }
  rewrite (distinct_fights_unchanged text N). vm_compute. reflexivity.
Defined.

(** *** Keywords and letter case *)

Lemma lit_ci_case (kw1 : str) :
  forall kw2 cur caps k,
  lower_str kw1 = lower_str kw2 ->
  rmatch (lit_ci kw1) cur caps k = rmatch (lit_ci kw2) cur caps k.
Proof.
  induction kw1 as [|a kw1 IH]; intros [|b kw2] cur caps k E;
    try discriminate E; [reflexivity|].
  injection E as Ea E. cbn [lit_ci fold_right rmatch].
  fold (lit_ci kw1). fold (lit_ci kw2). unfold same_letter. rewrite Ea.
  destruct (snd cur) as [|c s']; [reflexivity|].
  destruct (Ascii.eqb (lower c) (lower b)); [|reflexivity].
  now apply IH.
Qed.

Lemma rep_ext (p : ascii -> bool) (k1 k2 : cont) (s : str) :
  (forall cur caps, k1 cur caps = k2 cur caps) ->
  forall lo hi pv caps, rep p lo hi pv s caps k1 = rep p lo hi pv s caps k2.
Proof.
  intros H. induction s as [|c s IH]; intros lo hi pv caps; cbn [rep].
  - now rewrite H.
  - now rewrite IH, H.
Qed.

Lemma sub_from_ext (r1 r2 : regex) (repl : str) (s : str) :
  (forall pv s, match_at r1 pv s = match_at r2 pv s) ->
  forall pv skip, sub_from r1 repl pv s skip = sub_from r2 repl pv s skip.
Proof.
  intros H. induction s as [|c s IH]; intros pv skip; cbn [sub_from];
    [reflexivity|].
  destruct skip; [|apply IH]. rewrite H.
  destruct (match_at r2 pv (c :: s)) as [[[|n] caps]|]; now rewrite IH.
Qed.

(** X22: the letter case of a keyword of the cleaner is immaterial: two
    keywords that differ in case only give the same prefix step and the
    same suffix step, so that the steps for "LIVE NOW" and "LIVE" repeat
    those for "Live now" and "Live". *)
Theorem keyword_case_immaterial (kw1 kw2 name : str) :
  lower_str kw1 = lower_str kw2 ->
  re_sub (prefix_re kw1) [] name = re_sub (prefix_re kw2) [] name
  /\ re_sub (suffix_re kw1) [] name = re_sub (suffix_re kw2) [] name.
Proof.
  intros E. unfold re_sub. split; apply sub_from_ext; intros pv s;
    unfold match_at, prefix_re, suffix_re, ws_plus; cbn [rmatch fst snd].
  - destruct pv; [reflexivity|]. now rewrite (lit_ci_case kw1 kw2 _ _ _ E).
  - rewrite (rep_ext is_space
               (fun cur' caps' => rmatch (lit_ci kw1) cur' caps'
                  (fun cur caps => if at_eol (snd cur) then accept cur caps
                                   else None))
               (fun cur' caps' => rmatch (lit_ci kw2) cur' caps'
                  (fun cur caps => if at_eol (snd cur) then accept cur caps
                                   else None))); [reflexivity|].
    intros cur caps. now apply lit_ci_case.
Qed.

(** The fourth prefix keyword and the second. *)
Lemma keyword_case_immaterial_witness :
  re_sub (prefix_re (txt "LIVE")) [] (txt "live Jon Jones")
  = re_sub (prefix_re (txt "Live")) [] (txt "live Jon Jones")
  /\ re_sub (suffix_re (txt "LIVE")) [] (txt "live Jon Jones")
     = re_sub (suffix_re (txt "Live")) [] (txt "live Jon Jones").
Proof.
  exact (keyword_case_immaterial (txt "LIVE") (txt "Live")
           (txt "live Jon Jones") eq_refl).
Defined.

(** ** Whitespace after a match of the "vs" pattern *)

Lemma space_not_word (c : ascii) : is_space c = true -> is_word c = false.
Proof.
  each_char c; intros H; vm_compute in H; try discriminate H; reflexivity.
Qed.

Lemma space_not_upper (c : ascii) : is_space c = true -> is_upper c = false.
Proof.
  each_char c; intros H; vm_compute in H; try discriminate H; reflexivity.
Qed.

Lemma separator_not_upper (c : ascii) :
  is_separator c = true -> is_upper c = false.
Proof.
  each_char c; intros H; vm_compute in H; try discriminate H; reflexivity.
Qed.

Lemma blank_no_capital (ws : str) :
  forallb is_space ws = true -> no_capital ws = true.
Proof.
  unfold no_capital. induction ws as [|w ws IH]; [reflexivity|].
  cbn [forallb]. intros H. apply andb_true_iff in H as [Hw H].
  now rewrite (space_not_upper w Hw), IH.
Qed.

Lemma rep_dead (p : ascii -> bool) (k : cont) :
  dead k ->
  forall t lo hi c caps,
  is_word c = false -> forallb is_space t = true ->
  rep p lo hi (Some c) t caps k = None.
Proof.
  intros Hk. induction t as [|w t IH]; intros lo hi c caps Hc Ht.
  - cbn [rep]. destruct lo; [now apply Hk|reflexivity].
  - pose proof Ht as Ht'. cbn [forallb] in Ht.
    apply andb_true_iff in Ht as [Hw Ht]. cbn [rep].
    rewrite (IH _ _ w caps (space_not_word w Hw) Ht).
    destruct (p w && more hi); destruct lo; try reflexivity; now apply Hk.
Qed.

Lemma rmatch_dead (r : regex) :
  forall k, dead k -> dead (fun cur caps => rmatch r cur caps k).
Proof.
  induction r as [|p|r1 IH1 r2 IH2|r1 IH1 r2 IH2|p lo hi| | | |r IH];
    intros k Hk c t caps Hc Ht; cbn [rmatch fst snd].
  - now apply Hk.
  - destruct t as [|w t]; [reflexivity|]. cbn [forallb] in Ht.
    apply andb_true_iff in Ht as [Hw Ht].
    destruct (p w); [|reflexivity].
    apply Hk; [now apply space_not_word|exact Ht].
  - apply (IH1 (fun cur' caps' => rmatch r2 cur' caps' k)); auto.
  - rewrite (IH1 k Hk c t caps Hc Ht). now apply (IH2 k Hk).
  - now apply rep_dead.
  - reflexivity.
  - destruct (at_eol t); [now apply Hk|reflexivity].
  - destruct (xorb _ _); [now apply Hk|reflexivity].
  - apply (IH (fun cur' caps' =>
                 k cur' (caps' ++ [firstn (length t - length (snd cur')) t])));
      auto.
    intros c' t' caps' Hc' Ht'. now apply Hk.
Qed.

Section TrailingSpace.

Variable tail : str.
Hypothesis tail_blank : forallb is_space tail = true.

Lemma word_after_trailing (s : str) : word_after (s ++ tail) = word_after s.
Proof.
  destruct s as [|x s]; [|reflexivity]. cbn [app word_after].
  destruct tail as [|w t]; [reflexivity|]. cbn [forallb] in tail_blank.
  apply andb_true_iff in tail_blank as [Hw _]. now apply space_not_word.
Qed.

Lemma rep_trailing (p : ascii -> bool) (k k' : cont) :
  extends tail k k' -> dead k' ->
  forall s lo hi pv caps,
  rep p lo hi pv (s ++ tail) caps k' = extend tail (rep p lo hi pv s caps k).
Proof.
  intros Hk Hd. induction s as [|x s IH]; intros lo hi pv caps.
  - cbn [app]. change (rep p lo hi pv [] caps k)
      with (match lo with 0 => k (pv, []) caps | S _ => None end).
    destruct tail as [|w t] eqn:E.
    + cbn [rep]. destruct lo; [apply (Hk pv [] caps)|reflexivity].
    + cbn [forallb] in tail_blank.
      apply andb_true_iff in tail_blank as [Hw Ht]. cbn [rep].
      rewrite (rep_dead p k' Hd t _ _ w caps (space_not_word w Hw) Ht).
      destruct (p w && more hi); destruct lo; try reflexivity;
        apply (Hk pv [] caps).
  - cbn [app rep]. destruct (p x && more hi).
    + rewrite IH.
      destruct (rep p (pred lo) (option_map pred hi) (Some x) s caps k)
        as [[[pv' s'] caps']|]; [reflexivity|].
      destruct lo; [apply (Hk pv (x :: s) caps)|reflexivity].
    + destruct lo; [apply (Hk pv (x :: s) caps)|reflexivity].
Qed.

Lemma rmatch_trailing (r : regex) :
  no_eol r = true ->
  forall k k', extends tail k k' -> dead k' ->
  forall pv s caps,
  rmatch r (pv, s ++ tail) caps k' = extend tail (rmatch r (pv, s) caps k).
Proof.
  induction r as [|p|r1 IH1 r2 IH2|r1 IH1 r2 IH2|p lo hi| | | |r IH];
    cbn [no_eol]; intros R k k' Hk Hd pv s caps; cbn [rmatch fst snd].
  - apply Hk.
  - destruct s as [|x s]; cbn [app].
    + destruct tail as [|w t]; [reflexivity|]. cbn [forallb] in tail_blank.
      apply andb_true_iff in tail_blank as [Hw Ht].
      destruct (p w); [|reflexivity].
      apply Hd; [now apply space_not_word|exact Ht].
    + destruct (p x); [apply (Hk (Some x) s caps)|reflexivity].
  - apply andb_true_iff in R as [R1 R2]. apply (IH1 R1).
    + intros pv' s' caps'. now apply (IH2 R2).
    + now apply rmatch_dead.
  - apply andb_true_iff in R as [R1 R2].
    rewrite (IH1 R1 k k' Hk Hd), (IH2 R2 k k' Hk Hd).
    destruct (rmatch r1 (pv, s) caps k) as [[[pv' s'] caps']|]; reflexivity.
  - now apply rep_trailing.
  - destruct pv; [reflexivity|apply Hk].
  - discriminate.
  - rewrite word_after_trailing.
    destruct (xorb _ _); [apply Hk|reflexivity].
  - apply (IH R).
    + intros pv' s' caps'. cbn [snd].
      rewrite !length_app, firstn_app.
      replace (length s + length tail - (length s' + length tail))
        with (length s - length s') by lia.
      replace (length s - length s' - length s) with 0 by lia.
      cbn [firstn]. rewrite app_nil_r. apply Hk.
    + intros c' t' caps' Hc' Ht'. now apply Hd.
Qed.

Lemma word_end_dead : dead word_end.
Proof.
  intros c t caps Hc Ht. unfold word_end. cbn [rmatch fst snd word_before].
  rewrite Hc.
  replace (word_after t) with false; [reflexivity|].
  destruct t as [|w t]; [reflexivity|]. cbn [forallb] in Ht.
  apply andb_true_iff in Ht as [Hw _]. symmetry. now apply space_not_word.
Qed.

Lemma word_end_extends : extends tail word_end word_end.
Proof.
  intros pv s caps. unfold word_end. cbn [rmatch fst snd].
  rewrite word_after_trailing. destruct (xorb _ _); reflexivity.
Qed.

(** Whitespace after the subject changes no match of the "vs" pattern: the
    pattern ends at a word boundary. *)
Lemma match_at_trailing (pv : option ascii) (s : str) :
  match_at vs_pattern pv (s ++ tail) = match_at vs_pattern pv s.
Proof.
  unfold match_at.
  change (rmatch vs_pattern (pv, s ++ tail) [] accept)
    with (rmatch vs_open (pv, s ++ tail) [] word_end).
  change (rmatch vs_pattern (pv, s) [] accept)
    with (rmatch vs_open (pv, s) [] word_end).
  rewrite (rmatch_trailing vs_open eq_refl word_end word_end
             word_end_extends word_end_dead).
  destruct (rmatch vs_open (pv, s) [] word_end) as [[[pv' s'] caps']|];
    [|reflexivity].
  cbn [extend]. rewrite !length_app. f_equal. f_equal. lia.
Qed.

Lemma findall_trailing (s : str) :
  forall pv skip, skip <= length s ->
  findall_from vs_pattern pv (s ++ tail) skip
  = findall_from vs_pattern pv s skip.
Proof.
  induction s as [|x s IH]; intros pv skip L.
  - destruct skip; [|simpl in L; lia]. cbn [app findall_from].
    apply findall_no_capital. now apply blank_no_capital.
  - cbn [app findall_from length]. simpl in L.
    destruct skip as [|n]; [|apply IH; lia].
    change (x :: s ++ tail) with ((x :: s) ++ tail).
    rewrite (match_at_trailing pv (x :: s)).
    destruct (match_at vs_pattern pv (x :: s)) as [[[|n] caps]|] eqn:E;
      try (apply IH; lia).
    f_equal. apply IH.
    apply match_at_length in E. cbn [length] in E. lia.
Qed.

End TrailingSpace.

(** ** A match never looks past a character that the pattern does not take *)

Section CutAfter.

Variable c : ascii.
Variable rest : str.

Lemma rep_cut (p : ascii -> bool) (k k' : cont) :
  p c = false -> carries c rest k k' ->
  forall s lo hi pv caps,
  rep p lo hi pv (s ++ c :: rest) caps k'
  = extend rest (rep p lo hi pv (s ++ [c]) caps k).
Proof.
  intros Pc Hk. induction s as [|x s IH]; intros lo hi pv caps.
  - cbn [app rep]. rewrite Pc. cbn [andb].
    destruct lo; [apply (Hk pv [] caps)|reflexivity].
  - cbn [app rep]. destruct (p x && more hi).
    + rewrite IH.
      destruct (rep p (pred lo) (option_map pred hi) (Some x) (s ++ [c])
                  caps k) as [[[pv' s'] caps']|]; [reflexivity|].
      destruct lo; [apply (Hk pv (x :: s) caps)|reflexivity].
    + destruct lo; [apply (Hk pv (x :: s) caps)|reflexivity].
Qed.

Lemma rmatch_cut (r : regex) :
  takes_not c r = true ->
  forall k k', carries c rest k k' ->
  forall pv s caps,
  rmatch r (pv, s ++ c :: rest) caps k'
  = extend rest (rmatch r (pv, s ++ [c]) caps k).
Proof.
  induction r as [|p|r1 IH1 r2 IH2|r1 IH1 r2 IH2|p lo hi| | | |r IH];
    cbn [takes_not]; intros R k k' Hk pv s caps; cbn [rmatch fst snd].
  - apply Hk.
  - apply negb_true_iff in R. destruct s as [|x s]; cbn [app].
    + now rewrite R.
    + destruct (p x); [apply (Hk (Some x) s caps)|reflexivity].
  - apply andb_true_iff in R as [R1 R2].
    apply (IH1 R1). intros pv' s' caps'. now apply (IH2 R2).
  - apply andb_true_iff in R as [R1 R2].
    rewrite (IH1 R1 k k' Hk), (IH2 R2 k k' Hk).
    destruct (rmatch r1 (pv, s ++ [c]) caps k) as [[[pv' s'] caps']|];
      reflexivity.
  - apply negb_true_iff in R. now apply rep_cut.
  - destruct pv; [reflexivity|apply Hk].
  - discriminate.
  - replace (word_after (s ++ c :: rest)) with (word_after (s ++ [c]))
      by (destruct s; reflexivity).
    destruct (xorb _ _); [apply Hk|reflexivity].
  - apply (IH R). intros pv' s' caps'. cbn [snd].
    rewrite !length_app, !firstn_app. cbn [length].
    replace (length s + S (length rest) - (length s' + S (length rest)))
      with (length s - length s') by lia.
    replace (length s + 1 - (length s' + 1)) with (length s - length s')
      by lia.
    replace (length s - length s' - length s) with 0 by lia.
    cbn [firstn]. apply Hk.
Qed.

Lemma accept_carries : carries c rest accept accept.
Proof.
  intros pv s caps. unfold accept. cbn [extend].
  now rewrite <- app_assoc.
Qed.

Lemma match_at_cut (r : regex) (pv : option ascii) (s : str) :
  takes_not c r = true ->
  match_at r pv (s ++ c :: rest) = match_at r pv (s ++ [c]).
Proof.
  intros R. unfold match_at.
  rewrite (rmatch_cut r R accept accept accept_carries).
  destruct (rmatch r (pv, s ++ [c]) [] accept) as [[[pv' s'] caps']|];
    [|reflexivity].
  cbn [extend]. rewrite !length_app. cbn [length]. f_equal. f_equal. lia.
Qed.

End CutAfter.

Lemma name_takes_not (e : ascii) :
  name_char e = false -> takes_not e vs_pattern = true.
Proof.
  each_char e; intros H; vm_compute in H; try discriminate H; reflexivity.
Qed.

Lemma name_not_upper (c : ascii) : name_char c = false -> is_upper c = false.
Proof.
  each_char c; intros H; vm_compute in H; try discriminate H; reflexivity.
Qed.

(** What stands after a character that cannot be part of a name is scanned
    on its own. *)
Lemma findall_cut (e : ascii) (rest : str) :
  name_char e = false ->
  forall s pv skip, skip <= S (length s) ->
  findall_from vs_pattern pv (s ++ e :: rest) skip
  = findall_from vs_pattern pv (s ++ [e]) skip
    ++ findall_from vs_pattern (Some e) rest 0.
Proof.
  intros He. pose proof (name_not_upper e He) as Ue.
  induction s as [|x s IH]; intros pv skip L.
  - cbn [app]. destruct skip as [|[|n]]; [| |simpl in L; lia].
    + now rewrite !(findall_skip_char pv e _ Ue).
    + reflexivity.
  - cbn [app findall_from length]. simpl in L.
    destruct skip as [|n]; [|apply IH; lia].
    change (x :: s ++ e :: rest) with ((x :: s) ++ e :: rest).
    change (x :: s ++ [e]) with ((x :: s) ++ [e]).
    rewrite (match_at_cut e rest vs_pattern pv (x :: s) (name_takes_not e He)).
    destruct (match_at vs_pattern pv ((x :: s) ++ [e])) as [[[|n] caps]|] eqn:E;
      try (apply IH; lia).
    rewrite <- app_comm_cons. f_equal. apply IH.
    apply match_at_length in E. rewrite length_app in E.
    cbn [length] in E. lia.
Qed.

(** ** The scan of a page, piece by piece *)

Lemma findall_split_sep (S T : str) (c : ascii) pv :
  is_separator c = true ->
  findall_from vs_pattern pv (S ++ c :: T) 0
  = findall_from vs_pattern pv S 0 ++ findall_from vs_pattern (Some c) T 0.
Proof.
  intros Hc.
  rewrite (findall_frame c T vs_pattern (separator_rejects c Hc)) by lia.
  now rewrite (findall_skip_char _ c T (separator_not_upper c Hc)).
Qed.

Lemma lstrip_split (s : str) :
  exists ws, s = ws ++ lstrip s /\ forallb is_space ws = true.
Proof.
  induction s as [|c s [ws [E H]]]; [now exists []|].
  cbn [lstrip]. destruct (is_space c) eqn:Hc.
  - exists (c :: ws). cbn [app forallb]. rewrite Hc, H. now rewrite <- E.
  - now exists [].
Qed.

Lemma findall_skip_lower (gap : str) :
  no_capital gap = true ->
  forall pv s, exists pv',
    findall_from vs_pattern pv (gap ++ s) 0 = findall_from vs_pattern pv' s 0.
Proof.
  unfold no_capital. induction gap as [|c gap IH]; intros H pv s.
  - now exists pv.
  - cbn [forallb] in H. apply andb_true_iff in H as [Hc H].
    apply negb_true_iff in Hc.
    destruct (IH H (Some c) s) as [pv' E]. exists pv'. cbn [app].
    now rewrite (findall_skip_char pv c _ Hc).
Qed.

Lemma leads_in_split (s : str) :
  forall ok, leads_in_from ok s = true ->
  (ok = true /\ no_capital s = true)
  \/ exists Q c gap, s = Q ++ c :: gap /\ name_char c = false
                     /\ no_capital gap = true.
Proof.
  unfold no_capital.
  induction s as [|c s IH]; intros ok H; cbn [leads_in_from] in H.
  - left. now split.
  - destruct (name_char c) eqn:Hc.
    + destruct (IH _ H) as [[O N]|[Q [d [gap [E [Hd N]]]]]].
      * left. apply andb_true_iff in O as [-> O]. cbn [forallb].
        now rewrite O, N.
      * right. exists (c :: Q), d, gap. rewrite E. now repeat split.
    + right. destruct (IH true H) as [[_ N]|[Q [d [gap [E [Hd N]]]]]].
      * now exists [], c, s.
      * exists (c :: Q), d, gap. rewrite E. now repeat split.
Qed.

(** A text without a capital letter after its last character that cannot
    be part of a name is scanned on its own, whatever follows. *)
Lemma findall_opening (P X : str) pv :
  leads_in P = true ->
  exists pv',
    findall_from vs_pattern pv (P ++ X) 0
    = findall_from vs_pattern pv P 0 ++ findall_from vs_pattern pv' X 0.
Proof.
  intros H. destruct (leads_in_split P true H)
    as [[_ N]|[Q [c [gap [-> [Hc N]]]]]].
  - destruct (findall_skip_lower P N pv X) as [pv' E]. exists pv'.
    now rewrite E, (findall_no_capital P N).
  - destruct (findall_skip_lower gap N (Some c) X) as [pv' E]. exists pv'.
    rewrite <- app_assoc. cbn [app].
    rewrite (findall_cut c (gap ++ X) Hc Q pv 0) by lia.
    rewrite (findall_cut c gap Hc Q pv 0) by lia.
    now rewrite E, (findall_no_capital gap N), app_nil_r.
Qed.

(** The full mention starts with a separator, so that what stands before
    it is scanned on its own. *)
Lemma findall_before_full (P R : str) pv :
  findall_from vs_pattern pv (P ++ mention_full ++ R) 0
  = findall_from vs_pattern pv P 0
    ++ findall_from vs_pattern None (mention_full ++ R) 0.
Proof.
  unfold mention_full.
  change (txt "#4 Justin Gaethje vs Max Holloway")
    with ("#"%char :: txt "4 Justin Gaethje vs Max Holloway").
  cbn [app]. rewrite (findall_split_sep P _ "#" pv eq_refl).
  now rewrite (findall_skip_char None "#" _ eq_refl).
Qed.

Lemma valid_of_app (a b : list (list str)) :
  valid_of (a ++ b) = valid_of a ++ valid_of b.
Proof. unfold valid_of. now rewrite !map_app, filter_app. Qed.

Lemma valid_pairs_of (text : str) :
  valid_pairs text = valid_of (re_findall vs_pattern text).
Proof. reflexivity. Qed.

Lemma valid_of_full pv :
  valid_of (findall_from vs_pattern pv mention_full 0) = [full_pair].
Proof. rewrite findall_mention_full. vm_compute. reflexivity. Qed.

(** After a word character the match starts at "Gaethje", otherwise at
    "Live"; the cleaned pair is the same. *)
Lemma valid_of_short pv :
  valid_of (findall_from vs_pattern pv mention_short 0) = [short_pair].
Proof.
  destruct (word_before pv) eqn:W.
  - rewrite (findall_vs_prev pv (Some "a"%char)) by exact W.
    vm_compute. reflexivity.
  - rewrite (findall_mention_short pv W). vm_compute. reflexivity.
Qed.

(** ** A mention and what follows it *)

(** Greedy repetition stops no earlier than any count at which the rest of
    the pattern matches. *)
Lemma rep_at_least (p : ascii -> bool) (s : str) :
  forall lo hi pv caps k n0,
  lo <= n0 -> n0 <= span_len p s -> (forall h, hi = Some h -> n0 <= h) ->
  k (prev_at pv s n0, skipn n0 s) caps <> None ->
  exists n res,
    n0 <= n /\ n <= span_len p s
    /\ rep p lo hi pv s caps k = Some res
    /\ k (prev_at pv s n, skipn n s) caps = Some res.
Proof.
  induction s as [|c s IH]; intros lo hi pv caps k n0 Hlo Hsp Hhi Hk.
  - cbn [span_len] in Hsp. assert (n0 = 0) by lia. subst n0.
    assert (lo = 0) by lia. subst lo. cbn [rep].
    destruct (k (pv, []) caps) as [res|] eqn:E.
    + exists 0, res. repeat split; auto.
    + exfalso. apply Hk. exact E.
  - destruct n0 as [|m].
    + assert (lo = 0) by lia. subst lo. cbn [rep].
      destruct (p c && more hi) eqn:B.
      * destruct (rep p (pred 0) (option_map pred hi) (Some c) s caps k)
          as [res|] eqn:R.
        -- apply rep_sound in R as [n [_ [Hn [_ R]]]].
           exists (S n), res. apply andb_true_iff in B as [Pc _].
           cbn [span_len]. rewrite Pc. rewrite <- (prev_at_cons pv).
           repeat split; auto; try lia.
        -- destruct (k (pv, c :: s) caps) as [res|] eqn:E.
           ++ exists 0, res. repeat split; auto; try lia.
           ++ exfalso. apply Hk. exact E.
      * destruct (k (pv, c :: s) caps) as [res|] eqn:E.
        -- exists 0, res. repeat split; auto; try lia.
        -- exfalso. apply Hk. exact E.
    + cbn [span_len] in Hsp. destruct (p c) eqn:Pc; [|lia].
      assert (M : more hi = true).
      { destruct hi as [[|h]|]; try reflexivity.
        specialize (Hhi 0 eq_refl). lia. }
      cbn [rep]. rewrite Pc, M. cbn [andb].
      rewrite <- (prev_at_cons pv) in Hk. cbn [skipn] in Hk.
      destruct (IH (pred lo) (option_map pred hi) (Some c) caps k m)
        as [n [res [H1 [H2 [H3 H4]]]]]; try lia; auto.
      { intros h Hh. destruct hi as [h'|]; [|discriminate].
        injection Hh as <-. specialize (Hhi h' eq_refl). lia. }
      exists (S n), res. rewrite H3, <- (prev_at_cons pv). cbn [span_len].
      rewrite Pc. repeat split; auto; try lia.
Qed.

(** ... and at the greatest such count. *)
Lemma rep_pick (p : ascii -> bool) (s : str) :
  forall lo hi pv caps k n0 res,
  lo <= n0 -> n0 <= span_len p s -> (forall h, hi = Some h -> n0 <= h) ->
  k (prev_at pv s n0, skipn n0 s) caps = Some res ->
  (forall n, n0 < n -> n <= span_len p s ->
             k (prev_at pv s n, skipn n s) caps = None) ->
  rep p lo hi pv s caps k = Some res.
Proof.
  intros lo hi pv caps k n0 res Hlo Hsp Hhi Hk Hf.
  destruct (rep_at_least p s lo hi pv caps k n0 Hlo Hsp Hhi)
    as [n [res' [H1 [H2 [H3 H4]]]]]; [congruence|].
  destruct (Nat.eq_dec n n0) as [->|N]; [congruence|].
  rewrite Hf in H4 by lia. discriminate.
Qed.

Lemma v_is_name (c : ascii) : is_char "v" c = true -> name_char c = true.
Proof.
  each_char c; intros H; vm_compute in H; try discriminate H; reflexivity.
Qed.

Lemma name_not_space (c : ascii) : name_char c = false -> is_space c = false.
Proof.
  each_char c; intros H; vm_compute in H; try discriminate H; reflexivity.
Qed.

Lemma upper_not_space (c : ascii) : is_upper c = true -> is_space c = false.
Proof.
  each_char c; intros H; vm_compute in H; try discriminate H; reflexivity.
Qed.

Lemma lstrip_at (t : str) :
  forall n x t', n <= span_len is_space t -> skipn n t = x :: t' ->
  is_space x = false -> lstrip t = x :: t'.
Proof.
  induction t as [|c t IH]; intros n x t' Hn E Hx.
  - destruct n; discriminate E.
  - cbn [span_len lstrip] in *. destruct (is_space c) eqn:Hc.
    + destruct n as [|n].
      * injection E as <- <-. congruence.
      * cbn [skipn] in E. apply (IH n); auto. lia.
    + assert (n = 0) by lia. subst n. exact E.
Qed.

(** The middle of the pattern, [\s+vs...], asks for whitespace and a "v". *)
Lemma mid_needs_vs (R : regex) pv (t : str) (caps : list str) (k : cont) res :
  rmatch (Seq ws_plus (Seq (Chr (is_char "v")) R)) (pv, t) caps k = Some res ->
  late_vs t = true.
Proof.
  unfold ws_plus. cbn [rmatch fst snd]. intros H.
  apply rep_sound in H as [n [Hlo [Hsp [_ H]]]]. cbn [snd] in H.
  destruct (skipn n t) as [|x t'] eqn:E; [discriminate|].
  destruct (is_char "v" x) eqn:V; [|discriminate].
  assert (Hx : is_space x = false)
    by (each_char x; vm_compute in V; try discriminate V; reflexivity).
  unfold late_vs. rewrite (lstrip_at t n x t' Hsp E Hx).
  cbn [starts_in]. rewrite V.
  destruct t as [|c t]; [cbn [span_len] in Hsp; lia|].
  cbn [span_len starts_space] in *. destruct (is_space c); [reflexivity|lia].
Qed.

Lemma lstrip_app (a tail : str) :
  forallb is_space a = false ->
  lstrip (a ++ tail) = lstrip a ++ tail /\ lstrip a <> [].
Proof.
  induction a as [|c a IH]; [discriminate|]. cbn [forallb app lstrip].
  destruct (is_space c); [exact IH|]. intros _. split; [reflexivity|discriminate].
Qed.

Lemma late_vs_app (a tail : str) :
  forallb is_space a = false -> late_vs (a ++ tail) = late_vs a.
Proof.
  intros H. unfold late_vs. destruct (lstrip_app a tail H) as [-> N].
  replace (starts_space (a ++ tail)) with (starts_space a)
    by (destruct a; [discriminate|reflexivity]).
  destruct (lstrip a); [congruence|reflexivity].
Qed.

Lemma not_blank_from (s : str) :
  ends_space s = false ->
  forall n, n < length s -> forallb is_space (skipn n s) = false.
Proof.
  induction s as [|c s IH]; intros He n Hn; [simpl in Hn; lia|].
  rewrite ends_space_cons in He. destruct n as [|n].
  - cbn [skipn]. destruct s as [|d s]; [cbn [forallb]; now rewrite He|].
    pose proof (IH He 0 ltac:(simpl; lia)) as H0. cbn [skipn] in H0.
    change (forallb is_space (c :: d :: s))
      with (is_space c && forallb is_space (d :: s)).
    rewrite H0. apply andb_false_r.
  - cbn [skipn]. destruct s as [|d s]; [simpl in Hn; lia|].
    apply IH; [exact He|simpl in *; lia].
Qed.

Lemma late_vs_closing (ws rest : str) (d : ascii) :
  forallb is_space ws = true -> name_char d = false ->
  forall j, j <= length ws -> late_vs (skipn j (ws ++ d :: rest)) = false.
Proof.
  intros Hw Hd. induction ws as [|w ws IH]; intros j Hj.
  - assert (j = 0) by (simpl in Hj; lia). subst j. unfold late_vs.
    cbn [app skipn starts_space]. now rewrite (name_not_space d Hd).
  - cbn [forallb] in Hw. apply andb_true_iff in Hw as [Hc Hw].
    destruct j as [|j]; [|apply (IH Hw); simpl in Hj; lia].
    unfold late_vs. cbn [skipn app lstrip starts_space]. rewrite Hc.
    specialize (IH Hw 0 ltac:(lia)). unfold late_vs in IH. cbn [skipn] in IH.
    destruct (starts_space (ws ++ d :: rest)) eqn:S; [exact IH|].
    destruct ws as [|w' ws']; cbn [app lstrip starts_space] in *.
    + rewrite S. cbn [starts_in].
      destruct (is_char "v" d) eqn:V; [|reflexivity].
      apply v_is_name in V. congruence.
    + cbn [forallb] in Hw. apply andb_true_iff in Hw as [Hw' _]. congruence.
Qed.

Lemma capture_at (c : ascii) (T : str) (n : nat) :
  n <= length T ->
  firstn (length (c :: T) - length (skipn n T)) (c :: T) = c :: firstn n T.
Proof.
  intros H. rewrite length_skipn. cbn [length].
  replace (S (length T) - (length T - n)) with (S n) by lia. reflexivity.
Qed.

(** A name group takes the greatest count of name characters after which
    the rest of the pattern matches. *)
Lemma name_group_pick (R : regex) pv (c : ascii) (T : str) (caps : list str)
    (k : cont) (n0 : nat) res :
  is_upper c = true -> 2 <= n0 -> n0 <= 50 -> n0 <= span_len name_char T ->
  rmatch R (prev_at (Some c) T n0, skipn n0 T) (caps ++ [c :: firstn n0 T]) k
  = Some res ->
  (forall n, n0 < n -> n <= span_len name_char T ->
     rmatch R (prev_at (Some c) T n, skipn n T) (caps ++ [c :: firstn n T]) k
     = None) ->
  rmatch (Seq name_group R) (pv, c :: T) caps k = Some res.
Proof.
  intros U L2 L50 Hsp Hk Hf. unfold name_group. cbn [rmatch fst snd].
  rewrite U. pose proof (span_len_le name_char T) as Le.
  apply (rep_pick name_char T 2 (Some 50) (Some c) caps _ n0 res); auto.
  - intros h E. injection E as <-. exact L50.
  - cbn [snd]. rewrite capture_at by lia. exact Hk.
  - intros n H1 H2. cbn [snd]. rewrite capture_at by lia. now apply Hf.
Qed.

Lemma name_group_at_least (R : regex) pv (c : ascii) (T : str)
    (caps : list str) (k : cont) (n0 : nat) :
  is_upper c = true -> 2 <= n0 -> n0 <= 50 -> n0 <= span_len name_char T ->
  rmatch R (prev_at (Some c) T n0, skipn n0 T) (caps ++ [c :: firstn n0 T]) k
  <> None ->
  exists n res,
    n0 <= n /\ n <= span_len name_char T
    /\ rmatch (Seq name_group R) (pv, c :: T) caps k = Some res
    /\ rmatch R (prev_at (Some c) T n, skipn n T) (caps ++ [c :: firstn n T]) k
       = Some res.
Proof.
  intros U L2 L50 Hsp Hk. unfold name_group. cbn [rmatch fst snd].
  rewrite U. pose proof (span_len_le name_char T) as Le.
  destruct (rep_at_least name_char T 2 (Some 50) (Some c) caps
              (fun cur' caps' =>
                 rmatch R cur'
                   (caps' ++ [firstn (length (c :: T) - length (snd cur'))
                                (c :: T)]) k) n0)
    as [n [res [H1 [H2 [H3 H4]]]]]; auto.
  - intros h E. injection E as <-. exact L50.
  - cbn [snd]. rewrite capture_at by lia. exact Hk.
  - exists n, res. cbn [snd] in H4. rewrite capture_at in H4 by lia.
    repeat split; auto.
Qed.

(** [\s+vs\s+] on " vs " before a character that is no whitespace. *)
Lemma mid_step (R : regex) pv (c : ascii) (t : str) (caps : list str)
    (k : cont) :
  is_space c = false ->
  rmatch (Seq ws_plus
            (Seq (Chr (is_char "v")) (Seq (Chr (is_char "s")) (Seq ws_plus R))))
    (pv, txt " vs " ++ c :: t) caps k
  = rmatch R (Some " "%char, c :: t) caps k.
Proof.
  intros Hc.
  change (txt " vs " ++ c :: t)
    with (" "%char :: "v"%char :: "s"%char :: " "%char :: c :: t).
  unfold ws_plus. cbn [rmatch fst snd rep more pred option_map].
  change (is_space " ") with true. change (is_space "v") with false.
  change (is_char "v" "v") with true. change (is_char "s" "s") with true.
  rewrite Hc. cbn [andb].
  destruct (rmatch R (Some " "%char, c :: t) caps k); reflexivity.
Qed.

Lemma space_is_name (c : ascii) : is_space c = true -> name_char c = true.
Proof. unfold name_char. intros ->. now rewrite orb_true_r. Qed.

Lemma upper_is_word (c : ascii) : is_upper c = true -> is_word c = true.
Proof.
  each_char c; intros H; vm_compute in H; try discriminate H; reflexivity.
Qed.

Lemma blank_is_name (ws : str) :
  forallb is_space ws = true -> forallb name_char ws = true.
Proof.
  induction ws as [|w ws IH]; [reflexivity|]. cbn [forallb]. intros H.
  apply andb_true_iff in H as [Hw H]. now rewrite (space_is_name w Hw), IH.
Qed.

Lemma firstn_length_app (a b : str) : firstn (length a) (a ++ b) = a.
Proof. induction a as [|x a IH]; simpl; [reflexivity|now rewrite IH]. Qed.

Lemma prev_at_app (pv : option ascii) (a b : str) (n : nat) :
  n <= length a -> prev_at pv (a ++ b) n = prev_at pv a n.
Proof.
  destruct n as [|m]; [reflexivity|]. unfold prev_at. intros H.
  apply nth_error_app1. lia.
Qed.

Section Mention.

Variables (c1 c2 : ascii) (r1 r2 : str).

Hypothesis S1 : raw_shape 2 50 (c1 :: r1) = true.
Hypothesis S2 : raw_shape 2 50 (c2 :: r2) = true.
Hypothesis W2 : word_before (prev_at (Some c2) r2 (length r2)) = true.
Hypothesis E2 : ends_space (c2 :: r2) = false.
Hypothesis V :
  forallb (fun n => negb (late_vs (skipn n (r1 ++ txt " vs " ++ c2 :: r2))))
    (seq (S (length r1)) (4 + length r2)) = true.

Variables (ws rest : str) (d : ascii).

Hypothesis Hws : forallb is_space ws = true.
Hypothesis Hd : name_char d = false.
Hypothesis Hglue : ws = [] -> is_word d = false.

Lemma shape_facts (c : ascii) (r : str) :
  raw_shape 2 50 (c :: r) = true ->
  is_upper c = true /\ forallb name_char r = true
  /\ 2 <= length r /\ length r <= 50.
Proof.
  cbn [raw_shape]. intros H. apply andb_true_iff in H as [H H4].
  apply andb_true_iff in H as [H H3]. apply andb_true_iff in H as [H1 H2].
  apply Nat.leb_le in H3, H4. auto.
Qed.

Lemma closing_no_word : word_after (ws ++ d :: rest) = false.
Proof.
  destruct ws as [|w ws'] eqn:E; cbn [app word_after].
  - now apply Hglue.
  - cbn [forallb] in Hws. apply andb_true_iff in Hws as [Hw _].
    now apply space_not_word.
Qed.

(** A match that starts at a word boundary with the first name takes the
    first name, and the second name with some of the whitespace after it. *)
Lemma mention_match pv :
  word_before pv = false ->
  exists j, j <= length ws /\
    match_at vs_pattern pv
      (c1 :: r1 ++ txt " vs " ++ c2 :: r2 ++ ws ++ d :: rest)
    = Some (S (length r1) + 4 + S (length r2) + j,
            [c1 :: r1; c2 :: r2 ++ firstn j ws]).
Proof.
  intros Hpv.
  destruct (shape_facts c1 r1 S1) as [U1 [N1 [A1 B1]]].
  destruct (shape_facts c2 r2 S2) as [U2 [N2 [A2 B2]]].
  set (T2 := r2 ++ ws ++ d :: rest).
  set (T1 := r1 ++ txt " vs " ++ c2 :: T2).
  set (body := r1 ++ txt " vs " ++ c2 :: r2).
  assert (ET : T1 = body ++ ws ++ d :: rest).
  { unfold T1, T2, body. rewrite <- !app_assoc. reflexivity. }
  assert (Sp2 : span_len name_char T2 = length r2 + length ws).
  { unfold T2. rewrite app_assoc, <- length_app. apply span_len_app.
    - now rewrite forallb_app, N2, (blank_is_name ws Hws).
    - cbn [starts_in]. exact Hd. }
  assert (Nb : forallb name_char body = true).
  { unfold body. rewrite forallb_app, N1. cbn [andb].
    change (txt " vs " ++ c2 :: r2)
      with (" "%char :: "v"%char :: "s"%char :: " "%char :: c2 :: r2).
    cbn [forallb]. rewrite N2, (upper_name_char c2 U2). reflexivity. }
  assert (Sp1 : span_len name_char T1 = length body + length ws).
  { rewrite ET, app_assoc, <- length_app. apply span_len_app.
    - now rewrite forallb_app, Nb, (blank_is_name ws Hws).
    - cbn [starts_in]. exact Hd. }
  assert (Lb : length body = length r1 + 4 + S (length r2)).
  { unfold body. rewrite !length_app. cbn [length txt]. simpl. lia. }
  (* the second name *)
  destruct (name_group_at_least WordB (Some " "%char) c2 T2 [c1 :: r1]
              accept (length r2)) as [n [res [Hn1 [Hn2 [Hm Hw]]]]]; auto.
  { rewrite Sp2. lia. }
  { unfold T2. rewrite skipn_length_app, prev_at_app by lia.
    cbn [rmatch fst snd]. rewrite W2, closing_no_word. discriminate. }
  assert (Er : res = ((prev_at (Some c2) T2 n, skipn n T2),
                      [c1 :: r1; c2 :: firstn n T2])).
  { cbn [rmatch fst snd] in Hw. destruct (xorb _ _); [|discriminate].
    unfold accept in Hw. injection Hw as <-. reflexivity. }
  (* the first name *)
  assert (M : rmatch vs_pattern (pv, c1 :: T1) [] accept = Some res).
  { unfold vs_pattern.
    set (MID := Seq ws_plus _).
    assert (A : rmatch (Seq WordB (Seq name_group MID)) (pv, c1 :: T1) []
                  accept
                = rmatch (Seq name_group MID) (pv, c1 :: T1) [] accept).
    { set (X := Seq name_group MID). cbn [rmatch fst snd word_after].
      now rewrite Hpv, (upper_is_word c1 U1). }
    rewrite A.
    apply (name_group_pick MID pv c1 T1 [] accept (length r1) res); auto.
    - rewrite Sp1, Lb. lia.
    - unfold T1 at 2 3. rewrite skipn_length_app, firstn_length_app.
      unfold MID. rewrite mid_step by (now apply upper_not_space).
      exact Hm.
    - intros m Hm1 Hm2.
      destruct (rmatch MID _ _ accept) as [res'|] eqn:E; [exfalso|reflexivity].
      unfold MID in E. apply mid_needs_vs in E. rewrite ET in E.
      rewrite Sp1 in Hm2. rewrite skipn_app in E.
      destruct (Nat.lt_ge_cases m (length body)) as [Lt|Ge].
      + replace (m - length body) with 0 in E by lia. cbn [skipn] in E.
        rewrite late_vs_app in E.
        * rewrite forallb_forall in V.
          specialize (V m). rewrite in_seq in V.
          specialize (V ltac:(lia)). fold body in V.
          apply negb_true_iff in V. congruence.
        * apply not_blank_from; [|exact Lt]. unfold body.
          rewrite app_assoc. now rewrite ends_space_app by discriminate.
      + rewrite skipn_all2 in E by lia. cbn [app] in E.
        rewrite late_vs_closing in E by (auto; lia). discriminate. }
  exists (n - length r2). rewrite Sp2 in Hn2. split; [lia|].
  unfold match_at. fold T2. fold T1. rewrite M, Er.
  assert (Ln : n <= length T2)
    by (unfold T2; rewrite !length_app; cbn [length]; lia).
  f_equal. f_equal.
  - rewrite length_skipn. unfold T1. cbn [length].
    rewrite !length_app. cbn [length]. change (length (txt " vs ")) with 4.
    lia.
  - f_equal. f_equal. unfold T2.
    rewrite firstn_app, firstn_all2 by lia. f_equal.
    rewrite firstn_app.
    replace (n - length r2 - length ws) with 0 by lia.
    cbn [firstn]. now rewrite app_nil_r.
Qed.

End Mention.

Lemma findall_from_skip (r : regex) (s : str) :
  forall n pv, n <= length s ->
  findall_from r pv s n = findall_from r (prev_at pv s n) (skipn n s) 0.
Proof.
  induction s as [|c s IH]; intros n pv L.
  - destruct n; [reflexivity|simpl in L; lia].
  - destruct n as [|m]; [reflexivity|]. cbn [findall_from skipn].
    rewrite <- (prev_at_cons pv). apply IH. simpl in L. lia.
Qed.

(** No match starts before the first capital letter. *)
Lemma findall_skip_to (gap rest : str) (d : ascii) :
  no_capital gap = true -> is_upper d = false ->
  forall pv,
  findall_from vs_pattern pv (gap ++ d :: rest) 0
  = findall_from vs_pattern (Some d) rest 0.
Proof.
  unfold no_capital. intros G D.
  induction gap as [|c gap IH]; intros pv; cbn [app].
  - now apply findall_skip_char.
  - cbn [forallb] in G. apply andb_true_iff in G as [Hc G].
    apply negb_true_iff in Hc. rewrite (findall_skip_char pv c _ Hc).
    now apply IH.
Qed.

Lemma mention_found (c1 c2 : ascii) (r1 r2 ws rest : str) (d : ascii) pv :
  raw_shape 2 50 (c1 :: r1) = true ->
  raw_shape 2 50 (c2 :: r2) = true ->
  word_before (prev_at (Some c2) r2 (length r2)) = true ->
  ends_space (c2 :: r2) = false ->
  forallb (fun n => negb (late_vs (skipn n (r1 ++ txt " vs " ++ c2 :: r2))))
    (seq (S (length r1)) (4 + length r2)) = true ->
  forallb is_space ws = true -> name_char d = false ->
  (ws = [] -> is_word d = false) ->
  word_before pv = false ->
  exists j, j <= length ws /\
    findall_from vs_pattern pv
      (c1 :: r1 ++ txt " vs " ++ c2 :: r2 ++ ws ++ d :: rest) 0
    = [c1 :: r1; c2 :: r2 ++ firstn j ws]
      :: findall_from vs_pattern (Some d) rest 0.
Proof.
  intros S1 S2 W2 E2 V Hws Hd Hglue Hpv.
  destruct (mention_match c1 c2 r1 r2 S1 S2 W2 E2 V ws rest d Hws Hd Hglue
              pv Hpv) as [j [Hj M]].
  exists j. split; [exact Hj|]. cbn [findall_from]. rewrite M.
  cbn [Nat.add]. f_equal.
  set (A := r1 ++ txt " vs " ++ c2 :: r2 ++ firstn j ws).
  assert (E : r1 ++ txt " vs " ++ c2 :: r2 ++ ws ++ d :: rest
              = A ++ skipn j ws ++ d :: rest).
  { unfold A. rewrite <- (firstn_skipn j ws) at 1.
    rewrite <- !app_assoc. cbn [app]. now rewrite <- !app_assoc. }
  assert (L : length r1 + 4 + S (length r2) + j = length A).
  { unfold A. rewrite !length_app. cbn [length]. rewrite !length_app.
    change (length (txt " vs ")) with 4. rewrite length_firstn. lia. }
  rewrite E, L, findall_from_skip by (rewrite length_app; lia).
  rewrite skipn_length_app.
  apply findall_skip_to; [|now apply name_not_upper].
  apply blank_no_capital. rewrite <- (firstn_skipn j ws) in Hws.
  rewrite forallb_app in Hws. now apply andb_true_iff in Hws as [_ Hws].
Qed.

Lemma rstrip_blank (ws : str) : forallb is_space ws = true -> rstrip ws = [].
Proof.
  induction ws as [|w ws IH]; [reflexivity|]. cbn [forallb rstrip].
  intros H. apply andb_true_iff in H as [Hw H]. now rewrite (IH H), Hw.
Qed.

Lemma rstrip_blank_tail (s ws : str) :
  forallb is_space ws = true -> rstrip (s ++ ws) = rstrip s.
Proof.
  intros H. induction s as [|c s IH]; cbn [app rstrip].
  - now apply rstrip_blank.
  - now rewrite IH.
Qed.

Lemma lstrip_blank (ws : str) : forallb is_space ws = true -> lstrip ws = [].
Proof.
  induction ws as [|w ws IH]; [reflexivity|]. cbn [forallb lstrip].
  intros H. apply andb_true_iff in H as [Hw H]. now rewrite Hw, IH.
Qed.

(** Whitespace after a name is stripped with the name's own. *)
Lemma strip_blank_tail (a ws : str) :
  forallb is_space ws = true -> strip (a ++ ws) = strip a.
Proof.
  intros H. unfold strip. destruct (forallb is_space a) eqn:B.
  - rewrite (lstrip_blank a B), lstrip_blank; [reflexivity|].
    now rewrite forallb_app, B.
  - destruct (lstrip_app a ws B) as [-> _]. now apply rstrip_blank_tail.
Qed.

Lemma closed_by_split (Q : str) :
  closed_by Q = true ->
  exists ws d rest,
    Q = ws ++ d :: rest /\ forallb is_space ws = true
    /\ name_char d = false /\ (ws = [] -> is_word d = false).
Proof.
  unfold closed_by. intros H. destruct (lstrip_split Q) as [ws [E Hw]].
  destruct (lstrip Q) as [|d rest]; [discriminate|].
  apply andb_true_iff in H as [Hd Hg]. apply negb_true_iff in Hd.
  exists ws, d, rest. repeat split; auto.
  intros ->. cbn [app] in E. subst Q. cbn [starts_space] in Hg.
  rewrite (name_not_space d Hd) in Hg. now apply negb_true_iff in Hg.
Qed.

Lemma valid_of_cons (caps : list str) (found : list (list str)) :
  valid_of (caps :: found)
  = (if valid_pair (clean_match (nth 0 caps [], nth 1 caps []))
     then [clean_match (nth 0 caps [], nth 1 caps [])] else [])
    ++ valid_of found.
Proof.
  unfold valid_of. cbn [map filter].
  destruct (valid_pair _); reflexivity.
Qed.

Lemma clean_match_blank_tail (g1 g2 ws : str) :
  forallb is_space ws = true ->
  clean_match (g1, g2 ++ ws) = clean_match (g1, g2).
Proof.
  intros H. unfold clean_match. cbn [fst snd].
  now rewrite (strip_blank_tail g2 ws H).
Qed.

Lemma firstn_blank (j : nat) (ws : str) :
  forallb is_space ws = true -> forallb is_space (firstn j ws) = true.
Proof.
  intros H. rewrite <- (firstn_skipn j ws), forallb_app in H.
  now apply andb_true_iff in H as [H _].
Qed.

(** A match does not start at a capital letter that follows a word
    character. *)
Lemma match_at_vs_inside pv (c : ascii) (s : str) :
  word_before pv = true -> is_word c = true ->
  match_at vs_pattern pv (c :: s) = None.
Proof.
  intros H W. unfold match_at, vs_pattern. cbn [rmatch fst snd word_after].
  now rewrite H, W.
Qed.

Lemma findall_skip_inside pv (c : ascii) (s : str) :
  word_before pv = true -> is_word c = true ->
  findall_from vs_pattern pv (c :: s) 0 = findall_from vs_pattern (Some c) s 0.
Proof.
  intros H W. cbn [findall_from]. now rewrite match_at_vs_inside.
Qed.

(** The full mention, closed: the full pair, then what the rest of the
    text gives. *)
Lemma closing_full (Q : str) pv :
  ends_here Q = true ->
  valid_of (findall_from vs_pattern pv (mention_full ++ Q) 0)
  = full_pair :: valid_of (findall_from vs_pattern None Q 0).
Proof.
  unfold ends_here. intros H. apply orb_true_iff in H as [H|H].
  - rewrite (findall_trailing Q H) by lia.
    rewrite valid_of_full, (findall_no_capital Q (blank_no_capital Q H)).
    reflexivity.
  - destruct (closed_by_split Q H) as [ws [d [rest [-> [Hw [Hd Hg]]]]]].
    rewrite (findall_skip_to ws rest d (blank_no_capital ws Hw)
               (name_not_upper d Hd) None).
    unfold mention_full.
    change (txt "#4 Justin Gaethje vs Max Holloway" ++ ws ++ d :: rest)
      with ("#"%char :: "4"%char :: " "%char :: "J"%char
            :: txt "ustin Gaethje" ++ txt " vs "
               ++ "M"%char :: txt "ax Holloway" ++ ws ++ d :: rest).
    rewrite !findall_skip_char by reflexivity.
    destruct (mention_found "J" "M" (txt "ustin Gaethje") (txt "ax Holloway")
                ws rest d (Some " "%char) eq_refl eq_refl eq_refl eq_refl
                eq_refl Hw Hd Hg eq_refl) as [j [_ ->]].
    rewrite valid_of_cons. cbn [nth].
    change ("M"%char :: txt "ax Holloway" ++ firstn j ws)
      with (txt "Max Holloway" ++ firstn j ws).
    rewrite (clean_match_blank_tail _ _ _ (firstn_blank j ws Hw)).
    reflexivity.
Qed.

(** The short mention, closed: after a word character the match starts at
    "Gaethje", otherwise at "Live"; the cleaned pair is the same. *)
Lemma closing_short (Q : str) pv :
  ends_here Q = true ->
  valid_of (findall_from vs_pattern pv (mention_short ++ Q) 0)
  = short_pair :: valid_of (findall_from vs_pattern None Q 0).
Proof.
  unfold ends_here. intros H. apply orb_true_iff in H as [H|H].
  - rewrite (findall_trailing Q H) by lia.
    rewrite valid_of_short, (findall_no_capital Q (blank_no_capital Q H)).
    reflexivity.
  - destruct (closed_by_split Q H) as [ws [d [rest [-> [Hw [Hd Hg]]]]]].
    rewrite (findall_skip_to ws rest d (blank_no_capital ws Hw)
               (name_not_upper d Hd) None).
    unfold mention_short. destruct (word_before pv) eqn:W.
    + change (txt "Live now Gaethje vs Holloway" ++ ws ++ d :: rest)
        with ("L"%char :: "i"%char :: "v"%char :: "e"%char :: " "%char
              :: "n"%char :: "o"%char :: "w"%char :: " "%char :: "G"%char
              :: txt "aethje" ++ txt " vs "
                 ++ "H"%char :: txt "olloway" ++ ws ++ d :: rest).
      rewrite (findall_skip_inside pv "L"%char _ W eq_refl).
      rewrite !findall_skip_char by reflexivity.
      destruct (mention_found "G" "H" (txt "aethje") (txt "olloway")
                  ws rest d (Some " "%char) eq_refl eq_refl eq_refl eq_refl
                  eq_refl Hw Hd Hg eq_refl) as [j [_ ->]].
      rewrite valid_of_cons. cbn [nth].
      change ("H"%char :: txt "olloway" ++ firstn j ws)
        with (txt "Holloway" ++ firstn j ws).
      rewrite (clean_match_blank_tail _ _ _ (firstn_blank j ws Hw)).
      reflexivity.
    + change (txt "Live now Gaethje vs Holloway" ++ ws ++ d :: rest)
        with ("L"%char :: txt "ive now Gaethje" ++ txt " vs "
                 ++ "H"%char :: txt "olloway" ++ ws ++ d :: rest).
      destruct (mention_found "L" "H" (txt "ive now Gaethje") (txt "olloway")
                  ws rest d pv eq_refl eq_refl eq_refl eq_refl
                  eq_refl Hw Hd Hg W) as [j [_ ->]].
      rewrite valid_of_cons. cbn [nth].
      change ("H"%char :: txt "olloway" ++ firstn j ws)
        with (txt "Holloway" ++ firstn j ws).
      rewrite (clean_match_blank_tail _ _ _ (firstn_blank j ws Hw)).
      reflexivity.
Qed.

Lemma closed_by_app (P X : str) :
  closed_by P = true -> closed_by (P ++ X) = true.
Proof.
  unfold closed_by. intros H.
  assert (B : forallb is_space P = false).
  { destruct (forallb is_space P) eqn:B; [|reflexivity].
    rewrite (lstrip_blank P B) in H. discriminate. }
  destruct (lstrip_app P X B) as [-> N].
  replace (starts_space (P ++ X)) with (starts_space P)
    by (destruct P; [discriminate|reflexivity]).
  destruct (lstrip P); [congruence|exact H].
Qed.

Lemma ends_here_before_full (P X : str) :
  ends_here P = true -> ends_here (P ++ mention_full ++ X) = true.
Proof.
  unfold ends_here. intros H. apply orb_true_iff in H as [H|H].
  - apply orb_true_iff. right. unfold closed_by.
    assert (L : lstrip (P ++ mention_full ++ X) = mention_full ++ X).
    { clear -H. induction P as [|c P IH]; [reflexivity|].
      cbn [forallb] in H. apply andb_true_iff in H as [Hc H].
      cbn [app lstrip]. rewrite Hc. now apply IH. }
    rewrite L. unfold mention_full.
    change (txt "#4 Justin Gaethje vs Max Holloway" ++ X)
      with ("#"%char :: txt "4 Justin Gaethje vs Max Holloway" ++ X).
    cbv iota. change (name_char "#") with false.
    change (is_word "#") with false. apply orb_true_r.
  - apply orb_true_iff. right. now apply closed_by_app.
Qed.

(** The valid pairs of a page with the two mentions: those of the text
    before, between and after them, and the two pairs. *)
Lemma valid_pairs_full_short (P0 P1 P2 : str) :
  closed_by P1 = true -> leads_in P1 = true -> ends_here P2 = true ->
  valid_pairs (P0 ++ mention_full ++ P1 ++ mention_short ++ P2)
  = valid_pairs P0 ++ full_pair :: valid_pairs P1
    ++ short_pair :: valid_pairs P2.
Proof.
  intros C1 L1 E2. rewrite !valid_pairs_of. unfold re_findall.
  rewrite findall_before_full, valid_of_app. f_equal.
  rewrite closing_full
    by (unfold ends_here; rewrite (closed_by_app _ _ C1); apply orb_true_r).
  f_equal.
  destruct (findall_opening P1 (mention_short ++ P2) None L1) as [pv' ->].
  now rewrite valid_of_app, closing_short.
Qed.

Lemma valid_pairs_short_full (P0 P1 P2 : str) :
  leads_in P0 = true -> ends_here P1 = true -> ends_here P2 = true ->
  valid_pairs (P0 ++ mention_short ++ P1 ++ mention_full ++ P2)
  = valid_pairs P0 ++ short_pair :: valid_pairs P1
    ++ full_pair :: valid_pairs P2.
Proof.
  intros L0 E1 E2. rewrite !valid_pairs_of. unfold re_findall.
  destruct (findall_opening P0 (mention_short ++ P1 ++ mention_full ++ P2)
              None L0) as [pv' ->].
  rewrite valid_of_app. f_equal.
  rewrite closing_short by (now apply ends_here_before_full). f_equal.
  now rewrite findall_before_full, valid_of_app, closing_full.
Qed.

(** ** The entry of one fight in the aggregation map *)

Lemma dict_get_set_same (d : dict) (k v : pair) :
  dict_get (dict_set d k v) k = Some v.
Proof.
  induction d as [|[k' v'] d IH]; cbn [dict_set dict_get].
  - now rewrite (proj2 (key_eqb_eq k k) eq_refl).
  - destruct (key_eqb k' k) eqn:E; cbn [dict_get]; rewrite E; auto.
Qed.

Lemma dict_get_set_other (d : dict) (k K v : pair) :
  k <> K -> dict_get (dict_set d k v) K = dict_get d K.
Proof.
  intros N. induction d as [|[k' v'] d IH]; cbn [dict_set dict_get].
  - destruct (key_eqb k K) eqn:E; [|reflexivity].
    apply key_eqb_eq in E. contradiction.
  - destruct (key_eqb k' k) eqn:E; cbn [dict_get].
    + apply key_eqb_eq in E. subst k'.
      destruct (key_eqb k K) eqn:E'; [|reflexivity].
      apply key_eqb_eq in E'. contradiction.
    + destruct (key_eqb k' K); [reflexivity|exact IH].
Qed.

Lemma dict_get_in (d : dict) (k v : pair) :
  dict_get d k = Some v -> In (k, v) d.
Proof.
  induction d as [|[k' v'] d IH]; cbn [dict_get]; [discriminate|].
  destruct (key_eqb k' k) eqn:E.
  - apply key_eqb_eq in E. subst k'. intros H. injection H as ->. now left.
  - intros H. right. now apply IH.
Qed.

Lemma dict_get_none (d : dict) (k : pair) :
  dict_get d k = None -> ~ In k (map fst d).
Proof.
  induction d as [|[k' v'] d IH]; cbn [dict_get map fst]; [intros _ []|].
  destruct (key_eqb k' k) eqn:E; [discriminate|].
  intros H [->|I]; [|now apply IH].
  rewrite (proj2 (key_eqb_eq k k) eq_refl) in E. discriminate.
Qed.

Lemma find_matched_key_some (d : dict) (p k e : pair) :
  In (k, e) d -> same_fight p e = true ->
  exists k', find_matched_key d p = Some k'.
Proof.
  induction d as [|[k' e'] d IH]; [intros []|]. cbn [find_matched_key].
  intros [H|H] S.
  - injection H as -> ->. rewrite S. now exists k.
  - destruct (same_fight p e'); [now exists k'|now apply IH].
Qed.

(** A matched entry is filed under the key of the new pair. *)
Lemma matched_key_is_key (d : dict) (p k : pair) :
  keyed d -> find_matched_key d p = Some k -> k = pair_key p.
Proof.
  intros Hk F. apply find_matched_key_in in F as [e [I S]].
  rewrite (Hk k e I). symmetry. now apply same_fight_same_key.
Qed.

(** A pair with another key leaves the entry alone. *)
Lemma add_pair_other_key (d : dict) (p K : pair) :
  keyed d -> pair_key p <> K ->
  dict_get (add_pair d p) K = dict_get d K.
Proof.
  intros Hk N. unfold add_pair.
  destruct (find_matched_key d p) as [k|] eqn:F.
  - apply (matched_key_is_key d p k Hk) in F. subst k.
    destruct (dict_get d (pair_key p)) as [existing|]; [|reflexivity].
    destruct (replaces p existing); [|reflexivity].
    now apply dict_get_set_other.
  - now apply dict_get_set_other.
Qed.

(** A pair with the key of an entry that it matches replaces it or leaves
    it. *)
Lemma add_pair_matching (d : dict) (p e : pair) :
  keyed d -> dict_get d (pair_key p) = Some e -> same_fight p e = true ->
  dict_get (add_pair d p) (pair_key p)
  = Some (if replaces p e then p else e).
Proof.
  intros Hk G S. unfold add_pair.
  destruct (find_matched_key_some d p _ e (dict_get_in _ _ _ G) S) as [k F].
  rewrite F. apply (matched_key_is_key d p k Hk) in F. subst k. rewrite G.
  destruct (replaces p e); [apply dict_get_set_same|exact G].
Qed.

(** A pair whose key is not in the map is filed under it. *)
Lemma add_pair_new_key (d : dict) (p : pair) :
  keyed d -> dict_get d (pair_key p) = None ->
  dict_get (add_pair d p) (pair_key p) = Some p.
Proof.
  intros Hk G. unfold add_pair.
  rewrite (no_match_without_key d p Hk (dict_get_none _ _ G)).
  apply dict_get_set_same.
Qed.

Lemma add_full_pair (d : dict) :
  keyed d -> held d ->
  dict_get (add_pair d full_pair) (pair_key full_pair) = Some full_pair.
Proof.
  intros Hk [G|[G|G]].
  - now apply add_pair_new_key.
  - now rewrite (add_pair_matching d full_pair full_pair Hk G eq_refl).
  - now rewrite (add_pair_matching d full_pair short_pair Hk G eq_refl).
Qed.

Lemma add_short_pair (d : dict) :
  keyed d -> held d ->
  held (add_pair d short_pair)
  /\ (dict_get d (pair_key full_pair) = Some full_pair ->
      dict_get (add_pair d short_pair) (pair_key full_pair) = Some full_pair).
Proof.
  change (pair_key full_pair) with (pair_key short_pair). unfold held.
  change (pair_key full_pair) with (pair_key short_pair).
  intros Hk [G|[G|G]].
  - rewrite (add_pair_new_key d short_pair Hk G). split; [auto|].
    rewrite G. discriminate.
  - rewrite (add_pair_matching d short_pair full_pair Hk G eq_refl).
    split; auto.
  - rewrite (add_pair_matching d short_pair short_pair Hk G eq_refl).
    split; [auto|]. rewrite G. discriminate.
Qed.

(** Once the full pair has come by, it is the entry of the fight and stays
    it, as long as every other pair with the same key is the short one. *)
Lemma fold_keeps_full (ps : list pair) :
  (forall p, In p ps -> pair_key p = pair_key full_pair ->
             p = full_pair \/ p = short_pair) ->
  forall d, keyed d /\ unique_keys d -> held d ->
  In full_pair ps \/ dict_get d (pair_key full_pair) = Some full_pair ->
  dict_get (fold_left add_pair ps d) (pair_key full_pair) = Some full_pair.
Proof.
  induction ps as [|p ps IH]; intros Hp d Hd Hh Hf; cbn [fold_left].
  - destruct Hf as [[]|Hf]. exact Hf.
  - assert (Hp' : forall q, In q ps -> pair_key q = pair_key full_pair ->
                            q = full_pair \/ q = short_pair)
      by (intros q I; apply Hp; now right).
    pose proof (add_pair_invariant d p Hd) as Hd'.
    destruct Hd as [Hk Hu].
    destruct (key_eqb (pair_key p) (pair_key full_pair)) eqn:E.
    + apply key_eqb_eq in E.
      destruct (Hp p (or_introl eq_refl) E) as [->| ->].
      * pose proof (add_full_pair d Hk Hh) as G.
        apply (IH Hp' _ Hd'); [right; now left|now right].
      * destruct (add_short_pair d Hk Hh) as [Hh' G].
        apply (IH Hp' _ Hd' Hh').
        destruct Hf as [[F|F]|F]; [discriminate F|now left|right; auto].
    + assert (N : pair_key p <> pair_key full_pair)
        by (intros N; apply key_eqb_eq in N; congruence).
      pose proof (add_pair_other_key d p _ Hk N) as G.
      apply (IH Hp' _ Hd').
      * unfold held. rewrite G. exact Hh.
      * destruct Hf as [[F|F]|F]; [subst p; congruence|now left|].
        right. now rewrite G.
Qed.

(** Among the output pairs, exactly the value filed under a key passes a
    test that only pairs of that key pass. *)
Lemma filter_one_per_key (d : dict) (q : pair -> bool) (v : pair) :
  keyed d -> unique_keys d ->
  (forall e, q e = true -> pair_key e = pair_key v) ->
  In (pair_key v, v) d -> q v = true ->
  filter q (map snd d) = [v].
Proof.
  intros Hk Hu Hq. induction d as [|[k e] d IH]; [intros []|].
  inversion Hu as [|? ? Hn Hd]; subst.
  assert (Hk' : keyed d) by (intros k0 v0 H; apply Hk; now right).
  cbn [map snd filter]. intros [H|H] Qv.
  - injection H as -> ->. rewrite Qv. f_equal.
    now apply (filter_none_without_key d q (pair_key v)).
  - destruct (q e) eqn:Qe; [exfalso|now apply IH].
    apply Hn. rewrite (Hk k e (or_introl eq_refl)), (Hq e Qe).
    apply in_map_iff. now exists (pair_key v, v).
Qed.

(** The output for a list of valid pairs that holds the full pair and, under
    its key, nothing else but the short pair. *)
Lemma one_entry_for_the_fight (text : str) :
  In full_pair (valid_pairs text) ->
  (forall p, In p (valid_pairs text) -> pair_key p = pair_key full_pair ->
             p = full_pair \/ p = short_pair) ->
  filter (fun e => represents e full_pair) (fighter_pairs_of_text text)
  = [full_pair].
Proof.
  intros I Hp. unfold fighter_pairs_of_text, aggregate.
  pose proof (aggregate_invariant (find_matches text)) as [Hk Hu].
  unfold aggregate in Hk, Hu. rewrite fold_filter in *.
  apply filter_one_per_key; auto.
  - intros e. apply represents_same_key.
  - apply dict_get_in. apply (fold_keeps_full _ Hp).
    + split; [intros k v []|constructor].
    + now left.
    + now left.
Qed.

Lemma output_of_valid_pairs (text : str) :
  fighter_pairs_of_text text
  = map snd (fold_left add_pair (valid_pairs text) []).
Proof.
  unfold fighter_pairs_of_text, aggregate, valid_pairs. now rewrite fold_filter.
Qed.

(** ** The two mentions of one fight on a page *)

(** C1, counterexample: with only a space between the two mentions the
    scan takes "Justin Gaethje vs Max Holloway Live now Gaethje" for one
    name, which is too long to be valid, and no pair comes out at all. *)
Lemma two_mentions_run_together :
  let text := txt "#4 Justin Gaethje vs Max Holloway Live now Gaethje vs Holloway" in
  contains mention_full text = true
  /\ contains mention_short text = true
  /\ find_matches text
     = [(txt "Justin Gaethje vs Max Holloway Live now Gaethje", txt "Holloway")]
  /\ fighter_pairs_of_text text = [].
Proof. vm_compute. repeat split; reflexivity. Qed.

(** What the conditions of the amended property keep out: a capital
    letter between the last bar and the short mention is taken into the
    name, and the pair so read takes the place of the full one; a later
    pair with other first names and the same surnames does so too; and a
    digit directly after the full mention leaves "Max" for its second
    name, which is no valid name, so that only the short pair comes out. *)
Lemma rest_of_the_page_matters :
  fighter_pairs_of_text
    (txt "#4 Justin Gaethje vs Max Holloway | Prelims Live now Gaethje vs Holloway")
  = [(txt "Prelims Live now Gaethje", txt "Holloway")]
  /\ fighter_pairs_of_text
       (txt "#4 Justin Gaethje vs Max Holloway | Live now Gaethje vs Holloway | Tom Gaethje vs Bob Holloway")
     = [(txt "Tom Gaethje", txt "Bob Holloway")]
  /\ fighter_pairs_of_text
       (txt "#4 Justin Gaethje vs Max Holloway5 | Live now Gaethje vs Holloway")
     = [short_pair].
Proof. vm_compute. repeat split; reflexivity. Qed.

(** C1, amended: take a page text that holds the mention
    "#4 Justin Gaethje vs Max Holloway" and the mention
    "Live now Gaethje vs Holloway", in either order, with any text [P0]
    before them, [P1] between them and [P2] after them, where
    - what follows a mention is only whitespace up to the end of the text,
      or goes on, after any whitespace, with a character that cannot be
      part of a name (anything but a letter a-z or A-Z, whitespace, a
      hyphen or an apostrophe: a bar, a full stop, a digit, "#"); when
      that character stands directly after the mention, it is no word
      character (no digit, no underscore, no accented letter) either;
    - no capital letter stands between the short mention and the last
      character before it that cannot be part of a name (or the start of
      the text);
    - the valid pairs read from [P0], [P1] and [P2] that have the key of
      this fight, if any, are these two pairs again.
    Then the output has exactly one pair for this fight, and it is
    ("Justin Gaethje", "Max Holloway"); when [P0], [P1] and [P2] hold no
    valid pair at all, it is the whole output. *)
Theorem two_mentions_one_pair (P0 P1 P2 text : str) :
  (closed_by P1 = true /\ leads_in P1 = true
   /\ text = P0 ++ mention_full ++ P1 ++ mention_short ++ P2)
  \/ (leads_in P0 = true /\ ends_here P1 = true
      /\ text = P0 ++ mention_short ++ P1 ++ mention_full ++ P2) ->
  ends_here P2 = true ->
  (forall p, In p (valid_pairs P0 ++ valid_pairs P1 ++ valid_pairs P2) ->
             pair_key p = pair_key full_pair ->
             p = full_pair \/ p = short_pair) ->
  filter (fun e => represents e full_pair) (fighter_pairs_of_text text)
  = [full_pair]
  /\ (valid_pairs P0 ++ valid_pairs P1 ++ valid_pairs P2 = [] ->
      fighter_pairs_of_text text = [full_pair]).
Proof.
  intros Ht E2 Hr.
  assert (V : valid_pairs text
              = valid_pairs P0 ++ full_pair :: valid_pairs P1
                ++ short_pair :: valid_pairs P2
              \/ valid_pairs text
                 = valid_pairs P0 ++ short_pair :: valid_pairs P1
                   ++ full_pair :: valid_pairs P2).
  { destruct Ht as [[C1 [L1 ->]]|[L0 [E1 ->]]].
    - left. now apply valid_pairs_full_short.
    - right. now apply valid_pairs_short_full. }
  split.
  - apply one_entry_for_the_fight.
    + destruct V as [-> | ->]; rewrite !in_app_iff; cbn [In]; auto.
      right. right. rewrite in_app_iff. cbn [In]. auto.
    + intros p I K.
      assert (R : In p (valid_pairs P0 ++ valid_pairs P1 ++ valid_pairs P2)
                  \/ p = full_pair \/ p = short_pair).
      { destruct V as [V|V]; rewrite V in I;
          repeat (rewrite in_app_iff in I; cbn [In] in I);
          rewrite !in_app_iff; intuition auto. }
      destruct R as [R|R]; [now apply Hr|exact R].
  - intros N. apply app_eq_nil in N as [N0 N].
    apply app_eq_nil in N as [N1 N2]. rewrite output_of_valid_pairs.
    destruct V as [-> | ->]; rewrite N0, N1, N2; vm_compute; reflexivity.
Qed.

(** A fight card with a heading, the full mention followed by a blank and
    a digit, the short mention between bars, another fight and the short
    mention once more; and the two mentions in the other order, the short
    one after a heading that ends with a digit and a blank, with blanks
    and a full stop between them. *)
Lemma two_mentions_one_pair_witness :
  filter (fun e => represents e full_pair)
    (fighter_pairs_of_text
       (txt "UFC 324: Main Card | " ++ mention_full ++ txt " 5 Rounds | "
        ++ mention_short
        ++ txt " | Jon Jones vs Tom Aspinall | Live now Gaethje vs Holloway"))
  = [full_pair]
  /\ fighter_pairs_of_text
       (txt "UFC 324 " ++ mention_short ++ txt " . " ++ mention_full
        ++ txt " | Prelims")
     = [full_pair].
Proof.
  split.
  - refine (proj1 (two_mentions_one_pair
                     (txt "UFC 324: Main Card | ") (txt " 5 Rounds | ")
                     (txt " | Jon Jones vs Tom Aspinall | Live now Gaethje vs Holloway")
                     _
                     (or_introl (conj eq_refl (conj eq_refl eq_refl)))
                     eq_refl _)).
    intros p H K. vm_compute in H. destruct H as [<-|[<-|[]]].
    + vm_compute in K. discriminate K.
    + right. reflexivity.
  - refine (proj2 (two_mentions_one_pair
                     (txt "UFC 324 ") (txt " . ") (txt " | Prelims") _
                     (or_intror (conj eq_refl (conj eq_refl eq_refl)))
                     eq_refl _) eq_refl).
    intros p H. vm_compute in H. destruct H.
Defined.
